(** * built-studio: the template/state reconciliation engine

    A shallow embedding of the editing core of
    [src/components/EditorInterface.tsx] and [src/components/Preview.tsx]:
    placeholder scanning, the debounced state reconciler, group inference,
    the structural mutators (swap, duplicate), the theme rewriter and the
    preview substitution pass.

    Conventions of the embedding.
    - A JavaScript string is the list of its UTF-16 code units ([jstring]).
    - A JavaScript object used as a dictionary is the ordered list of its
      own properties ([obj]), in own-property order: array-index keys
      first, ascending, then the other keys in creation order.  Where the
      code reaches a property through the prototype of a plain object (an
      assignment to [__proto__], a call of [hasOwnProperty], the truth of
      an inherited name) the embedding follows [Object.prototype].
    - The parsed document ([DOMParser]) is a tree of nodes; a node is
      identified by its path of child indices from [body].  Parsing and
      serialisation are the browser's: functions that read [innerHTML] take
      the serialiser as an argument, and the functions that end in
      [setHtml(doc.body.innerHTML)] return the mutated tree. *)

From Stdlib Require Import String Ascii DecimalString.
From Stdlib Require Import List NArith Arith Bool Lia Permutation.
Import ListNotations.

Set Implicit Arguments.
Set Warnings "-register-all".

(* ================================================================== *)
(** ** JavaScript strings *)

Abbreviation cu := N (only parsing).
Abbreviation jstring := (list N) (only parsing).

Definition str (s : string) : jstring :=
  map N_of_ascii (list_ascii_of_string s).
Arguments str s%_string.

Fixpoint jeqb (a b : jstring) : bool :=
  match a, b with
  | [], [] => true
  | x :: a', y :: b' => N.eqb x y && jeqb a' b'
  | _, _ => false
  end.

Definition inRange (lo hi c : N) : bool := N.leb lo c && N.leb c hi.

(** [\d] *)
Definition is_digit (c : cu) : bool := inRange 48 57 c.

(** [\w]: [[A-Za-z0-9_]] *)
Definition is_word_char (c : cu) : bool :=
  inRange 97 122 c || inRange 65 90 c || inRange 48 57 c || N.eqb c 95.

(** [[a-zA-Z0-9_-]], the key class of the placeholder pattern *)
Definition is_key_char (c : cu) : bool :=
  inRange 97 122 c || inRange 65 90 c || inRange 48 57 c || N.eqb c 95
  || N.eqb c 45.

(** [\s]: the WhiteSpace and LineTerminator code points *)
Definition is_space (c : cu) : bool :=
  inRange 9 13 c || N.eqb c 32 || N.eqb c 160 || N.eqb c 5760
  || inRange 8192 8202 c || N.eqb c 8232 || N.eqb c 8233 || N.eqb c 8239
  || N.eqb c 8287 || N.eqb c 12288 || N.eqb c 65279.

(** [s.startsWith(p)], and the rest of [s] after [p] *)
Fixpoint strip_prefix (p s : jstring) : option jstring :=
  match p with
  | [] => Some s
  | x :: p' =>
      match s with
      | [] => None
      | y :: s' => if N.eqb x y then strip_prefix p' s' else None
      end
  end.

Definition startsWith (s p : jstring) : bool :=
  match strip_prefix p s with Some _ => true | None => false end.

(** [s.includes(sub)] *)
Fixpoint includes (s sub : jstring) : bool :=
  startsWith s sub
  || match s with
     | [] => false
     | _ :: s' => includes s' sub
     end.

(** [arr.includes(k)] on an array of strings *)
Definition mem (k : jstring) (l : list jstring) : bool := existsb (jeqb k) l.

(** the longest prefix of [s] in the class [p], and what follows it
    (a greedy [p*]) *)
Fixpoint span (p : cu -> bool) (s : jstring) : jstring * jstring :=
  match s with
  | [] => ([], [])
  | c :: s' =>
      if p c then let (a, b) := span p s' in (c :: a, b) else ([], s)
  end.

(** [String(n)] for a non-negative integer *)
Definition decimal (n : N) : jstring :=
  str (NilZero.string_of_uint (N.to_uint n)).

(* ================================================================== *)
(** ** JavaScript objects used as dictionaries *)

(** an array index: a canonical numeric string below [2^32 - 1] *)
Definition array_index (k : jstring) : option N :=
  match k with
  | [] => None
  | c :: rest =>
      if forallb is_digit k
         && (negb (N.eqb c 48) || match rest with [] => true | _ => false end)
      then
        let n := fold_left (fun acc d => (acc * 10 + (d - 48))%N) k 0%N in
        if N.ltb n 4294967295 then Some n else None
      else None
  end.

Section Objects.
Variable V : Type.

Definition obj := list (jstring * V).

(** [Object.keys(o)] *)
Definition obj_keys (o : obj) : list jstring := map fst o.

(** [o[k]], [None] for [undefined] *)
Fixpoint obj_get (o : obj) (k : jstring) : option V :=
  match o with
  | [] => None
  | (k', v) :: o' => if jeqb k' k then Some v else obj_get o' k
  end.

(** [o.hasOwnProperty(k)] *)
Definition obj_has (o : obj) (k : jstring) : bool :=
  match obj_get o k with Some _ => true | None => false end.

(** [delete o[k]] *)
Fixpoint obj_delete (o : obj) (k : jstring) : obj :=
  match o with
  | [] => []
  | (k', v) :: o' =>
      if jeqb k' k then obj_delete o' k else (k', v) :: obj_delete o' k
  end.

Fixpoint obj_update (o : obj) (k : jstring) (v : V) : obj :=
  match o with
  | [] => []
  | (k', v') :: o' =>
      if jeqb k' k then (k', v) :: o' else (k', v') :: obj_update o' k v
  end.

Fixpoint obj_insert_index (o : obj) (n : N) (k : jstring) (v : V) : obj :=
  match o with
  | [] => [(k, v)]
  | (k', v') :: o' =>
      match array_index k' with
      | Some m =>
          if N.ltb m n then (k', v') :: obj_insert_index o' n k v
          else (k, v) :: o
      | None => (k, v) :: o
      end
  end.

(** [o[k] = v]: an existing property keeps its place; a new one is
    created at the place own-property order gives it *)
Definition obj_set (o : obj) (k : jstring) (v : V) : obj :=
  if obj_has o k then obj_update o k v
  else match array_index k with
       | Some n => obj_insert_index o n k v
       | None => o ++ [(k, v)]
       end.
End Objects.

(* ================================================================== *)
(** ** State *)

(** A display value: a string or another scalar.  Of a number, a
    boolean or a bigint the code only ever uses the [String(...)] text. *)
Inductive value : Type :=
| VStr (s : jstring)
| VUndefined
| VNull
| VOther (shown : jstring).

(** State: the own properties of the state object, a plain object *)
Definition State := obj value.

(** [`[${key}]`] *)
Definition defaultValue (key : jstring) : jstring :=
  str "[" ++ key ++ str "]".

(** [st[key] === `[${key}]`] *)
Definition isDefaultValue (st : State) (key : jstring) : bool :=
  match obj_get st key with
  | Some (VStr s) => jeqb s (defaultValue key)
  | _ => false
  end.

(** the value read by [st[key]] for an own key *)
Definition obj_read (st : State) (key : jstring) : value :=
  match obj_get st key with Some v => v | None => VUndefined end.

(* ================================================================== *)
(** ** Placeholder scanner

    [/(?:{{|%7B%7B)\s*([a-zA-Z0-9_-]+)\s*(?:}}|%7D%7D)/g].
    The classes [\s] and [[a-zA-Z0-9_-]] are disjoint and contain none of
    the characters that open the closing delimiters, so the greedy match
    is the only one: no backtracking can turn a failure into a match. *)

Definition open_delim (s : jstring) : option jstring :=
  match strip_prefix (str "{{") s with
  | Some r => Some r
  | None => strip_prefix (str "%7B%7B") s
  end.

Definition close_delim (s : jstring) : option jstring :=
  match strip_prefix (str "}}") s with
  | Some r => Some r
  | None => strip_prefix (str "%7D%7D") s
  end.

(** one attempt of the pattern at the start of [s]: the captured key and
    the length of the match *)
Definition match_placeholder (s : jstring) : option (jstring * nat) :=
  match open_delim s with
  | None => None
  | Some r1 =>
      let (_, r2) := span is_space r1 in
      let (key, r3) := span is_key_char r2 in
      match key with
      | [] => None
      | _ =>
          let (_, r4) := span is_space r3 in
          match close_delim r4 with
          | None => None
          | Some r5 => Some (key, length s - length r5)
          end
      end
  end.

(** the [while ((match = regex.exec(s)) !== null)] loop: the keys of all
    matches, left to right; [skip] counts the characters of the current
    match still to be passed over *)
Fixpoint scan_from (skip : nat) (s : jstring) : list jstring :=
  match s with
  | [] => []
  | _ :: s' =>
      match skip with
      | S n => scan_from n s'
      | O =>
          match match_placeholder s with
          | Some (key, len) => key :: scan_from (len - 1) s'
          | None => scan_from 0 s'
          end
      end
  end.

Definition scanKeys (s : jstring) : list jstring := scan_from 0 s.

(** [new Set(...)] filled by [add]: first occurrences, in order *)
Fixpoint set_of (seen l : list jstring) : list jstring :=
  match l with
  | [] => []
  | k :: l' => if mem k seen then set_of seen l' else k :: set_of (k :: seen) l'
  end.

Definition foundKeys (html : jstring) : list jstring :=
  set_of [] (scanKeys html).

(* ================================================================== *)
(** ** Plain objects: what goes through [Object.prototype]

    The updater works on [{ ...prevState }], a fresh plain object.  Its
    own properties are a [State]; its prototype is [Object.prototype]
    until an assignment to [__proto__] replaces it. *)

Inductive prototype : Type :=
| ObjectPrototype
| NullPrototype.

(** an assignment [o[k] = v] that ends in the [__proto__] accessor of
    [Object.prototype]: the key is [__proto__], the object has no own
    property of that name, and its prototype is still in place *)
Definition reachesSetter (own : State) (pr : prototype) (k : jstring)
  : bool :=
  jeqb k (str "__proto__") && negb (obj_has own k)
  && match pr with ObjectPrototype => true | NullPrototype => false end.

(** [o[k] = v] for a scalar [v].  The accessor creates no property: it
    makes [null] the prototype and ignores every other scalar.  Any other
    assignment writes the own property, creating it if need be. *)
Definition js_assign (own : State) (pr : prototype) (k : jstring)
    (v : value) : State * prototype :=
  if reachesSetter own pr k
  then (own, match v with VNull => NullPrototype | _ => pr end)
  else (obj_set own k v, pr).

(** [o.hasOwnProperty(k)]; [None] when the call throws a [TypeError]: an
    own property named [hasOwnProperty] holds a scalar, which is not a
    function, and without a prototype the name is [undefined] *)
Definition js_hasOwnProperty (own : State) (pr : prototype) (k : jstring)
  : option bool :=
  if obj_has own (str "hasOwnProperty") then None
  else match pr with
       | ObjectPrototype => Some (obj_has own k)
       | NullPrototype => None
       end.

(** the names a plain object inherits from [Object.prototype]; each is
    a function, or the prototype itself under [__proto__], so [o[k]] is
    truthy for every one of them *)
Definition objectPrototypeNames : list jstring :=
  [str "constructor"; str "__defineGetter__"; str "__defineSetter__";
   str "hasOwnProperty"; str "__lookupGetter__"; str "__lookupSetter__";
   str "isPrototypeOf"; str "propertyIsEnumerable"; str "toString";
   str "valueOf"; str "__proto__"; str "toLocaleString"].

(* ================================================================== *)
(** ** State reconciler (the [setState] updater of the parsing effect) *)

Record pass : Type := mkPass {
  newState : State;          (* the own properties of [newState] *)
  proto : prototype;         (* the prototype of [newState] *)
  removedKeys : list jstring;
  hasChanges : bool
}.

(** [arr.splice(arr.indexOf(k), 1)] for a [k] that occurs in [arr] *)
Fixpoint splice_out (k : jstring) (arr : list jstring) : list jstring :=
  match arr with
  | [] => []
  | x :: arr' => if jeqb x k then arr' else x :: splice_out k arr'
  end.

(** the predicate given to [removedKeys.find] *)
Definition isSource (p : pass) (newKey oldKey : jstring) : bool :=
  let isCustom := negb (isDefaultValue (newState p) oldKey) in
  isCustom
  && (includes newKey oldKey || includes oldKey newKey
      || Nat.eqb (length (removedKeys p)) 1%nat).

(** one round of [addedKeys.forEach(newKey => ...)] *)
Definition migrateKey (p : pass) (newKey : jstring) : pass :=
  match find (isSource p newKey) (removedKeys p) with
  | Some ((_ :: _) as sourceKey) =>
      let (st, pr) :=
        js_assign (newState p) (proto p) newKey
                  (obj_read (newState p) sourceKey) in
      mkPass (obj_delete st sourceKey) pr
             (splice_out sourceKey (removedKeys p))
             true
  | _ => p
  end.

(** one round of [foundKeys.forEach(key => ...)]; [None] when
    [newState.hasOwnProperty(key)] throws *)
Definition addKey (p : pass) (key : jstring) : option pass :=
  match js_hasOwnProperty (newState p) (proto p) key with
  | None => None
  | Some true => Some p
  | Some false =>
      let (st, pr) :=
        js_assign (newState p) (proto p) key (VStr (defaultValue key)) in
      Some (mkPass st pr (removedKeys p) true)
  end.

(** [foundKeys.forEach(...)]: the rounds up to the first that throws *)
Definition addKeys (found : list jstring) (p : pass) : option pass :=
  fold_left (fun acc key => match acc with
                            | Some q => addKey q key
                            | None => None
                            end)
            found (Some p).

(** one round of [Object.keys(newState).forEach(key => ...)] *)
Definition pruneKey (found : list jstring) (p : pass) (key : jstring) : pass :=
  if mem key found then p
  else if isDefaultValue (newState p) key
       then mkPass (obj_delete (newState p) key) (proto p) (removedKeys p)
                   true
       else p.

(** [{ ...prevState }], [currentKeys], [removedKeys] *)
Definition startPass (found : list jstring) (prevState : State) : pass :=
  let currentKeys := obj_keys prevState in
  mkPass prevState ObjectPrototype
         (filter (fun k => negb (mem k found)) currentKeys)
         false.

Definition addedKeysOf (found : list jstring) (prevState : State)
  : list jstring :=
  filter (fun k => negb (mem k (obj_keys prevState))) found.

(** step 1, rename detection / migration *)
Definition migrate (found : list jstring) (prevState : State) : pass :=
  let p := startPass found prevState in
  let addedKeys := addedKeysOf found prevState in
  if Nat.ltb 0 (length addedKeys) && Nat.ltb 0 (length (removedKeys p))
  then fold_left migrateKey addedKeys p
  else p.

(** the updater: the own properties of the object it returns, [None]
    when it throws *)
Definition reconcileKeys (found : list jstring) (prevState : State)
  : option State :=
  let p1 := migrate found prevState in
  match addKeys found p1 with
  | None => None
  | Some p2 =>
      let p3 := fold_left (pruneKey found) (obj_keys (newState p2)) p2 in
      Some (if hasChanges p3 then newState p3 else prevState)
  end.

(** the reconciliation pass for a Template *)
Definition reconcile (html : jstring) (prevState : State) : option State :=
  reconcileKeys (foundKeys html) prevState.

(* ================================================================== *)
(** ** [String.prototype.replace] with a regular expression *)

(** [GetSubstitution]: the expansion of the [$] patterns of a replacement
    string ([$$], [$&], [$`], [$'], [$n], [$nn]; the patterns used
    here have no named groups, so [$<] stands for itself). *)
Fixpoint getSubstitution (matched before after : jstring)
    (caps : list jstring) (template : jstring) : jstring :=
  let go := getSubstitution matched before after caps in
  let m := List.length caps in
  let cap (i : nat) := nth (i - 1) caps [] in
  let valid (i : nat) := Nat.leb 1 i && Nat.leb i m in
  match template with
  | [] => []
  | c :: t1 =>
      if negb (N.eqb c 36) then c :: go t1
      else
        match t1 with
        | [] => [c]
        | d :: t2 =>
            if N.eqb d 36 then 36%N :: go t2
            else if N.eqb d 38 then matched ++ go t2
            else if N.eqb d 96 then before ++ go t2
            else if N.eqb d 39 then after ++ go t2
            else if is_digit d then
              let i1 := N.to_nat (d - 48) in
              let one := if valid i1 then cap i1 ++ go t2
                         else c :: d :: go t2 in
              match t2 with
              | [] => one
              | e :: t3 =>
                  if is_digit e then
                    let i2 := (10 * i1 + N.to_nat (e - 48))%nat in
                    if Nat.ltb m i2 then one
                    else if valid i2 then cap i2 ++ go t3
                    else c :: d :: e :: go t3
                  else one
              end
            else c :: go t1
        end
  end.

Section Replace.
(** one attempt of the pattern at a position: the character before the
    position (for [\b]) and the text from the position on give the
    captures and the length of the match; every pattern of this program
    matches at least one character *)
Variable attempt : option cu -> jstring -> option (list jstring * nat).
(** the replacement text for a match: [before], [matched], [after],
    captures *)
Variable subst : jstring -> jstring -> jstring -> list jstring -> jstring.
(** the [g] flag *)
Variable global : bool.

Fixpoint replace_from (skip : nat) (before_rev s : jstring) : jstring :=
  match s with
  | [] => []
  | c :: s' =>
      match skip with
      | S n => replace_from n (c :: before_rev) s'
      | O =>
          match attempt (hd_error before_rev) s with
          | Some (caps, len) =>
              subst (rev before_rev) (firstn len s) (skipn len s) caps
              ++ (if global
                  then replace_from (len - 1) (c :: before_rev) s'
                  else skipn len s)
          | None => c :: replace_from 0 (c :: before_rev) s'
          end
      end
  end.

Definition replace (s : jstring) : jstring := replace_from 0 [] s.
End Replace.

(** a replacement given as a string *)
Definition byString (template : jstring)
  : jstring -> jstring -> jstring -> list jstring -> jstring :=
  fun before matched after caps =>
    getSubstitution matched before after caps template.

(** a replacement given as a function that ignores its arguments *)
Definition byConst (text : jstring)
  : jstring -> jstring -> jstring -> list jstring -> jstring :=
  fun _ _ _ _ => text.

(** [s.replace(/\s+/g, '+')] *)
Definition spacesToPlus (s : jstring) : jstring :=
  replace
    (fun _ t =>
       match fst (span is_space t) with
       | [] => None
       | ws => Some ([], List.length ws)
       end)
    (byString (str "+")) true s.

(** [Canonicalize] of the [i] flag on the ASCII range ([toUpperCase]).
    A character outside ASCII never canonicalises to an ASCII one, so for
    a pattern made of ASCII characters, as the key, font and delimiter
    patterns below are, comparing with [canonicalize] is the engine's
    comparison. *)
Definition canonicalize (c : cu) : cu :=
  if inRange 97 122 c then (c - 32)%N else c.

(** a literal matched under the [i] flag *)
Fixpoint strip_prefix_ci (p s : jstring) : option jstring :=
  match p with
  | [] => Some s
  | x :: p' =>
      match s with
      | [] => None
      | y :: s' =>
          if N.eqb (canonicalize x) (canonicalize y)
          then strip_prefix_ci p' s' else None
      end
  end.

(* ------------------------------------------------------------------ *)
(** *** The placeholder token of one key

    [new RegExp(`{{\\s*${key}\\s*}}`, 'g')]: for a key of the key charset
    every character of [key] is a literal of the pattern. *)

Definition match_token (key s : jstring) : option nat :=
  match strip_prefix (str "{{") s with
  | None => None
  | Some r1 =>
      let (_, r2) := span is_space r1 in
      match strip_prefix key r2 with
      | None => None
      | Some r3 =>
          let (_, r4) := span is_space r3 in
          match strip_prefix (str "}}") r4 with
          | None => None
          | Some r5 => Some (List.length s - List.length r5)%nat
          end
      end
  end.

Definition tokenAttempt (key : jstring)
  : option cu -> jstring -> option (list jstring * nat) :=
  fun _ s => match match_token key s with
             | Some len => Some ([], len)
             | None => None
             end.



(** the placeholder token [{{key}}] *)
Definition token (key : jstring) : jstring := str "{{" ++ key ++ str "}}".

Definition encodedToken (key : jstring) : jstring :=
  str "%7B%7B" ++ key ++ str "%7D%7D".

(* ================================================================== *)
(** ** Preview: the substitution pass of [getProcessedHtml] *)

(** [String(value ?? '')] *)
Definition String_of (v : value) : jstring :=
  match v with
  | VStr s => s
  | VUndefined => []
  | VNull => []
  | VOther shown => shown
  end.

(** [hydrated.replace(regex, () => String(value ?? ''))] *)
Definition hydrateEntry (hydrated : jstring) (entry : jstring * value)
  : jstring :=
  replace (tokenAttempt (fst entry)) (byConst (String_of (snd entry))) true
          hydrated.

(** [Object.entries(currentState).forEach(...)] *)
Definition substitute (currentState : State) (hydrated : jstring) : jstring :=
  fold_left hydrateEntry currentState hydrated.

(* ================================================================== *)
(** ** Theme rewriter: [handleGlobalThemeUpdate] *)

Definition GOOGLE_FONTS : list jstring :=
  [str "Inter"; str "Roboto"; str "Open Sans"; str "Montserrat"; str "Lato";
   str "Poppins"; str "Playfair Display"; str "Lora"; str "Nunito";
   str "Oswald"].

(** [/@import url\('https:\/\/fonts\.googleapis\.com\/css2\?family=[^']+'\);/] *)
Definition importAttempt
  : option cu -> jstring -> option (list jstring * nat) :=
  fun _ s =>
    match strip_prefix
            (str "@import url('https://fonts.googleapis.com/css2?family=") s
    with
    | None => None
    | Some r1 =>
        match span (fun c => negb (N.eqb c 39)) r1 with
        | ([], _) => None
        | (_, r2) =>
            match strip_prefix (str "');") r2 with
            | None => None
            | Some r3 => Some ([], (List.length s - List.length r3)%nat)
            end
        end
    end.

(** an optional single or double quote *)
Definition optQuote (s : jstring) : jstring :=
  match s with
  | c :: s' => if N.eqb c 39 || N.eqb c 34 then s' else s
  | [] => s
  end.

(** The font-family pattern, built with the flags [gi]: group 1 is
    [font-family:], blanks and an optional quote; then [escapedOld]; group 2
    is an optional quote and everything up to the next semicolon.  A
    family name of [GOOGLE_FONTS] starts with a letter, so the greedy match
    of the blanks and of the optional quote is the only one. *)
Definition fontFamilyAttempt (oldVal : jstring)
  : option cu -> jstring -> option (list jstring * nat) :=
  fun _ s =>
    match strip_prefix_ci (str "font-family:") s with
    | None => None
    | Some r1 =>
        let r2 := optQuote (snd (span is_space r1)) in
        match strip_prefix_ci oldVal r2 with
        | None => None
        | Some r3 =>
            let r4 := snd (span (fun c => negb (N.eqb c 59)) (optQuote r3)) in
            let n1 := (List.length s - List.length r2)%nat in
            let n2 := (List.length r3 - List.length r4)%nat in
            Some ([firstn n1 s; firstn n2 r3],
                  (List.length s - List.length r4)%nat)
        end
    end.

(** The utility-class pattern, built with the flag [g]: a word boundary
    [\b], [escapedOld], and a lookahead for a blank, a single or double
    quote, a closing angle or square bracket, or the end of the text. *)
Definition classAttempt (oldVal : jstring)
  : option cu -> jstring -> option (list jstring * nat) :=
  fun prev s =>
    let wordBefore := match prev with Some c => is_word_char c | None => false end in
    let wordAfter := match s with c :: _ => is_word_char c | [] => false end in
    if negb (eqb wordBefore wordAfter) then
      match strip_prefix oldVal s with
      | None => None
      | Some r =>
          match r with
          | [] => Some ([], List.length oldVal)
          | c :: _ =>
              if is_space c || N.eqb c 34 || N.eqb c 39 || N.eqb c 62
                 || N.eqb c 93
              then Some ([], List.length oldVal) else None
          end
      end
    else None.

(** [new RegExp(escapedOld, 'gi')]: the escaped token as a literal, under
    the [i] flag (the engine's comparison for an [oldVal] of ASCII
    characters, see [canonicalize]) *)
Definition literalAttempt (oldVal : jstring)
  : option cu -> jstring -> option (list jstring * nat) :=
  fun _ s =>
    match strip_prefix_ci oldVal s with
    | Some _ => Some ([], List.length oldVal)
    | None => None
    end.

(** [oldVal.match(/^(bg|text|border|ring|fill|stroke|outline)/)] *)
Definition prefixMatch (oldVal : jstring) : option jstring :=
  find (startsWith oldVal)
       [str "bg"; str "text"; str "border"; str "ring"; str "fill";
        str "stroke"; str "outline"].

Definition isTailwind (oldVal : jstring) : bool :=
  startsWith oldVal (str "bg-") || startsWith oldVal (str "text-")
  || startsWith oldVal (str "border-") || startsWith oldVal (str "ring-")
  || startsWith oldVal (str "fill-") || startsWith oldVal (str "stroke-")
  || mem oldVal [str "bg-white"; str "bg-black"; str "bg-transparent";
                 str "text-white"; str "text-black"; str "text-transparent"].

(** the updater given to [setHtml] *)
Definition themeUpdate (oldVal newVal prev : jstring) : jstring :=
  if mem oldVal GOOGLE_FONTS then
    let fontUrl := str "https://fonts.googleapis.com/css2?family="
                   ++ spacesToPlus newVal ++ str "&display=swap" in
    let next :=
      replace importAttempt
              (byString (str "@import url('" ++ fontUrl ++ str "');"))
              false prev in
    replace (fontFamilyAttempt oldVal)
            (byString (str "$1" ++ newVal ++ str "$2")) true next
  else if isTailwind oldVal && negb (startsWith oldVal (str "#"))
          && negb (startsWith oldVal (str "rgb")) then
    let replacement :=
      match prefixMatch oldVal with
      | Some prefix =>
          if startsWith newVal (str "#")
          then prefix ++ str "-[" ++ newVal ++ str "]"
          else newVal
      | None => newVal
      end in
    replace (classAttempt oldVal) (byString replacement) true prev
  else
    replace (literalAttempt oldVal) (byString newVal) true prev.

(** [handleGlobalThemeUpdate]: [None] when it returns before [setHtml] *)
Definition handleGlobalThemeUpdate (oldVal newVal html : jstring)
  : option jstring :=
  match oldVal, newVal with
  | [], _ | _, [] => None
  | _, _ => if jeqb oldVal newVal then None
            else Some (themeUpdate oldVal newVal html)
  end.

(* ================================================================== *)
(** ** The parsed document *)

Inductive node : Type :=
| Elem (tagName : jstring) (attributes : list (jstring * jstring))
       (childNodes : list node)
| Text (data : jstring)
| Comment (data : jstring).

(** [doc.head] and [doc.body], each by its child nodes *)
Record document : Type := mkDocument {
  head : list node;
  body : list node
}.

(** a node of [doc.body], by its child indices from [body] *)
Definition path := list nat.

Definition path_eqb (p q : path) : bool :=
  if list_eq_dec Nat.eq_dec p q then true else false.

Definition isElement (n : node) : bool :=
  match n with Elem _ _ _ => true | _ => false end.

Definition hasTag (tag : jstring) (n : node) : bool :=
  match n with Elem t _ _ => jeqb t tag | _ => false end.

(** the nodes of a subtree in document order, the root first *)
Fixpoint subtree (p : path) (n : node) : list (path * node) :=
  (p, n)
  :: match n with
     | Elem _ _ cs =>
         (fix forest (i : nat) (l : list node) : list (path * node) :=
            match l with
            | [] => []
            | c :: l' => subtree (p ++ [i]) c ++ forest (S i) l'
            end) 0%nat cs
     | _ => []
     end.

(** the subtrees of the children [l] of the node at [p], the first child
    having index [i] *)
Fixpoint forest (p : path) (i : nat) (l : list node) : list (path * node) :=
  match l with
  | [] => []
  | c :: l' => subtree (p ++ [i]) c ++ forest p (S i) l'
  end.

(** [doc.createTreeWalker(doc.body, SHOW_ELEMENT | SHOW_TEXT)] driven by
    [nextNode()]: the elements and text nodes below [body], in document
    order *)
Definition walker (b : list node) : list (path * node) :=
  filter (fun pn => match snd pn with Comment _ => false | _ => true end)
         (forest [] 0 b).

(** the child nodes of the element at [p] ([body] itself for the empty
    path) *)
Fixpoint childNodesAt (b : list node) (p : path) : option (list node) :=
  match p with
  | [] => Some b
  | i :: p' =>
      match nth_error b i with
      | Some (Elem _ _ cs) => childNodesAt cs p'
      | _ => None
      end
  end.

Fixpoint replaceNth (l : list node) (i : nat) (n : node) : list node :=
  match l, i with
  | [], _ => []
  | _ :: l', O => n :: l'
  | x :: l', S j => x :: replaceNth l' j n
  end.

(** the document with the child nodes of the element at [p] replaced *)
Fixpoint setChildNodesAt (b : list node) (p : path) (cs : list node)
  : list node :=
  match p with
  | [] => cs
  | i :: p' =>
      match nth_error b i with
      | Some (Elem t a cs') =>
          replaceNth b i (Elem t a (setChildNodesAt cs' p' cs))
      | _ => b
      end
  end.

(** [findElementWithKey]: the first text node whose text includes the
    token, or element with an attribute value that includes the token in
    either spelling *)
Definition holdsKey (k : jstring) (n : node) : bool :=
  match n with
  | Text t => includes t (token k)
  | Elem _ attrs _ =>
      existsb (fun a => includes (snd a) (token k)
                        || includes (snd a) (encodedToken k)) attrs
  | Comment _ => false
  end.

Definition findElementWithKey (b : list node) (k : jstring) : option path :=
  option_map fst (find (fun pn => holdsKey k (snd pn)) (walker b)).

(* ------------------------------------------------------------------ *)
(** *** Group inference: [getRepeatableParent] *)

(** an element on the way from [body] down to a node *)
Record ancestor : Type := mkAncestor {
  anc_path : path;
  anc_index : nat;              (* its index among its parent's child nodes *)
  anc_siblings : list node;     (* its parent's child nodes *)
  anc_tag : jstring
}.

(** the elements strictly between [body] and the node at [p], outermost
    first *)
Fixpoint ancestorsOf (cs : list node) (pre p : path) : list ancestor :=
  match p with
  | [] => []
  | i :: p' =>
      match p' with
      | [] => []
      | _ :: _ =>
          match nth_error cs i with
          | Some (Elem tag _ cs') =>
              mkAncestor (pre ++ [i]) i cs tag
              :: ancestorsOf cs' (pre ++ [i]) p'
          | _ => []
          end
      end
  end.

Definition stopTags : list jstring := [str "BODY"; str "MAIN"; str "SECTION"].

(** [Array.from(parent.children).filter(c => c !== current &&
    c.tagName === current.tagName)] *)
Definition sameTagSiblings (a : ancestor) : list node :=
  map snd
      (filter (fun jc => negb (Nat.eqb (fst jc) (anc_index a))
                         && hasTag (anc_tag a) (snd jc))
              (combine (seq 0 (List.length (anc_siblings a)))
                       (anc_siblings a))).

(** the [while] loop, [current] running over the ancestors, innermost
    first; [body] ends the walk *)
Fixpoint climb (up : list ancestor) : option path :=
  match up with
  | [] => None
  | current :: up' =>
      if mem (anc_tag current) stopTags then None
      else if mem (anc_tag current) [str "LI"; str "TR"]
      then Some (anc_path current)
      else if mem (anc_tag current) [str "DIV"; str "ARTICLE"; str "SECTION"]
              && Nat.ltb 0 (List.length (sameTagSiblings current))
      then Some (anc_path current)
      else climb up'
  end.

(** [getRepeatableParent(node)] for the node at [p] *)
Definition getRepeatableParent (b : list node) (p : path) : option path :=
  climb (rev (ancestorsOf b [] p)).

(* ------------------------------------------------------------------ *)
(** *** [scanGroups] *)

Record occurrence : Type := mkOccurrence {
  occ_key : jstring;
  occ_node : path;
  occ_parent : option path
}.

Definition occurrencesOf (b : list node) (pn : path * node)
  : list occurrence :=
  let here k := mkOccurrence k (fst pn) (getRepeatableParent b (fst pn)) in
  match snd pn with
  | Text text => map here (scanKeys text)
  | Elem _ attrs _ => flat_map (fun a => map here (scanKeys (snd a))) attrs
  | Comment _ => []
  end.

Definition finalOrderedKeys (b : list node) : list occurrence :=
  flat_map (occurrencesOf b) (walker b).

Record grouping : Type := mkGrouping {
  groups : list (list jstring);
  processedKeys : list jstring;
  processedParents : list path
}.

Definition sameParent (par : path) (k : occurrence) : bool :=
  match occ_parent k with
  | Some q => path_eqb q par
  | None => false
  end.

(** [siblingsWithSameParent.forEach(sib => ...)] *)
Definition collect (acc : list jstring * list jstring) (sib : occurrence)
  : list jstring * list jstring :=
  let (group, seen) := acc in
  if mem (occ_key sib) seen then acc
  else (group ++ [occ_key sib], occ_key sib :: seen).

(** one round of [for (const item of finalOrderedKeys)] *)
Definition groupItem (all : list occurrence) (g : grouping)
    (item : occurrence) : grouping :=
  if mem (occ_key item) (processedKeys g) then g
  else
    match occ_parent item with
    | Some par =>
        if existsb (path_eqb par) (processedParents g) then g
        else
          let siblingsWithSameParent := filter (sameParent par) all in
          let (group, seen) :=
            fold_left collect siblingsWithSameParent ([], processedKeys g) in
          if Nat.ltb 0 (List.length group)
          then mkGrouping (groups g ++ [group]) seen
                          (par :: processedParents g)
          else mkGrouping (groups g) seen (processedParents g)
    | None =>
        mkGrouping (groups g ++ [[occ_key item]])
                   (occ_key item :: processedKeys g) (processedParents g)
    end.

(** the value given to [setFieldGroups] *)
Definition fieldGroups (b : list node) : list (list jstring) :=
  let all := finalOrderedKeys b in
  groups (fold_left (groupItem all) all (mkGrouping [] [] [])).

(** the value given to [setRepeatableKeys] *)
Definition repeatableKeys (b : list node) : list jstring :=
  set_of []
    (map occ_key
         (filter (fun k => match occ_parent k with Some _ => true | None => false end)
                 (finalOrderedKeys b))).

(* ================================================================== *)
(** ** Structural mutator: [handleSwapVariables] *)

Inductive swapOutcome : Type :=
| SwapIgnored                          (* returns without a notice *)
| SwapToast (message : jstring)        (* [showToast], no [setHtml] *)
| SwapSetHtml (newBody : list node).   (* [setHtml(doc.body.innerHTML)] *)

(** [child.nextSibling], by index; [None] for [null] *)
Definition nextSibling (cs : list node) (i : nat) : option nat :=
  if Nat.ltb (S i) (List.length cs) then Some (S i) else None.

(** [parent.insertBefore(node, ref)] for a [node] that is the child of
    index [i] of [parent] already: it is taken out and put back before
    [ref] (at the end when [ref] is [null]); a [ref] that is the node
    itself stands for the node's next sibling *)
Definition insertBefore (cs : list node) (i : nat) (ref : option nat)
  : list node :=
  match nth_error cs i with
  | None => cs
  | Some n =>
      let ref' := match ref with
                  | Some r => if Nat.eqb r i then nextSibling cs i else Some r
                  | None => None
                  end in
      let without := firstn i cs ++ skipn (S i) cs in
      match ref' with
      | None => without ++ [n]
      | Some r =>
          let r' := if Nat.ltb i r then (r - 1)%nat else r in
          firstn r' without ++ n :: skipn r' without
      end
  end.

Fixpoint indexOf (i : nat) (l : list nat) : option nat :=
  match l with
  | [] => None
  | x :: l' => if Nat.eqb x i then Some 0%nat
               else option_map S (indexOf i l')
  end.

(** the index of the child node [i] in [Array.from(parent.children)];
    [None] for the initial [-1] *)
Definition indexInChildren (cs : list node) (i : nat) : option nat :=
  indexOf i
    (map fst (filter (fun jc => isElement (snd jc))
                     (combine (seq 0 (List.length cs)) cs))).

Definition handleSwapVariables (b : list node) (keyA keyB : jstring)
  : swapOutcome :=
  if jeqb keyA keyB then SwapIgnored
  else
    match findElementWithKey b keyA, findElementWithKey b keyB with
    | Some nodeA, Some nodeB =>
        match getRepeatableParent b nodeA, getRepeatableParent b nodeB with
        | Some parentA, Some parentB =>
            if path_eqb (removelast parentA) (removelast parentB) then
              let parent := removelast parentA in
              let ia := last parentA 0%nat in
              let ib := last parentB 0%nat in
              match childNodesAt b parent with
              | None => SwapIgnored
              | Some cs =>
                  match indexInChildren cs ia, indexInChildren cs ib with
                  | Some aIndex, Some bIndex =>
                      let cs' :=
                        if Nat.ltb aIndex bIndex
                        then insertBefore cs ia (nextSibling cs ib)
                        else insertBefore cs ia (Some ib) in
                      SwapSetHtml (setChildNodesAt b parent cs')
                  | _, _ => SwapIgnored
                  end
              end
            else SwapToast (str "Items must be in the same list to reorder.")
        | _, _ =>
            SwapToast
              (str "Could not identify the list structure for these items.")
        end
    | _, _ => SwapIgnored
    end.

(* ================================================================== *)
(** ** Structural mutator: [handleDuplicateVariable] *)

(** [oldKey.replace(/_\d+$/, '')] *)
Fixpoint baseName (oldKey : jstring) : jstring :=
  match oldKey with
  | [] => []
  | c :: rest =>
      if N.eqb c 95
         && match rest with [] => false | _ :: _ => forallb is_digit rest end
      then []
      else c :: baseName rest
  end.


Section Duplicate.
(** the browser's serialisation of a list of child nodes, as read by
    [clone.innerHTML] *)
Variable serialize : list node -> jstring.
(** the browser's fragment parser, as run by [clone.innerHTML = ...]: the
    element that is given the markup, and the markup *)
Variable parseFragment : node -> jstring -> list node.
(** the successive values of [Math.floor(Math.random() * 10000)] *)
Variable random : nat -> N.

(** [newKeysMap[oldKey]] is truthy: an own new key, which is never empty,
    or a name inherited from [Object.prototype] *)
Definition named (newKeysMap : obj jstring) (oldKey : jstring) : bool :=
  match obj_get newKeysMap oldKey with
  | Some (_ :: _) => true
  | Some [] => false
  | None => mem oldKey objectPrototypeNames
  end.

(** one round of [while ((match = varRegex.exec(deepHtml)) !== null)];
    the number counts the random draws made so far *)
Definition nameKey (acc : obj jstring * nat) (oldKey : jstring)
  : obj jstring * nat :=
  let (newKeysMap, draws) := acc in
  if named newKeysMap oldKey then acc
  else
    let randomSuffix := random draws in
    (obj_set newKeysMap oldKey
             (baseName oldKey ++ str "_" ++ decimal randomSuffix),
     S draws).






End Duplicate.

(* ================================================================== *)
(** ** Preview: [getProcessedHtml] *)

(** [el.setAttribute(name, v)] *)
Fixpoint setAttribute (attrs : list (jstring * jstring)) (name v : jstring)
  : list (jstring * jstring) :=
  match attrs with
  | [] => [(name, v)]
  | (n, w) :: attrs' =>
      if jeqb n name then (n, v) :: attrs'
      else (n, w) :: setAttribute attrs' name v
  end.

(** [addPaths(el, path)]: the index of a child counts elements only *)
Fixpoint addPaths (pathText : jstring) (el : node) : node :=
  match el with
  | Elem t attrs cs =>
      Elem t (setAttribute attrs (str "data-path") pathText)
        ((fix kids (i : nat) (l : list node) : list node :=
            match l with
            | [] => []
            | c :: l' =>
                if isElement c
                then addPaths (pathText ++ str "." ++ decimal (N.of_nat i)) c
                     :: kids (S i) l'
                else c :: kids i l'
            end) 0%nat cs)
  | _ => el
  end.

(** [Array.from(doc.body.children).forEach((child, i) =>
    addPaths(child, `${i}`))] *)
Fixpoint addBodyPaths (i : nat) (l : list node) : list node :=
  match l with
  | [] => []
  | c :: l' =>
      if isElement c
      then addPaths (decimal (N.of_nat i)) c :: addBodyPaths (S i) l'
      else c :: addBodyPaths i l'
  end.

Definition getProcessedHtml (serialize : list node -> jstring)
    (doc : document) (currentState : State) : jstring :=
  let hydrated := serialize (head doc)
                  ++ serialize (addBodyPaths 0 (body doc)) in
  substitute currentState hydrated.

(* ================================================================== *)
(** ** The serialisation of HTML fragments

    The fragment serialisation algorithm of the HTML standard for the
    nodes a parsed [body] holds: elements of the HTML namespace, text and
    comments. *)

Definition dq : jstring := [34%N].

Definition toLower (s : jstring) : jstring :=
  map (fun c => if inRange 65 90 c then (c + 32)%N else c) s.

Definition voidElements : list jstring :=
  [str "area"; str "base"; str "basefont"; str "bgsound"; str "br";
   str "col"; str "embed"; str "frame"; str "hr"; str "img"; str "input";
   str "keygen"; str "link"; str "meta"; str "param"; str "source";
   str "track"; str "wbr"].

Definition rawTextElements : list jstring :=
  [str "style"; str "script"; str "xmp"; str "iframe"; str "noembed";
   str "noframes"; str "plaintext"].

Definition escapeChar (attributeMode : bool) (c : cu) : jstring :=
  if N.eqb c 38 then str "&amp;"
  else if N.eqb c 160 then str "&nbsp;"
  else if N.eqb c 60 then str "&lt;"
  else if N.eqb c 62 then str "&gt;"
  else if attributeMode && N.eqb c 34 then str "&quot;"
  else [c].

Definition escapeString (attributeMode : bool) (s : jstring) : jstring :=
  flat_map (escapeChar attributeMode) s.

Fixpoint outerHTML (raw : bool) (n : node) : jstring :=
  match n with
  | Text d => if raw then d else escapeString false d
  | Comment d => str "<!--" ++ d ++ str "-->"
  | Elem tag attrs cs =>
      let name := toLower tag in
      str "<" ++ name
      ++ flat_map (fun a => str " " ++ fst a ++ str "=" ++ dq
                            ++ escapeString true (snd a) ++ dq) attrs
      ++ str ">"
      ++ (if mem name voidElements then []
          else flat_map (outerHTML (mem name rawTextElements)) cs
               ++ str "</" ++ name ++ str ">")
  end.

(** [innerHTML] of an element that is not a raw-text element, from its
    child nodes *)
Definition innerHTML (cs : list node) : jstring :=
  flat_map (outerHTML false) cs.

(* ================================================================== *)
(** ** Notions used to state the properties *)

(** [a] occurs in [b] as a substring *)
Definition Substring (a b : jstring) : Prop :=
  exists pre post, b = pre ++ a ++ post.

(** a placeholder key: one or more characters of the key charset *)
Definition validKey (k : jstring) : bool :=
  match k with [] => false | _ :: _ => forallb is_key_char k end.

(** State as the mapping from keys to values that it stands for *)
Definition mapping := jstring -> option value.

(** a removed key that may donate its value to [newKey]: its value is not
    its auto-default, and it is a substring of the new key, or the new key
    is a substring of it, or it is the only removed key left *)
Definition candidate (m : mapping) (remaining : list jstring)
    (newKey oldKey : jstring) : Prop :=
  m oldKey <> Some (VStr (defaultValue oldKey))
  /\ (Substring oldKey newKey \/ Substring newKey oldKey
      \/ remaining = [oldKey]).

(** the mapping after the value of [oldKey] moved to [newKey] *)
Definition moveValue (m : mapping) (oldKey newKey : jstring) : mapping :=
  fun k => if jeqb k newKey then m oldKey
           else if jeqb k oldKey then None
           else m k.

(** Rename migration as the specification words it: the added keys are
    taken in order; each takes the value of the first remaining removed key
    that is a candidate for it, and that removed key leaves the remaining
    ones; an added key without a candidate changes nothing. *)
Inductive Migration
  : list jstring -> mapping -> list jstring -> mapping -> list jstring -> Prop :=
| Migration_done m remaining :
    Migration [] m remaining m remaining
| Migration_move newKey added m earlier oldKey later m' remaining' :
    (forall k, In k earlier ->
               ~ candidate m (earlier ++ oldKey :: later) newKey k) ->
    candidate m (earlier ++ oldKey :: later) newKey oldKey ->
    Migration added (moveValue m oldKey newKey) (earlier ++ later)
              m' remaining' ->
    Migration (newKey :: added) m (earlier ++ oldKey :: later) m' remaining'
| Migration_skip newKey added m remaining m' remaining' :
    (forall k, In k remaining -> ~ candidate m remaining newKey k) ->
    Migration added m remaining m' remaining' ->
    Migration (newKey :: added) m remaining m' remaining'.

(** a removed key that rename migration used up as the source of a value *)
Definition consumed (found : list jstring) (prev : State) (k : jstring)
  : Prop :=
  In k (removedKeys (startPass found prev))
  /\ ~ In k (removedKeys (migrate found prev)).

(** [v === `[${key}]`] *)
Definition jeqb_value (v : value) (key : jstring) : bool :=
  match v with
  | VStr s => jeqb s (defaultValue key)
  | _ => false
  end.

(** the keys of an object are distinct *)
Fixpoint distinct (l : list jstring) : bool :=
  match l with
  | [] => true
  | k :: l' => negb (mem k l') && distinct l'
  end.

(** the State and the edited Template of the rename example *)
Definition exampleState : State :=
  [(str "link1", VStr (str "custom")); (str "title", VStr (str "[title]"))].

Definition exampleTemplate : jstring :=
  str "<h1>{{title}}</h1><a href='{{link3}}'>more</a>".

Definition exampleResult : State :=
  [(str "title", VStr (str "[title]")); (str "link3", VStr (str "custom"))].

(** a list of three items and a paragraph outside it:
    [<ul><li>{{a}}</li> <li>{{b}}</li><li>{{c}}</li></ul>
     <ol><li>{{d}}</li></ol>] *)
Definition listItem (k : jstring) : node :=
  Elem (str "LI") [] [Text (token k)].

Definition twoLists : list node :=
  [Elem (str "UL") []
        [listItem (str "a"); Text (str " "); listItem (str "b");
         listItem (str "c")];
   Elem (str "OL") [] [listItem (str "d")]].

(** the Template of the theme example:
    [<div class=DQ bg-blue-600 DQ>bg-blue-600-ish</div>], DQ standing for
    the double quote *)
Definition themeTemplate : jstring :=
  str "<div class=" ++ dq ++ str "bg-blue-600" ++ dq
  ++ str ">bg-blue-600-ish</div>".

(** the placeholder keys a node holds itself: in its text, or in its
    attribute values *)
Definition keysAt (n : node) : list jstring :=
  match n with
  | Text text => scanKeys text
  | Elem _ attrs _ => flat_map (fun a => scanKeys (snd a)) attrs
  | Comment _ => []
  end.

(** the placeholder occurrences inside a subtree, in document order *)
Definition placeholdersOf (n : node) : list jstring :=
  flat_map (fun pn => keysAt (snd pn)) (subtree [] n).

(** an ancestor that the walk of [getRepeatableParent] passes over: not a
    stop tag, not a list item or table row, and not a DIV, ARTICLE or
    SECTION with a sibling of its own tag *)
Definition passedOver (a : ancestor) : bool :=
  negb (mem (anc_tag a) stopTags)
  && negb (mem (anc_tag a) [str "LI"; str "TR"])
  && negb (mem (anc_tag a) [str "DIV"; str "ARTICLE"; str "SECTION"]
           && Nat.ltb 0 (List.length (sameTagSiblings a))).

(** three list items, the first holding its placeholder in the first of
    two sibling DIVs:
    [<li><div>{{a}}</div><div>x</div></li><li>{{b}}</li><li>{{c}}</li>] *)
Definition cardList : list node :=
  [Elem (str "LI") []
        [Elem (str "DIV") [] [Text (token (str "a"))];
         Elem (str "DIV") [] [Text (str "x")]];
   listItem (str "b"); listItem (str "c")].

(** the occurrences found in the subtree of [n], which hangs at [p] *)
Definition occurrencesIn (b : list node) (p : path) (n : node)
  : list occurrence :=
  flat_map (occurrencesOf b)
    (filter (fun pn => match snd pn with Comment _ => false | _ => true end)
            (subtree p n)).

(** an occurrence has no anchor, or one that starts with child [i] of
    [body] *)
Definition anchoredUnder (i : nat) (par : option path) : Prop :=
  match par with
  | None => True
  | Some q => exists r, q = i :: r
  end.

(** the tag of the element at a path *)
Definition tagAt (b : list node) (q : path) : option jstring :=
  match childNodesAt b (removelast q) with
  | Some cs =>
      match nth_error cs (last q 0%nat) with
      | Some (Elem t _ _) => Some t
      | _ => None
      end
  | None => None
  end.

(** every placeholder occurrence has a list item as its anchor *)
Definition anchoredAtListItems (b : list node) : Prop :=
  forall o, In o (finalOrderedKeys b) ->
            exists q, occ_parent o = Some q /\ tagAt b q = Some (str "LI").



(** one pass of the substitution: every token of [key] in [s] replaced by
    [text] *)
Definition hydrate (key text s : jstring) : jstring :=
  replace (tokenAttempt key) (byConst text) true s.

(** the same pass in the middle of its run: [skip] characters of the
    current match are still to be passed over *)
Definition hydrateFrom (key text : jstring) (skip : nat)
    (before_rev s : jstring) : jstring :=
  replace_from (tokenAttempt key) (byConst text) true skip before_rev s.

(** a paragraph with a key of State and a key State does not have:
    [<p>{{title}} {{x}}</p>] *)
Definition previewDocument : document :=
  mkDocument [] [Elem (str "P") [] [Text (str "{{title}} {{x}}")]].

Definition previewState : State := [(str "title", VStr (str "Hello"))].


(** a list whose keys are written with blanks inside the braces:
    [<ul><li>{{ a }}</li><li>{{ b }}</li></ul>] *)
Definition spacedList : list node :=
  [Elem (str "UL") []
        [Elem (str "LI") [] [Text (str "{{ a }}")];
         Elem (str "LI") [] [Text (str "{{ b }}")]]].

(** two lists of one item each, the keys written with blanks:
    [<ul><li>{{ a }}</li></ul><ol><li>{{ d }}</li></ol>] *)
Definition spacedLists : list node :=
  [Elem (str "UL") [] [Elem (str "LI") [] [Text (str "{{ a }}")]];
   Elem (str "OL") [] [Elem (str "LI") [] [Text (str "{{ d }}")]]].

(* ================================================================== *)
(** ** Undo/redo history: [setHtml], [undo], [redo]

    The component state the three functions read and write, as one render
    sees it.  [html] is [None] when [history[newIndex]] was read out of
    range ([undefined]). *)

Record editor : Type := mkEditor {
  html : option jstring;
  history : list jstring;
  historyIndex : nat
}.

(** [useState(initialHtml)], [useState([initialHtml])], [useState(0)] *)
Definition initialEditor (initialHtml : jstring) : editor :=
  mkEditor (Some initialHtml) [initialHtml] 0.

(** the first argument of [setHtml]: a string, or a function of the
    previous value *)
Inductive htmlArg : Type :=
| NewHtml (s : jstring)
| Updater (f : option jstring -> jstring).

(** [next !== prev] *)
Definition differs (next : jstring) (prev : option jstring) : bool :=
  match prev with
  | Some p => negb (jeqb next p)
  | None => true
  end.

Definition setHtml (newHtml : htmlArg) (skipHistory : bool) (e : editor)
  : editor :=
  let prev := html e in
  let next := match newHtml with
              | Updater f => f prev
              | NewHtml s => s
              end in
  if negb skipHistory && differs next prev then
    let newHistory := firstn (historyIndex e + 1) (history e) ++ [next] in
    let newHistory := if Nat.ltb 100 (List.length newHistory)
                      then tl newHistory else newHistory in
    mkEditor (Some next) newHistory (List.length newHistory - 1)
  else mkEditor (Some next) (history e) (historyIndex e).

Definition undo (e : editor) : editor :=
  if Nat.ltb 0 (historyIndex e) then
    let newIndex := (historyIndex e - 1)%nat in
    mkEditor (nth_error (history e) newIndex) (history e) newIndex
  else e.

(** [history.length - 1] is [-1] for an empty history, and no index is
    below it; the truncated subtraction gives [0], with the same test *)
Definition redo (e : editor) : editor :=
  if Nat.ltb (historyIndex e) (List.length (history e) - 1) then
    let newIndex := (historyIndex e + 1)%nat in
    mkEditor (nth_error (history e) newIndex) (history e) newIndex
  else e.

(** the edits of a session, each made through the functions of the render
    that shows the current history; every call of [setHtml] in the program
    leaves [skipHistory] at its default.  A function kept from an older
    render (the undo of the delete notice calls one) reads the history of
    that render and is not among these edits. *)
Inductive edit : Type :=
| SetHtml (newHtml : htmlArg)
| Undo
| Redo.

Definition perform (e : editor) (a : edit) : editor :=
  match a with
  | SetHtml newHtml => setHtml newHtml false e
  | Undo => undo e
  | Redo => redo e
  end.

Definition session (initialHtml : jstring) (edits : list edit) : editor :=
  fold_left perform edits (initialEditor initialHtml).

(* ================================================================== *)
(** ** The form: [sortedKeys], [handleChange], [handleBlur] *)

(** [orderedKeys.filter(k => state.hasOwnProperty(k))] for the state
    object, a plain object; [None] when a call throws *)
Fixpoint filterOwn (state : State) (keys : list jstring)
  : option (list jstring) :=
  match keys with
  | [] => Some []
  | k :: keys' =>
      match js_hasOwnProperty state ObjectPrototype k with
      | None => None
      | Some own =>
          match filterOwn state keys' with
          | None => None
          | Some rest => Some (if own then k :: rest else rest)
          end
      end
  end.

(** [sortedKeys]: the scanner is the one of the reconciliation effect;
    [None] when the computation throws *)
Definition sortedKeys (html : jstring) (state : State)
  : option (list jstring) :=
  let orderedKeys := foundKeys html in
  let stateKeys := obj_keys state in
  let remainingKeys :=
    filter (fun k => negb (mem k orderedKeys)) stateKeys in
  match filterOwn state orderedKeys with
  | None => None
  | Some shown => Some (shown ++ remainingKeys)
  end.

(** [displayGroups], the groups the form renders: the field groups when
    there are any, else the sorted keys one by one; [fieldGroups] is
    [None] when the property is not given *)
Definition displayGroups (fieldGroups : option (list (list jstring)))
    (html : jstring) (state : State) : option (list (list jstring)) :=
  match sortedKeys html state with
  | None => None
  | Some keys =>
      Some (match fieldGroups with
            | Some (g :: gs) => g :: gs
            | _ => map (fun k => [k]) keys
            end)
  end.

(** [handleChange]: the State given to [onStateChange] *)
Definition handleChange (state : State) (key : jstring) (v : value)
  : State :=
  obj_set state key v.

(** [/(a|b|...)$/i.test(s)] for one alternative *)
Definition endsWith_ci (s suffix : jstring) : bool :=
  match strip_prefix_ci (rev suffix) (rev s) with
  | Some _ => true
  | None => false
  end.

Definition startsWith_ci (s p : jstring) : bool :=
  match strip_prefix_ci p s with Some _ => true | None => false end.

Definition isUrlKey (key : jstring) : bool :=
  existsb (endsWith_ci key)
          [str "url"; str "link"; str "href"; str "src"; str "website"].

Definition isLabelKey (key : jstring) : bool :=
  existsb (endsWith_ci key)
          [str "label"; str "text"; str "title"; str "name"; str "desc";
           str "caption"].

(** [[a-zA-Z0-9-]] *)
Definition is_host_char (c : cu) : bool :=
  inRange 97 122 c || inRange 65 90 c || inRange 48 57 c || N.eqb c 45.

(** [[a-zA-Z]] *)
Definition is_letter (c : cu) : bool :=
  inRange 97 122 c || inRange 65 90 c.

(** the characters [.] does not match *)
Definition is_line_terminator (c : cu) : bool :=
  N.eqb c 10 || N.eqb c 13 || N.eqb c 8232 || N.eqb c 8233.

(** [looksLikeDomain]: from the start, one or more of [[a-zA-Z0-9-]], a
    dot, two or more of [[a-zA-Z]], then the end, or a slash and any
    characters but line terminators up to the end; and no space anywhere.
    The dot is outside the first class and the slash outside the second,
    so each run is matched whole or the match fails. *)
Definition looksLikeDomain (v : jstring) : bool :=
  (let (host, r1) := span is_host_char v in
   match host, r1 with
   | _ :: _, c :: r2 =>
       N.eqb c 46
       && (let (tld, r3) := span is_letter r2 in
           Nat.leb 2 (List.length tld)
           && match r3 with
              | [] => true
              | d :: r4 =>
                  N.eqb d 47
                  && forallb (fun x => negb (is_line_terminator x)) r4
              end)
   | _, _ => false
   end)
  && negb (includes v (str " ")).

(** [handleBlur]: the State given to [onStateChange], [None] when the
    function changes nothing *)
Definition handleBlur (state : State) (key : jstring) (v : value)
  : option State :=
  match v with
  | VStr s =>
      if (isUrlKey key || looksLikeDomain s) && negb (isLabelKey key)
         && Nat.ltb 0 (List.length s)
      then
        if negb (startsWith_ci s (str "http://")
                 || startsWith_ci s (str "https://"))
           && negb (startsWith_ci s (str "mailto:"))
           && negb (startsWith s (str "/"))
           && negb (startsWith s (str "tel:"))
        then Some (handleChange state key (VStr (str "https://" ++ s)))
        else None
      else None
  | _ => None
  end.

(* ================================================================== *)
(** ** Page font: [handlePageFontUpdate] *)

Definition is_quote (c : cu) : bool := N.eqb c 34 || N.eqb c 39.

(** the lazy run of any characters and the closing tag after it: the text
    after the first closing tag.  The run grows one character at a time,
    so the first closing tag ends the match. *)
Fixpoint afterStyleClose (s : jstring) : option jstring :=
  match strip_prefix_ci (str "</style>") s with
  | Some r => Some r
  | None =>
      match s with
      | [] => None
      | _ :: s' => afterStyleClose s'
      end
  end.

(** the site-font pattern, with the flags [gi]: the opening tag
    [<style id=Q site-font Q>] without the blanks, Q a single or a double
    quote, any text, and the first closing tag of a style element *)
Definition siteFontAttempt
  : option cu -> jstring -> option (list jstring * nat) :=
  fun _ s =>
    match strip_prefix_ci (str "<style id=") s with
    | Some (q1 :: r1) =>
        if is_quote q1 then
          match strip_prefix_ci (str "site-font") r1 with
          | Some (q2 :: r2) =>
              if is_quote q2 then
                match strip_prefix_ci (str ">") r2 with
                | Some r3 =>
                    match afterStyleClose r3 with
                    | Some r4 =>
                        Some ([], (List.length s - List.length r4)%nat)
                    | None => None
                    end
                | None => None
                end
              else None
          | _ => None
          end
        else None
    | _ => None
    end.

Definition fontUrl (newFont : jstring) : jstring :=
  str "https://fonts.googleapis.com/css2?family=" ++ spacesToPlus newFont
  ++ str "&display=swap".

(** the two lines of [fontCss], a line feed between them *)
Definition fontCss (newFont : jstring) : jstring :=
  str "@import url('" ++ fontUrl newFont ++ str "');" ++ [10%N]
  ++ str "body, #app, #app * { font-family: '" ++ newFont
  ++ str "', sans-serif !important; }".

Definition newStyleTag (newFont : jstring) : jstring :=
  str "<style id=" ++ dq ++ str "site-font" ++ dq ++ str ">"
  ++ fontCss newFont ++ str "</style>".

(** the updater [handlePageFontUpdate] gives to [setHtml] *)
Definition handlePageFontUpdate (newFont prev : jstring) : jstring :=
  let next := replace siteFontAttempt (byString []) true prev in
  if negb (jeqb newFont []) then newStyleTag newFont ++ next else next.

(* ================================================================== *)
(** ** Colour and font names: [tailwindToHex], [cleanFontName] *)

(** [[a-fA-F0-9]] *)
Definition is_hex (c : cu) : bool :=
  inRange 97 102 c || inRange 65 70 c || inRange 48 57 c.

(** [[a-fA-F0-9]{n}] at the start of [s] *)
Definition hexRun (n : nat) (s : jstring) : option jstring :=
  let h := firstn n s in
  if Nat.eqb (List.length h) n && forallb is_hex h then Some h else None.

(** the first match of the colour pattern: a hash sign and six hex digits,
    or else three; the capture *)
Fixpoint hexColorMatch (s : jstring) : option jstring :=
  match s with
  | [] => None
  | c :: s' =>
      if N.eqb c 35 then
        match hexRun 6 s' with
        | Some h => Some h
        | None =>
            match hexRun 3 s' with
            | Some h => Some h
            | None => hexColorMatch s'
            end
        end
      else hexColorMatch s'
  end.

Definition tailwindToHex (cls : jstring) : jstring :=
  if includes cls (str "#") then
    match hexColorMatch cls with
    | Some h => str "#" ++ h
    | None => str "#3b82f6"
    end
  else if includes cls (str "white") then str "#ffffff"
  else if includes cls (str "black") then str "#000000"
  else if includes cls (str "blue") then str "#3b82f6"
  else if includes cls (str "red") then str "#ef4444"
  else if includes cls (str "green") then str "#22c55e"
  else if includes cls (str "yellow") then str "#eab308"
  else if includes cls (str "purple") then str "#a855f7"
  else if includes cls (str "pink") then str "#ec4899"
  else if includes cls (str "indigo") then str "#6366f1"
  else if includes cls (str "zinc") || includes cls (str "slate")
          || includes cls (str "gray") then str "#71717a"
  else str "#3b82f6".

(** [s.trim()] *)
Definition trim (s : jstring) : jstring :=
  rev (snd (span is_space (rev (snd (span is_space s))))).

(** [cleanFontName]: the text before the first comma, without its single
    and double quotes, trimmed *)
Definition cleanFontName (font : jstring) : jstring :=
  match font with
  | [] => []
  | _ :: _ =>
      trim (filter (fun c => negb (is_quote c))
                   (fst (span (fun c => negb (N.eqb c 44)) font)))
  end.

(* ================================================================== *)
(** ** Element paths: [findByPath] *)

(** [el.children] *)
Definition children (el : node) : list node :=
  match el with
  | Elem _ _ cs => filter isElement cs
  | _ => []
  end.

(** [el.getAttribute(name)] *)
Definition getAttribute (el : node) (name : jstring) : option jstring :=
  match el with
  | Elem _ attrs _ => obj_get attrs name
  | _ => None
  end.

(** [path.split('.')] *)
Fixpoint split_dot (s : jstring) : list jstring :=
  match s with
  | [] => [[]]
  | c :: s' =>
      if N.eqb c 46 then [] :: split_dot s'
      else match split_dot s' with
           | part :: parts => (c :: part) :: parts
           | [] => [[c]]
           end
  end.

Section FindByPath.
(** [Number(part)] as an index of [children]: [None] when the number is
    not a non-negative integer, and [children[index]] is [undefined] *)
Variable Number : jstring -> option nat.

Definition step_into (current : option node) (part : jstring)
  : option node :=
  match current with
  | None => None
  | Some c =>
      match Number part with
      | Some index => nth_error (children c) index
      | None => None
      end
  end.

Definition findByPath (el : node) (path : jstring) : option node :=
  fold_left step_into (split_dot path) (Some el).
End FindByPath.

(* ================================================================== *)
(** ** Further notions *)

(** [s] holds [p] somewhere, compared as the [i] flag compares *)
Fixpoint includes_ci (s p : jstring) : bool :=
  startsWith_ci s p
  || match s with
     | [] => false
     | _ :: s' => includes_ci s' p
     end.

(** the element reached from [el] through the children of the given
    indices *)
Fixpoint elementAt (el : node) (p : list nat) : option node :=
  match p with
  | [] => Some el
  | i :: p' =>
      match nth_error (children el) i with
      | Some c => elementAt c p'
      | None => None
      end
  end.

(** the indices of a path written out after a first part, each behind a
    dot *)
Definition dotted (p : list nat) : jstring :=
  flat_map (fun i => str "." ++ decimal (N.of_nat i)) p.

(** the text of a path: its indices with dots between them *)
Definition pathText (p : list nat) : jstring :=
  match p with
  | [] => []
  | i :: p' => decimal (N.of_nat i) ++ dotted p'
  end.

(** [Number] on the two texts of the example *)
Definition digitIndex (s : jstring) : option nat :=
  if jeqb s (str "0") then Some 0%nat
  else if jeqb s (str "1") then Some 1%nat
  else None.
(* ================================================================== *)
(** ** Strings and objects: basic facts *)

Lemma jeqb_eq (a b : jstring) : jeqb a b = true <-> a = b.
Proof.
  revert b; induction a as [|x a IH]; intros [|y b]; simpl; split;
    try congruence; try reflexivity.
  - intros H. apply andb_true_iff in H as [Hx Hab].
    apply N.eqb_eq in Hx. apply IH in Hab. congruence.
  - intros H. injection H as -> ->.
    rewrite N.eqb_refl. simpl. now apply IH.
Qed.

Lemma jeqb_refl (a : jstring) : jeqb a a = true.
Proof. now apply jeqb_eq. Qed.

Lemma jeqb_neq (a b : jstring) : jeqb a b = false <-> a <> b.
Proof.
  split.
  - intros H E. apply jeqb_eq in E. congruence.
  - intros H. destruct (jeqb a b) eqn:E; [|reflexivity].
    apply jeqb_eq in E. contradiction.
Qed.

Lemma jeqb_sym (a b : jstring) : jeqb a b = jeqb b a.
Proof.
  destruct (jeqb a b) eqn:E.
  - apply jeqb_eq in E. subst. now rewrite jeqb_refl.
  - symmetry. apply jeqb_neq. apply jeqb_neq in E. congruence.
Qed.

Lemma mem_In (k : jstring) (l : list jstring) : mem k l = true <-> In k l.
Proof.
  unfold mem. rewrite existsb_exists. split.
  - intros [x [Hx E]]. apply jeqb_eq in E. now subst.
  - intros H. exists k. split; [assumption | apply jeqb_refl].
Qed.

Lemma mem_not_In (k : jstring) (l : list jstring) :
  mem k l = false <-> ~ In k l.
Proof.
  rewrite <- mem_In. destruct (mem k l); split; congruence.
Qed.

Lemma strip_prefix_app (p s r : jstring) :
  strip_prefix p s = Some r <-> s = p ++ r.
Proof.
  revert s; induction p as [|x p IH]; intros s; simpl.
  - split; congruence.
  - destruct s as [|y s]; [split; discriminate|].
    destruct (N.eqb x y) eqn:E.
    + apply N.eqb_eq in E. subst y. rewrite IH. split; congruence.
    + apply N.eqb_neq in E. split; [discriminate | congruence].
Qed.

Lemma includes_Substring (s sub : jstring) :
  includes s sub = true <-> Substring sub s.
Proof.
  unfold Substring. induction s as [|c s IH]; simpl.
  - unfold startsWith. split.
    + rewrite orb_false_r.
      destruct (strip_prefix sub []) as [r|] eqn:E; [|discriminate].
      intros _. apply strip_prefix_app in E. now exists [], r.
    + intros [pre [post E]].
      destruct pre; [|discriminate]. simpl in E.
      assert (H : strip_prefix sub [] = Some post)
        by now apply strip_prefix_app.
      now rewrite H.
  - rewrite orb_true_iff, IH. unfold startsWith. split.
    + intros [H | [pre [post E]]].
      * destruct (strip_prefix sub (c :: s)) as [r|] eqn:E; [|discriminate].
        apply strip_prefix_app in E. now exists [], r.
      * exists (c :: pre), post. simpl. congruence.
    + intros [[|x pre] [post E]].
      * left. simpl in E.
        assert (H : strip_prefix sub (c :: s) = Some post)
          by now apply strip_prefix_app.
        now rewrite H.
      * right. injection E as -> E. now exists pre, post.
Qed.

Section ObjectFacts.
Variable V : Type.
Implicit Types (o : obj V) (k : jstring) (v : V).

Lemma obj_get_None o k : obj_get o k = None <-> ~ In k (obj_keys o).
Proof.
  induction o as [|[k' v'] o IH]; simpl.
  - tauto.
  - destruct (jeqb k' k) eqn:E.
    + apply jeqb_eq in E. split; [discriminate | tauto].
    + apply jeqb_neq in E. rewrite IH. tauto.
Qed.

Lemma obj_has_In o k : obj_has o k = true <-> In k (obj_keys o).
Proof.
  unfold obj_has. destruct (obj_get o k) eqn:E.
  - split; [intros _ | reflexivity].
    destruct (in_dec (list_eq_dec N.eq_dec) k (obj_keys o)) as [H|H];
      [assumption|].
    apply obj_get_None in H. congruence.
  - apply obj_get_None in E. split; [discriminate | contradiction].
Qed.

Lemma obj_get_delete o k k' :
  obj_get (obj_delete o k) k' = if jeqb k k' then None else obj_get o k'.
Proof.
  induction o as [|[k0 v0] o IH]; simpl.
  - now destruct (jeqb k k').
  - destruct (jeqb k0 k) eqn:E0.
    + apply jeqb_eq in E0. subst k0. rewrite IH.
      now destruct (jeqb k k').
    + simpl. rewrite IH. destruct (jeqb k0 k') eqn:E1; [|reflexivity].
      apply jeqb_eq in E1. subst k0. rewrite jeqb_sym in E0.
      now rewrite E0.
Qed.

Lemma obj_get_update o k v k' :
  obj_get o k <> None ->
  obj_get (obj_update o k v) k' = if jeqb k k' then Some v else obj_get o k'.
Proof.
  induction o as [|[k0 v0] o IH]; simpl; [congruence|].
  destruct (jeqb k0 k) eqn:E0.
  - intros _. apply jeqb_eq in E0. subst k0. simpl.
    now destruct (jeqb k k').
  - intros H. simpl. rewrite (IH H).
    destruct (jeqb k0 k') eqn:E1; [|reflexivity].
    apply jeqb_eq in E1. subst k0. rewrite jeqb_sym in E0.
    now rewrite E0.
Qed.

Lemma obj_get_insert_index o n k v k' :
  obj_get o k = None ->
  obj_get (obj_insert_index o n k v) k'
  = if jeqb k k' then Some v else obj_get o k'.
Proof.
  induction o as [|[k0 v0] o IH]; simpl; [reflexivity|].
  destruct (jeqb k0 k) eqn:E0; [discriminate|]. intros H.
  assert (Hhere : obj_get ((k, v) :: (k0, v0) :: o) k'
                  = if jeqb k k' then Some v
                    else if jeqb k0 k' then Some v0 else obj_get o k')
    by reflexivity.
  destruct (array_index k0) as [m|]; [|exact Hhere].
  destruct (N.ltb m n); [|exact Hhere].
  simpl. rewrite (IH H).
  destruct (jeqb k0 k') eqn:E1; [|reflexivity].
  apply jeqb_eq in E1. subst k0. rewrite jeqb_sym in E0. now rewrite E0.
Qed.

Lemma obj_get_app_new o k v k' :
  obj_get o k = None ->
  obj_get (o ++ [(k, v)]) k' = if jeqb k k' then Some v else obj_get o k'.
Proof.
  induction o as [|[k0 v0] o IH]; simpl; [reflexivity|].
  destruct (jeqb k0 k) eqn:E0; [discriminate|]. intros H.
  rewrite (IH H). destruct (jeqb k0 k') eqn:E1; [|reflexivity].
  apply jeqb_eq in E1. subst k0. rewrite jeqb_sym in E0. now rewrite E0.
Qed.

(** reading after [o[k] = v] *)
Lemma obj_get_set o k v k' :
  obj_get (obj_set o k v) k' = if jeqb k k' then Some v else obj_get o k'.
Proof.
  unfold obj_set, obj_has. destruct (obj_get o k) eqn:E.
  - apply obj_get_update. congruence.
  - destruct (array_index k).
    + now apply obj_get_insert_index.
    + now apply obj_get_app_new.
Qed.


Lemma obj_keys_get o k : In k (obj_keys o) -> exists v, obj_get o k = Some v.
Proof.
  intros H. destruct (obj_get o k) eqn:E; [eauto|].
  apply obj_get_None in E. contradiction.
Qed.



End ObjectFacts.

Lemma fold_left_inv (A B : Type) (f : A -> B -> A) (P : A -> Prop)
    (l : list B) (a : A) :
  P a -> (forall a x, In x l -> P a -> P (f a x)) -> P (fold_left f l a).
Proof.
  revert a; induction l as [|x l IH]; intros a Ha Hf; simpl; [assumption|].
  apply IH.
  - apply Hf; [now left | assumption].
  - intros a' y Hy. apply Hf. now right.
Qed.

(* ================================================================== *)
(** ** The reconciler: the three steps, one by one *)

Lemma find_split (A : Type) (f : A -> bool) (l : list A) (x : A) :
  find f l = Some x ->
  exists l1 l2, l = l1 ++ x :: l2 /\ (forall y, In y l1 -> f y = false)
                /\ f x = true.
Proof.
  induction l as [|a l IH]; simpl; [discriminate|].
  destruct (f a) eqn:E.
  - intros [= ->]. exists [], l. simpl. tauto.
  - intros H. destruct (IH H) as [l1 [l2 [-> [H1 H2]]]].
    exists (a :: l1), l2. simpl. repeat split; [|assumption].
    intros y [<- | Hy]; [assumption | now apply H1].
Qed.

Lemma splice_out_first (k : jstring) (l1 l2 : list jstring) :
  ~ In k l1 -> splice_out k (l1 ++ k :: l2) = l1 ++ l2.
Proof.
  induction l1 as [|x l1 IH]; simpl; intros H.
  - now rewrite jeqb_refl.
  - destruct (jeqb x k) eqn:E.
    + apply jeqb_eq in E. tauto.
    + f_equal. apply IH. tauto.
Qed.

Lemma filter_not_mem (found l : list jstring) (k : jstring) :
  In k (filter (fun k => negb (mem k found)) l) <-> In k l /\ ~ In k found.
Proof.
  rewrite filter_In, negb_true_iff, mem_not_In. tauto.
Qed.

Lemma removed_spec (found : list jstring) (prev : State) (k : jstring) :
  In k (removedKeys (startPass found prev))
  <-> In k (obj_keys prev) /\ ~ In k found.
Proof. apply filter_not_mem. Qed.

Lemma added_spec (found : list jstring) (prev : State) (k : jstring) :
  In k (addedKeysOf found prev) <-> In k found /\ ~ In k (obj_keys prev).
Proof. apply filter_not_mem. Qed.

Lemma isDefaultValue_true (st : State) (k : jstring) :
  isDefaultValue st k = true <-> obj_get st k = Some (VStr (defaultValue k)).
Proof.
  unfold isDefaultValue. destruct (obj_get st k) as [[s| | |s]|];
    try (split; congruence).
  rewrite jeqb_eq. split; congruence.
Qed.

Lemma isDefaultValue_ext (st st' : State) (k : jstring) :
  obj_get st k = obj_get st' k -> isDefaultValue st k = isDefaultValue st' k.
Proof. unfold isDefaultValue. now intros ->. Qed.

(* ------------------------------------------------------------------ *)
(** *** Assignments to a plain object *)

Lemma reachesSetter_name (own : State) (pr : prototype) (k : jstring) :
  reachesSetter own pr k = true -> k = str "__proto__".
Proof.
  unfold reachesSetter. intros H.
  apply andb_true_iff in H as [H _]. apply andb_true_iff in H as [H _].
  now apply jeqb_eq.
Qed.

Lemma reachesSetter_other (own : State) (pr : prototype) (k : jstring) :
  k <> str "__proto__" -> reachesSetter own pr k = false.
Proof.
  intros H. destruct (reachesSetter own pr k) eqn:E; [|reflexivity].
  apply reachesSetter_name in E. contradiction.
Qed.

(** what an assignment leaves under every key *)
Lemma js_assign_get (own : State) (pr : prototype) (k : jstring) (v : value)
    (k' : jstring) :
  obj_get (fst (js_assign own pr k v)) k'
  = if jeqb k k' && negb (reachesSetter own pr k) then Some v
    else obj_get own k'.
Proof.
  unfold js_assign. destruct (reachesSetter own pr k); simpl.
  - now rewrite andb_false_r.
  - rewrite andb_true_r. apply obj_get_set.
Qed.

Lemma js_assign_plain (own : State) (pr : prototype) (k : jstring)
    (v : value) :
  k <> str "__proto__" -> js_assign own pr k v = (obj_set own k v, pr).
Proof.
  intros H. unfold js_assign. now rewrite reachesSetter_other.
Qed.

(** a string never replaces the prototype *)
Lemma js_assign_string (own : State) (pr : prototype) (k s : jstring) :
  snd (js_assign own pr k (VStr s)) = pr.
Proof. unfold js_assign. now destruct (reachesSetter own pr k). Qed.

(* ------------------------------------------------------------------ *)
(** *** Step 1 *)

(** the predicate of [find] says what [candidate] says *)
Lemma isSource_candidate (p : pass) (m : mapping) (newKey oldKey : jstring) :
  (forall k, m k = obj_get (newState p) k) ->
  In oldKey (removedKeys p) ->
  isSource p newKey oldKey = true
  <-> candidate m (removedKeys p) newKey oldKey.
Proof.
  intros Hm Hin. unfold isSource, candidate.
  rewrite andb_true_iff, !orb_true_iff, negb_true_iff, !includes_Substring.
  rewrite Hm, <- isDefaultValue_true, not_true_iff_false.
  assert (Hone : Nat.eqb (List.length (removedKeys p)) 1 = true
                 <-> removedKeys p = [oldKey]).
  { rewrite Nat.eqb_eq. destruct (removedKeys p) as [|x [|y l]]; simpl in *.
    - tauto.
    - destruct Hin as [-> | []]. tauto.
    - split; discriminate. }
  rewrite Hone. tauto.
Qed.

(** what one migration round does when it finds a source *)
Lemma migrateKey_moves (p : pass) (newKey sourceKey : jstring) :
  find (isSource p newKey) (removedKeys p) = Some sourceKey ->
  sourceKey <> [] ->
  migrateKey p newKey
  = mkPass (obj_delete
              (fst (js_assign (newState p) (proto p) newKey
                              (obj_read (newState p) sourceKey)))
              sourceKey)
           (snd (js_assign (newState p) (proto p) newKey
                           (obj_read (newState p) sourceKey)))
           (splice_out sourceKey (removedKeys p)) true.
Proof.
  intros H Hne. unfold migrateKey. rewrite H.
  destruct sourceKey; [contradiction|].
  now destruct (js_assign _ _ _ _).
Qed.

Lemma migrateKey_stays (p : pass) (newKey : jstring) :
  match find (isSource p newKey) (removedKeys p) with
  | Some (_ :: _) => False
  | _ => True
  end ->
  migrateKey p newKey = p.
Proof.
  unfold migrateKey.
  now destruct (find (isSource p newKey) (removedKeys p)) as [[|c s]|].
Qed.

(** a round either does nothing or moves a value *)
Lemma migrateKey_cases (p : pass) (newKey : jstring) :
  migrateKey p newKey = p
  \/ exists sourceKey,
      find (isSource p newKey) (removedKeys p) = Some sourceKey
      /\ sourceKey <> []
      /\ In sourceKey (removedKeys p)
      /\ migrateKey p newKey
         = mkPass (obj_delete
                     (fst (js_assign (newState p) (proto p) newKey
                                     (obj_read (newState p) sourceKey)))
                     sourceKey)
                  (snd (js_assign (newState p) (proto p) newKey
                                  (obj_read (newState p) sourceKey)))
                  (splice_out sourceKey (removedKeys p)) true.
Proof.
  destruct (find (isSource p newKey) (removedKeys p)) as [[|c s]|] eqn:E.
  - left. apply migrateKey_stays. now rewrite E.
  - right. exists (c :: s). split; [reflexivity|]. split; [discriminate|].
    split; [now apply find_some in E|].
    now apply migrateKey_moves.
  - left. apply migrateKey_stays. now rewrite E.
Qed.

Lemma moved_lookup (st : State) (pr : prototype) (m : mapping)
    (newKey oldKey k : jstring) :
  (forall k, m k = obj_get st k) ->
  obj_get st oldKey <> None -> oldKey <> newKey ->
  newKey <> str "__proto__" ->
  moveValue m oldKey newKey k
  = obj_get (obj_delete (fst (js_assign st pr newKey (obj_read st oldKey)))
                        oldKey) k.
Proof.
  intros Hm Hold Hne Hproto. unfold moveValue, obj_read.
  rewrite obj_get_delete, js_assign_get, reachesSetter_other by assumption.
  rewrite andb_true_r, !Hm, (jeqb_sym k newKey), (jeqb_sym k oldKey).
  destruct (jeqb newKey k) eqn:E1.
  - apply jeqb_eq in E1. subst k.
    apply jeqb_neq in Hne. rewrite Hne.
    destruct (obj_get st oldKey); [reflexivity | contradiction].
  - reflexivity.
Qed.

(** the migration loop does what the specification's [Migration] says,
    as long as [__proto__] is not one of the added keys *)
Lemma migration_loop (added : list jstring) :
  forall (p : pass) (m : mapping),
    (forall k, m k = obj_get (newState p) k) ->
    NoDup (removedKeys p) ->
    ~ In [] (removedKeys p) ->
    ~ In (str "__proto__") added ->
    (forall k, In k (removedKeys p) -> obj_get (newState p) k <> None) ->
    (forall k, In k (removedKeys p) -> ~ In k added) ->
    exists m',
      Migration added m (removedKeys p) m'
                (removedKeys (fold_left migrateKey added p))
      /\ forall k, m' k = obj_get (newState (fold_left migrateKey added p)) k.
Proof.
  induction added as [|newKey added IH];
    intros p m Hm Hnd Hne Hproto Hpres Hdis.
  - exists m. split; [constructor | assumption].
  - simpl.
    assert (Hnew : newKey <> str "__proto__")
      by (intros ->; apply Hproto; now left).
    assert (Hproto' : ~ In (str "__proto__") added)
      by (intros H; apply Hproto; now right).
    destruct (find (isSource p newKey) (removedKeys p))
      as [sourceKey|] eqn:Hfind.
    + destruct (find_split _ _ Hfind) as [l1 [l2 [Hsplit [Hfirst Hsrc]]]].
      assert (Hin : In sourceKey (removedKeys p))
        by (rewrite Hsplit, in_app_iff; simpl; tauto).
      assert (Hnonempty : sourceKey <> []) by (intros ->; contradiction).
      assert (Hnotin : ~ In sourceKey l1).
      { intros H. apply Hfirst in H. congruence. }
      assert (Hdiff : sourceKey <> newKey).
      { intros ->. apply (Hdis newKey Hin). now left. }
      rewrite (migrateKey_moves _ _ Hfind Hnonempty).
      rewrite Hsplit in Hnd. pose proof (NoDup_remove _ _ _ Hnd) as [Hnd' Hsk].
      set (p' := mkPass _ _ _ _).
      assert (Hrem' : removedKeys p' = l1 ++ l2).
      { unfold p'. simpl. rewrite Hsplit. now apply splice_out_first. }
      destruct (IH p' (moveValue m sourceKey newKey)) as [m' [HM Hm']].
      * intros k. unfold p'. simpl. apply moved_lookup; auto.
      * now rewrite Hrem'.
      * rewrite Hrem'. intros H. apply Hne. rewrite Hsplit.
        rewrite in_app_iff in *. simpl. tauto.
      * assumption.
      * rewrite Hrem'. intros k Hk. unfold p'. simpl.
        rewrite obj_get_delete, js_assign_get.
        assert (Hk' : In k (removedKeys p)).
        { rewrite Hsplit. rewrite in_app_iff in *. simpl. tauto. }
        assert (E1 : jeqb sourceKey k = false).
        { apply jeqb_neq. intros ->. contradiction. }
        assert (E2 : jeqb newKey k = false).
        { apply jeqb_neq. intros ->. apply (Hdis k Hk'). now left. }
        rewrite E1, E2. now apply Hpres.
      * rewrite Hrem'. intros k Hk Hka. apply (Hdis k).
        -- rewrite Hsplit. rewrite in_app_iff in *. simpl. tauto.
        -- now right.
      * exists m'. split; [|assumption].
        rewrite Hsplit. rewrite Hrem' in HM.
        apply Migration_move; [| |assumption].
        -- intros k Hk Hc. rewrite <- Hsplit in Hc.
           assert (Hk' : In k (removedKeys p))
             by (rewrite Hsplit, in_app_iff; tauto).
           apply (@isSource_candidate p m newKey k Hm Hk') in Hc.
           rewrite (Hfirst k Hk) in Hc. discriminate.
        -- rewrite <- Hsplit.
           now apply (@isSource_candidate p m newKey sourceKey Hm Hin).
    + assert (Hstay : migrateKey p newKey = p).
      { unfold migrateKey. now rewrite Hfind. }
      rewrite Hstay.
      destruct (IH p m) as [m' [HM Hm']]; auto.
      * intros k Hk Hka. apply (Hdis k Hk). now right.
      * exists m'. split; [|assumption].
        apply Migration_skip; [|assumption].
        intros k Hk Hc. apply (@isSource_candidate p m newKey k Hm Hk) in Hc.
        pose proof (find_none _ _ Hfind k Hk). congruence.
Qed.

Lemma migrateKey_no_removed (p : pass) (newKey : jstring) :
  removedKeys p = [] -> migrateKey p newKey = p.
Proof. intros H. unfold migrateKey. now rewrite H. Qed.

(** the guard of step 1 only skips rounds that would do nothing *)
Lemma migrate_fold (found : list jstring) (prev : State) :
  migrate found prev
  = fold_left migrateKey (addedKeysOf found prev) (startPass found prev).
Proof.
  unfold migrate.
  destruct (addedKeysOf found prev) as [|a l] eqn:Ea; [reflexivity|].
  destruct (removedKeys (startPass found prev)) as [|r l'] eqn:Er;
    [|reflexivity].
  simpl Nat.ltb. simpl andb. cbv iota.
  symmetry. apply fold_left_inv; [reflexivity|].
  intros a' x _ ->. now apply migrateKey_no_removed.
Qed.

Lemma In_splice_out (k x : jstring) (l : list jstring) :
  In x (splice_out k l) -> In x l.
Proof.
  induction l as [|y l IH]; simpl; [tauto|].
  destruct (jeqb y k); simpl; tauto.
Qed.

Lemma NoDup_splice_out (k : jstring) (l : list jstring) :
  NoDup l -> NoDup (splice_out k l) /\ ~ In k (splice_out k l).
Proof.
  induction l as [|y l IH]; simpl; intros H.
  - split; [constructor | tauto].
  - inversion H as [|? ? Hy Hl]; subst.
    destruct (jeqb y k) eqn:E.
    + apply jeqb_eq in E. subst. tauto.
    + apply jeqb_neq in E. destruct (IH Hl) as [H1 H2]. split.
      * constructor; [|assumption]. intros Hin. apply Hy.
        now apply In_splice_out in Hin.
      * simpl. tauto.
Qed.

(** a round of step 1 writes under its added key and its source only *)
Lemma migrateKey_frame (p : pass) (newKey k : jstring) :
  k <> newKey ->
  In k (removedKeys (migrateKey p newKey)) \/ ~ In k (removedKeys p) ->
  NoDup (removedKeys p) ->
  obj_get (newState (migrateKey p newKey)) k = obj_get (newState p) k.
Proof.
  intros Hne Hor Hnd.
  destruct (migrateKey_cases p newKey) as [-> | [src [_ [_ [Hin E]]]]];
    [reflexivity|].
  rewrite E in *. simpl in *. rewrite obj_get_delete, js_assign_get.
  destruct (NoDup_splice_out src Hnd) as [_ Hgone].
  assert (E1 : jeqb src k = false).
  { apply jeqb_neq. intros <-. destruct Hor; contradiction. }
  assert (E2 : jeqb newKey k = false) by (apply jeqb_neq; congruence).
  now rewrite E1, E2.
Qed.

(** Step 1 leaves alone every key that is not an added key and is either
    still among the removed keys or was never one of them. *)
Lemma migrate_frame (found : list jstring) (prev : State) :
  NoDup (obj_keys prev) ->
  let p := migrate found prev in
  incl (removedKeys p) (removedKeys (startPass found prev))
  /\ forall k,
      ~ In k (addedKeysOf found prev) ->
      In k (removedKeys p) \/ ~ In k (removedKeys (startPass found prev)) ->
      obj_get (newState p) k = obj_get prev k.
Proof.
  intros Hnd. cbv zeta. rewrite migrate_fold.
  set (added := addedKeysOf found prev).
  set (removed0 := removedKeys (startPass found prev)).
  assert (Hinv :
    (fun p => NoDup (removedKeys p)
              /\ incl (removedKeys p) removed0
              /\ forall k, ~ In k added ->
                           In k (removedKeys p) \/ ~ In k removed0 ->
                           obj_get (newState p) k = obj_get prev k)
      (fold_left migrateKey added (startPass found prev))).
  { apply fold_left_inv.
    - repeat split.
      + unfold startPass. simpl. now apply NoDup_filter.
      + apply incl_refl.
    - intros p newKey Hnew [Hnd' [Hincl Hframe]].
      assert (Hsub : incl (removedKeys (migrateKey p newKey))
                          (removedKeys p)).
      { destruct (migrateKey_cases p newKey) as [-> | [src [_ [_ [_ E]]]]];
          [apply incl_refl|].
        rewrite E. simpl. intros x Hx. now apply In_splice_out in Hx. }
      split; [|split].
      + destruct (migrateKey_cases p newKey) as [-> | [src [_ [_ [_ E]]]]];
          [assumption|].
        rewrite E. simpl. now apply NoDup_splice_out.
      + intros x Hx. apply Hincl. now apply Hsub.
      + intros k Hk Hor. rewrite migrateKey_frame; try assumption.
        * apply Hframe; [assumption|].
          destruct Hor as [H | H]; [left; now apply Hsub | now right].
        * intros ->. contradiction.
        * destruct Hor as [H | H]; [now left | right].
          intros Hin. apply H. now apply Hincl. }
  destruct Hinv as [_ [H1 H2]]. split; assumption.
Qed.

(** Step 1 leaves alone every key that is neither added nor removed. *)
Lemma migrate_frame_shared (found : list jstring) (prev : State) (k : jstring) :
  ~ In k (addedKeysOf found prev) ->
  ~ In k (removedKeys (startPass found prev)) ->
  obj_get (newState (migrate found prev)) k = obj_get prev k.
Proof.
  intros Ha Hr. rewrite migrate_fold.
  set (removed0 := removedKeys (startPass found prev)) in *.
  assert (Hinv :
    (fun p => incl (removedKeys p) removed0
              /\ obj_get (newState p) k = obj_get prev k)
      (fold_left migrateKey (addedKeysOf found prev) (startPass found prev))).
  { apply fold_left_inv.
    - split; [apply incl_refl | reflexivity].
    - intros p newKey Hnew [Hincl Hframe].
      destruct (migrateKey_cases p newKey) as [-> | [src [_ [_ [Hin E]]]]];
        [now split|].
      rewrite E. simpl. split.
      + intros x Hx. apply Hincl. now apply In_splice_out in Hx.
      + rewrite obj_get_delete, js_assign_get.
        assert (E1 : jeqb src k = false).
        { apply jeqb_neq. intros <-. apply Hr. now apply Hincl. }
        assert (E2 : jeqb newKey k = false).
        { apply jeqb_neq. intros <-. contradiction. }
        now rewrite E1, E2. }
  apply Hinv.
Qed.

(* ------------------------------------------------------------------ *)
(** *** Step 2 *)

Lemma addKeys_thrown (l : list jstring) :
  fold_left (fun acc key => match acc with
                            | Some q => addKey q key
                            | None => None
                            end) l None = None.
Proof. induction l as [|x l IH]; simpl; [reflexivity | exact IH]. Qed.

Lemma addKeys_cons (x : jstring) (l : list jstring) (p : pass) :
  addKeys (x :: l) p
  = match addKey p x with
    | Some q => addKeys l q
    | None => None
    end.
Proof.
  unfold addKeys. simpl. destruct (addKey p x); [reflexivity|].
  apply addKeys_thrown.
Qed.

(** a round of step 2 that does not throw *)
Lemma addKey_some (p q : pass) (key : jstring) :
  addKey p key = Some q ->
  obj_has (newState p) (str "hasOwnProperty") = false
  /\ proto p = ObjectPrototype
  /\ proto q = proto p
  /\ removedKeys q = removedKeys p
  /\ (hasChanges q = false -> q = p)
  /\ forall k,
      obj_get (newState q) k
      = match obj_get (newState p) k with
        | Some v => Some v
        | None =>
            if jeqb k key && negb (reachesSetter (newState p) (proto p) k)
            then Some (VStr (defaultValue k)) else None
        end.
Proof.
  unfold addKey, js_hasOwnProperty.
  destruct (obj_has (newState p) (str "hasOwnProperty")); [discriminate|].
  destruct (proto p) eqn:Epr; [|discriminate].
  destruct (obj_has (newState p) key) eqn:Ekey.
  - intros [= <-]. rewrite Epr. repeat split; try reflexivity.
    intros k. destruct (obj_get (newState p) k) eqn:Ek; [reflexivity|].
    destruct (jeqb k key) eqn:E; [|reflexivity].
    apply jeqb_eq in E. subst k. unfold obj_has in Ekey.
    rewrite Ek in Ekey. discriminate.
  - destruct (js_assign (newState p) ObjectPrototype key
                        (VStr (defaultValue key))) as [st pr] eqn:Ea.
    intros [= <-]. simpl.
    assert (Hst : st = fst (js_assign (newState p) ObjectPrototype key
                                      (VStr (defaultValue key))))
      by now rewrite Ea.
    assert (Hpr : pr = ObjectPrototype).
    { replace pr with (snd (js_assign (newState p) ObjectPrototype key
                                      (VStr (defaultValue key))))
        by now rewrite Ea.
      apply js_assign_string. }
    repeat split; try assumption; try reflexivity; try discriminate.
    intros k. rewrite Hst, js_assign_get, (jeqb_sym key k).
    destruct (jeqb k key) eqn:E.
    + apply jeqb_eq in E. subst k. unfold obj_has in Ekey.
      destruct (obj_get (newState p) key); [discriminate|]. reflexivity.
    + simpl. now destruct (obj_get (newState p) k).
Qed.

(** Step 2 in closed form, when no round throws *)
Lemma addKeys_lookup (l : list jstring) :
  forall (p p2 : pass),
    addKeys l p = Some p2 ->
    proto p2 = proto p
    /\ removedKeys p2 = removedKeys p
    /\ (hasChanges p2 = false -> p2 = p)
    /\ forall k,
        obj_get (newState p2) k
        = match obj_get (newState p) k with
          | Some v => Some v
          | None =>
              if mem k l && negb (reachesSetter (newState p) (proto p) k)
              then Some (VStr (defaultValue k)) else None
          end.
Proof.
  induction l as [|x l IH]; intros p p2 H.
  - injection H as <-. repeat split; try reflexivity.
    intros k. now destruct (obj_get (newState p) k).
  - rewrite addKeys_cons in H.
    destruct (addKey p x) as [q|] eqn:Eq; [|discriminate].
    destruct (addKey_some _ _ Eq) as [_ [_ [Q1 [Q2 [Q3 Q4]]]]].
    destruct (IH q p2 H) as [P1 [P2 [P3 P4]]].
    split; [congruence|]. split; [congruence|]. split.
    { intros Hc. pose proof (P3 Hc) as E. subst p2. now apply Q3. }
    intros k. rewrite P4, Q4.
    destruct (obj_get (newState p) k) as [v|] eqn:Ek; [reflexivity|].
    change (mem k (x :: l)) with (jeqb k x || mem k l).
    destruct (jeqb k x && negb (reachesSetter (newState p) (proto p) k))
      eqn:E1.
    + apply andb_true_iff in E1 as [E1 E2]. now rewrite E1, E2.
    + assert (Hrs : reachesSetter (newState q) (proto q) k
                    = reachesSetter (newState p) (proto p) k).
      { unfold reachesSetter, obj_has. rewrite Q1, Q4, Ek, E1. reflexivity. }
      rewrite Hrs. apply andb_false_iff in E1 as [E1 | E1].
      * now rewrite E1.
      * rewrite E1, !andb_false_r. reflexivity.
Qed.

(** step 2 calls [hasOwnProperty] in its first round *)
Lemma addKeys_callable (l : list jstring) (p p2 : pass) :
  addKeys l p = Some p2 -> l <> [] ->
  obj_has (newState p) (str "hasOwnProperty") = false
  /\ proto p = ObjectPrototype.
Proof.
  intros H Hl. destruct l as [|x l]; [contradiction|].
  rewrite addKeys_cons in H.
  destruct (addKey p x) as [q|] eqn:Eq; [|discriminate].
  destruct (addKey_some _ _ Eq) as [H1 [H2 _]]. now split.
Qed.

(* ------------------------------------------------------------------ *)
(** *** Step 3 *)

Lemma pruneKey_step (found : list jstring) (p : pass) (x k : jstring) :
  obj_get (newState (pruneKey found p x)) k
  = if jeqb k x && negb (mem x found) && isDefaultValue (newState p) x
    then None else obj_get (newState p) k.
Proof.
  unfold pruneKey. destruct (mem x found); simpl.
  - now rewrite andb_false_r.
  - rewrite andb_true_r.
    destruct (isDefaultValue (newState p) x); simpl.
    + rewrite obj_get_delete, jeqb_sym, andb_true_r. reflexivity.
    + now rewrite andb_false_r.
Qed.

(** Step 3 in closed form *)
Lemma pruneKey_fold (found l : list jstring) :
  forall (p : pass) (k : jstring),
    obj_get (newState (fold_left (pruneKey found) l p)) k
    = if mem k l && negb (mem k found) && isDefaultValue (newState p) k
      then None else obj_get (newState p) k.
Proof.
  induction l as [|x l IH]; intros p k; simpl; [reflexivity|].
  rewrite IH. unfold isDefaultValue at 1. rewrite !pruneKey_step.
  destruct (jeqb k x) eqn:E; simpl.
  - apply jeqb_eq in E. subst x.
    destruct (mem k found); simpl.
    + now rewrite !andb_false_r.
    + destruct (isDefaultValue (newState p) k) eqn:Ed; simpl.
      * now destruct (mem k l).
      * rewrite andb_true_r. unfold isDefaultValue in Ed.
        destruct (obj_get (newState p) k) as [[s| | |s]|];
          rewrite ?Ed, ?andb_false_r; reflexivity.
  - reflexivity.
Qed.

(* ------------------------------------------------------------------ *)
(** *** The three steps together *)

(** a pass that reports no change has changed nothing, so what the
    updater returns is always what the three steps arrive at *)
Lemma reconcileKeys_some (found : list jstring) (prev st : State) :
  reconcileKeys found prev = Some st ->
  exists p2,
    addKeys found (migrate found prev) = Some p2
    /\ st = newState (fold_left (pruneKey found) (obj_keys (newState p2)) p2).
Proof.
  unfold reconcileKeys.
  destruct (addKeys found (migrate found prev)) as [p2|] eqn:E2;
    [|discriminate].
  intros [= <-]. exists p2. split; [reflexivity|].
  set (Q := fun p => hasChanges p = false -> newState p = prev).
  assert (H1 : Q (migrate found prev)).
  { rewrite migrate_fold. apply fold_left_inv; [now intros _|].
    intros p x _ Hp. unfold Q.
    destruct (migrateKey_cases p x) as [-> | [src [_ [_ [_ ->]]]]];
      [assumption | discriminate]. }
  assert (H2 : Q p2).
  { destruct (addKeys_lookup _ _ E2) as [_ [_ [H _]]].
    intros Hc. pose proof (H Hc) as E. subst p2. now apply H1. }
  assert (H3 : Q (fold_left (pruneKey found) (obj_keys (newState p2)) p2)).
  { apply fold_left_inv; [assumption|].
    intros p x _ Hp. unfold Q, pruneKey.
    destruct (mem _ _); auto.
    destruct (isDefaultValue _ _); simpl; auto; discriminate. }
  destruct (hasChanges _) eqn:E; [reflexivity|].
  symmetry. now apply H3.
Qed.

(** the value of every key after a pass that returns *)
Lemma reconcileKeys_lookup (found : list jstring) (prev st : State)
    (k : jstring) :
  reconcileKeys found prev = Some st ->
  obj_get st k
  = match obj_get (newState (migrate found prev)) k with
    | Some v =>
        if negb (mem k found) && jeqb_value v k then None else Some v
    | None =>
        if mem k found
           && negb (reachesSetter (newState (migrate found prev))
                                  (proto (migrate found prev)) k)
        then Some (VStr (defaultValue k)) else None
    end.
Proof.
  intros H. apply reconcileKeys_some in H as [p2 [E2 ->]].
  destruct (addKeys_lookup _ _ E2) as [_ [_ [_ Hget]]].
  rewrite pruneKey_fold. unfold isDefaultValue. rewrite !Hget.
  destruct (obj_get (newState (migrate found prev)) k) as [v|] eqn:E1.
  - assert (Hin : mem k (obj_keys (newState p2)) = true).
    { apply mem_In, obj_has_In. unfold obj_has. now rewrite Hget, E1. }
    rewrite Hin. simpl. unfold jeqb_value.
    destruct (mem k found); simpl; [reflexivity|].
    destruct v as [s| | |s]; try reflexivity.
  - destruct (mem k found) eqn:Ef; simpl.
    + destruct (negb _); simpl; now rewrite ?andb_false_r.
    + now rewrite andb_false_r.
Qed.

(** when the pass returns: no own or scanned key [hasOwnProperty], and no
    scanned key [__proto__] *)
Lemma migrate_plain (found : list jstring) (prev : State) :
  ~ In (str "__proto__") (addedKeysOf found prev) ->
  proto (migrate found prev) = ObjectPrototype.
Proof.
  intros Hp. rewrite migrate_fold.
  assert (Hinv : forall l p,
             ~ In (str "__proto__") l -> proto p = ObjectPrototype ->
             proto (fold_left migrateKey l p) = ObjectPrototype).
  { induction l as [|x l IH]; intros p Hl Hpr; [assumption|].
    simpl. apply IH; [intros H; apply Hl; now right|].
    destruct (migrateKey_cases p x) as [-> | [src [_ [_ [_ ->]]]]];
      [assumption|].
    simpl. rewrite js_assign_plain; [assumption|].
    intros ->. apply Hl. now left. }
  now apply Hinv.
Qed.

Lemma migrate_keys (found : list jstring) (prev : State) (k : jstring) :
  obj_get (newState (migrate found prev)) k <> None ->
  In k (obj_keys prev) \/ In k (addedKeysOf found prev).
Proof.
  rewrite migrate_fold.
  assert (Hinv : forall l p,
             obj_get (newState (fold_left migrateKey l p)) k <> None ->
             obj_get (newState p) k <> None \/ In k l).
  { induction l as [|x l IH]; intros p H; [now left|].
    simpl in H. apply IH in H as [H | H]; [|right; now right].
    destruct (migrateKey_cases p x) as [E | [src [_ [_ [_ E]]]]];
      rewrite E in H; [now left|].
    simpl in H. rewrite obj_get_delete, js_assign_get in H.
    destruct (jeqb src k); [contradiction|].
    destruct (jeqb x k) eqn:Ex.
    - apply jeqb_eq in Ex. subst. right. now left.
    - simpl in H. now left. }
  intros H. apply Hinv in H as [H | H]; [left | now right].
  simpl in H. apply obj_has_In. unfold obj_has.
  now destruct (obj_get prev k).
Qed.

Lemma addKeys_returns (l : list jstring) :
  forall p,
    proto p = ObjectPrototype ->
    obj_has (newState p) (str "hasOwnProperty") = false ->
    ~ In (str "hasOwnProperty") l ->
    exists p2, addKeys l p = Some p2.
Proof.
  induction l as [|x l IH]; intros p Hpr Hown Hl.
  - exists p. reflexivity.
  - rewrite addKeys_cons.
    assert (Hx : x <> str "hasOwnProperty")
      by (intros ->; apply Hl; now left).
    destruct (addKey p x) as [q|] eqn:Eq.
    + destruct (addKey_some _ _ Eq) as [_ [_ [Q1 [_ [_ Q4]]]]].
      apply IH; [congruence | | intros H; apply Hl; now right].
      unfold obj_has in *. rewrite Q4.
      destruct (obj_get (newState p) (str "hasOwnProperty"));
        [discriminate|].
      assert (E : jeqb (str "hasOwnProperty") x = false)
        by (apply jeqb_neq; congruence).
      now rewrite E.
    + exfalso. unfold addKey, js_hasOwnProperty in Eq.
      rewrite Hown, Hpr in Eq.
      destruct (obj_has (newState p) x); [discriminate|].
      now destruct (js_assign _ _ _ _).
Qed.

Lemma reconcileKeys_returns (found : list jstring) (prev : State) :
  ~ In (str "hasOwnProperty") (obj_keys prev) ->
  ~ In (str "hasOwnProperty") found ->
  ~ In (str "__proto__") (addedKeysOf found prev) ->
  exists st, reconcileKeys found prev = Some st.
Proof.
  intros Hown Hfound Hproto. unfold reconcileKeys.
  destruct (@addKeys_returns found (migrate found prev)) as [p2 E].
  - now apply migrate_plain.
  - destruct (obj_has (newState (migrate found prev))
                      (str "hasOwnProperty")) eqn:E; [|reflexivity].
    exfalso. destruct (@migrate_keys found prev (str "hasOwnProperty")).
    + unfold obj_has in E.
      now destruct (obj_get (newState (migrate found prev))
                            (str "hasOwnProperty")).
    + contradiction.
    + apply added_spec in H. tauto.
  - assumption.
  - rewrite E. eauto.
Qed.

Lemma distinct_NoDup (l : list jstring) : distinct l = true -> NoDup l.
Proof.
  induction l as [|k l IH]; simpl; intros H; constructor.
  - apply andb_true_iff in H as [H _].
    apply negb_true_iff in H. now apply mem_not_In.
  - apply IH. now apply andb_true_iff in H as [_ H].
Qed.

Lemma In_set_of (l : list jstring) :
  forall seen k, In k (set_of seen l) <-> In k l /\ ~ In k seen.
Proof.
  induction l as [|x l IH]; intros seen k; simpl; [tauto|].
  destruct (mem x seen) eqn:E.
  - apply mem_In in E. rewrite IH. split; [tauto|].
    intros [[-> | H] Hn]; tauto.
  - apply mem_not_In in E. simpl. rewrite IH. simpl.
    destruct (list_eq_dec N.eq_dec x k) as [-> | Hne]; tauto.
Qed.

Lemma In_foundKeys (html k : jstring) :
  In k (foundKeys html) <-> In k (scanKeys html).
Proof. unfold foundKeys. rewrite In_set_of. simpl. tauto. Qed.

(** C10: a reconciliation pass never changes the value bound to a key
    that appears both among the keys scanned from the Template and in the
    prior State: in the State the pass returns, such a key maps to exactly
    the value it had before.  (A pass returns a State unless a call of
    [hasOwnProperty] throws, see [reconcileKeys_returns].) *)
Theorem shared_key_keeps_value (html : jstring) (prev st : State)
    (k : jstring) :
  In k (foundKeys html) -> In k (obj_keys prev) ->
  reconcile html prev = Some st ->
  obj_get st k = obj_get prev k.
Proof.
  intros Hf Hp H. unfold reconcile in H.
  rewrite (reconcileKeys_lookup _ _ k H).
  rewrite migrate_frame_shared.
  - destruct (obj_keys_get _ _ Hp) as [v ->].
    apply mem_In in Hf. now rewrite Hf.
  - rewrite added_spec. tauto.
  - rewrite removed_spec. tauto.
Qed.

Lemma shared_key_keeps_value_witness :
  obj_get exampleResult (str "title") = obj_get exampleState (str "title").
Proof.
  apply (@shared_key_keeps_value exampleTemplate exampleState exampleResult
           (str "title")).
  - apply mem_In. reflexivity.
  - apply mem_In. reflexivity.
  - reflexivity.
Defined.

(** C7, the code at the failing inputs.  The Template key [__proto__]
    gets no State entry: the assignment of its default value runs the
    accessor of [Object.prototype], which ignores a string.  And a
    Template that names [hasOwnProperty] before another key makes the
    updater throw: the default value stored under that name shadows the
    method the next round calls. *)
Theorem proto_key_gets_no_entry :
  In (str "__proto__") (scanKeys (str "<p>{{__proto__}}</p>"))
  /\ (exists st,
         reconcile (str "<p>{{__proto__}}</p>") [] = Some st
         /\ obj_has st (str "__proto__") = false)
  /\ reconcile (str "<p>{{hasOwnProperty}} {{title}}</p>") [] = None.
Proof.
  split; [apply mem_In; reflexivity|]. split; [|reflexivity].
  exists []. split; reflexivity.
Qed.

(** C6: after a reconciliation pass, a State key that does not appear in
    the Template and was not consumed by rename migration is deleted if and
    only if its value still equals its auto-default [[key]]; a customised
    value is retained, unchanged, although its key vanished from the
    Template.  (Stated of the State a pass returns; a pass returns unless
    a call of [hasOwnProperty] throws.) *)
Theorem stale_key_pruned_iff_default (html : jstring) (prev st : State)
    (k : jstring) :
  NoDup (obj_keys prev) ->
  In k (obj_keys prev) ->
  ~ In k (scanKeys html) ->
  ~ consumed (foundKeys html) prev k ->
  reconcile html prev = Some st ->
  (obj_get st k = None
   <-> obj_get prev k = Some (VStr (defaultValue k)))
  /\ (obj_get prev k <> Some (VStr (defaultValue k)) ->
      obj_get st k = obj_get prev k).
Proof.
  intros Hnd Hp Hs Hc H. rewrite <- In_foundKeys in Hs.
  unfold reconcile in H.
  set (found := foundKeys html) in *.
  assert (Hr0 : In k (removedKeys (startPass found prev)))
    by (apply removed_spec; tauto).
  assert (Hr : In k (removedKeys (migrate found prev))).
  { destruct (in_dec (list_eq_dec N.eq_dec) k
                     (removedKeys (migrate found prev))) as [Hin | Hin];
      [assumption|].
    exfalso. apply Hc. split; assumption. }
  destruct (@migrate_frame found prev Hnd) as [_ Hframe].
  assert (Hg : obj_get (newState (migrate found prev)) k = obj_get prev k).
  { apply Hframe; [|now left]. rewrite added_spec. tauto. }
  rewrite (reconcileKeys_lookup _ _ k H), Hg.
  apply mem_not_In in Hs. rewrite Hs. simpl.
  destruct (obj_keys_get _ _ Hp) as [v Hv]. rewrite Hv.
  unfold jeqb_value.
  destruct v as [s| | |s]; try (split; [split|]; congruence).
  destruct (jeqb s (defaultValue k)) eqn:E.
  - apply jeqb_eq in E. subst s. split; [tauto | congruence].
  - apply jeqb_neq in E. split; [split; congruence | reflexivity].
Qed.

Lemma stale_key_pruned_iff_default_witness :
  (obj_get [(str "link1", VStr (str "custom"));
            (str "intro", VStr (str "[intro]"))] (str "title") = None
   <-> obj_get exampleState (str "title")
       = Some (VStr (defaultValue (str "title"))))
  /\ (obj_get exampleState (str "title")
      <> Some (VStr (defaultValue (str "title"))) ->
      obj_get [(str "link1", VStr (str "custom"));
               (str "intro", VStr (str "[intro]"))] (str "title")
      = obj_get exampleState (str "title")).
Proof.
  apply (@stale_key_pruned_iff_default (str "<p>{{intro}}</p>") exampleState
           [(str "link1", VStr (str "custom"));
            (str "intro", VStr (str "[intro]"))]
           (str "title")).
  - apply distinct_NoDup. reflexivity.
  - apply mem_In. reflexivity.
  - apply mem_not_In. reflexivity.
  - intros [_ H]. apply H. apply mem_In. reflexivity.
  - reflexivity.
Defined.

(** C5, the code at the failing input.  From State [{old: custom}] with a
    Template whose only key is [__proto__], the key [old] is the candidate
    that rename migration picks for the added key; the code assigns its
    value to [__proto__], which runs the accessor of [Object.prototype]
    and stores nothing, and then deletes [old]: the pass returns the empty
    State, and the value is under no key. *)
Theorem migration_to_proto_loses_value :
  let prev := [(str "old", VStr (str "custom"))] in
  let html := str "<p>{{__proto__}}</p>" in
  addedKeysOf (foundKeys html) prev = [str "__proto__"]
  /\ removedKeys (startPass (foundKeys html) prev) = [str "old"]
  /\ candidate (obj_get prev) [str "old"] (str "__proto__") (str "old")
  /\ reconcile html prev = Some [].
Proof.
  cbv zeta. split; [reflexivity|]. split; [reflexivity|].
  split; [|reflexivity].
  split; [discriminate | right; right; reflexivity].
Qed.

(* ================================================================== *)
(** ** The document tree: anchors are elements of the tree *)

Lemma childNodesAt_snoc (p : path) :
  forall (b : list node) (i : nat),
    childNodesAt b (p ++ [i])
    = match childNodesAt b p with
      | Some cs =>
          match nth_error cs i with
          | Some (Elem _ _ cs') => Some cs'
          | _ => None
          end
      | None => None
      end.
Proof.
  induction p as [|j p IH]; intros b i; simpl.
  - destruct (nth_error b i) as [[t a cs| |]|]; reflexivity.
  - destruct (nth_error b j) as [[t a cs| |]|]; try reflexivity.
    apply IH.
Qed.

(** every ancestor the walk looks at is an element of the tree, found at
    its index among its parent's child nodes *)
Lemma ancestorsOf_sound (b : list node) (p : path) :
  forall (cs : list node) (pre : path) (a : ancestor),
    childNodesAt b pre = Some cs ->
    In a (ancestorsOf cs pre p) ->
    exists attrs kids,
      anc_path a = removelast (anc_path a) ++ [anc_index a]
      /\ childNodesAt b (removelast (anc_path a)) = Some (anc_siblings a)
      /\ nth_error (anc_siblings a) (anc_index a)
         = Some (Elem (anc_tag a) attrs kids).
Proof.
  induction p as [|i p IH]; intros cs pre a Hcs Hin; simpl in Hin; [tauto|].
  destruct p as [|j p]; [contradiction|].
  destruct (nth_error cs i) as [[tag attrs kids| |]|] eqn:Hi;
    simpl in Hin; try tauto.
  destruct Hin as [<- | Hin].
  - exists attrs, kids. simpl. rewrite removelast_last. auto.
  - apply (IH kids (pre ++ [i]) a); [|assumption].
    now rewrite childNodesAt_snoc, Hcs, Hi.
Qed.

Lemma climb_In (up : list ancestor) (q : path) :
  climb up = Some q -> exists a, In a up /\ anc_path a = q.
Proof.
  induction up as [|a up IH]; cbn [climb]; [discriminate|].
  destruct (mem (anc_tag a) stopTags); [discriminate|].
  destruct (mem (anc_tag a) [str "LI"; str "TR"]).
  - intros [= <-]. exists a. split; [now left | reflexivity].
  - destruct (_ && _).
    + intros [= <-]. exists a. split; [now left | reflexivity].
    + intros H. destruct (IH H) as [a' [H1 H2]]. exists a'.
      split; [now right | assumption].
Qed.

(** an anchor is an element: the child of index [last q] of the element at
    [removelast q] *)
Lemma anchor_is_element (b : list node) (p q : path) :
  getRepeatableParent b p = Some q ->
  exists cs tag attrs kids,
    childNodesAt b (removelast q) = Some cs
    /\ nth_error cs (last q 0%nat) = Some (Elem tag attrs kids).
Proof.
  unfold getRepeatableParent. intros H.
  apply climb_In in H as [a [Hin <-]]. apply in_rev in Hin.
  destruct (@ancestorsOf_sound b p b [] a eq_refl Hin)
    as [attrs [kids [H1 [H2 H3]]]].
  exists (anc_siblings a), (anc_tag a), attrs, kids. split; [assumption|].
  rewrite H1, last_last. assumption.
Qed.

(* ------------------------------------------------------------------ *)
(** *** Moving a child within its parent *)

Lemma indexOf_children (cs : list node) :
  forall (s i : nat) (t : jstring) (a : list (jstring * jstring))
         (k : list node),
    nth_error cs i = Some (Elem t a k) ->
    indexOf (s + i)
      (map fst (filter (fun jc => isElement (snd jc))
                       (combine (seq s (List.length cs)) cs)))
    = Some (List.length (filter isElement (firstn i cs))).
Proof.
  induction cs as [|c cs IH]; intros s i t a k Hi.
  - destruct i; discriminate.
  - destruct i as [|i]; simpl in Hi.
    + injection Hi as ->. simpl. now rewrite Nat.add_0_r, Nat.eqb_refl.
    + simpl. specialize (IH (S s) i t a k Hi).
      replace (S s + i)%nat with (s + S i)%nat in IH by lia.
      destruct (isElement c); simpl.
      * assert (E : Nat.eqb s (s + S i) = false)
          by (apply Nat.eqb_neq; lia).
        now rewrite E, IH.
      * assumption.
Qed.

Lemma indexInChildren_element (cs : list node) (i : nat) (t : jstring)
    (a : list (jstring * jstring)) (k : list node) :
  nth_error cs i = Some (Elem t a k) ->
  indexInChildren cs i = Some (List.length (filter isElement (firstn i cs))).
Proof. intros H. exact (indexOf_children cs 0 i H). Qed.

Lemma elements_before_lt (cs : list node) (i j : nat) (t : jstring)
    (a : list (jstring * jstring)) (k : list node) :
  nth_error cs i = Some (Elem t a k) -> (i < j)%nat ->
  (List.length (filter isElement (firstn i cs))
   < List.length (filter isElement (firstn j cs)))%nat.
Proof.
  intros Hi Hij. apply nth_error_split in Hi as [l1 [l2 [-> Hl]]].
  subst i. rewrite firstn_app, Nat.sub_diag, firstn_all. simpl.
  rewrite app_nil_r.
  rewrite firstn_app, firstn_all2 by lia.
  replace (j - List.length l1)%nat with (S (j - List.length l1 - 1)) by lia.
  simpl. rewrite filter_app, length_app. simpl. lia.
Qed.

Lemma firstn_prefix (A : Type) (l1 l2 : list A) (n : nat) :
  n = List.length l1 -> firstn n (l1 ++ l2) = l1.
Proof.
  intros ->. rewrite firstn_app, Nat.sub_diag, firstn_all. simpl.
  apply app_nil_r.
Qed.

Lemma skipn_prefix (A : Type) (l1 l2 : list A) (n : nat) :
  n = List.length l1 -> skipn n (l1 ++ l2) = l2.
Proof.
  intros ->. now rewrite skipn_app, Nat.sub_diag, skipn_all.
Qed.

Lemma without_middle (A : Type) (l1 l2 : list A) (x : A) (n : nat) :
  n = List.length l1 ->
  firstn n (l1 ++ x :: l2) ++ skipn (S n) (l1 ++ x :: l2) = l1 ++ l2.
Proof.
  intros Hn. rewrite (firstn_prefix l1 (x :: l2) Hn). f_equal.
  replace (l1 ++ x :: l2) with ((l1 ++ [x]) ++ l2)
    by (rewrite <- app_assoc; reflexivity).
  apply skipn_prefix. rewrite length_app. simpl. lia.
Qed.

Lemma nth_error_middle (A : Type) (l1 l2 : list A) (x : A) (n : nat) :
  n = List.length l1 -> nth_error (l1 ++ x :: l2) n = Some x.
Proof.
  intros ->. rewrite nth_error_app2, Nat.sub_diag by lia. reflexivity.
Qed.

(** the anchor [A] stands before [B]: it is put back right after [B] *)
Lemma move_forward (l1 l2 l3 : list node) (A B : node) (ia ib : nat) :
  ia = List.length l1 -> ib = (List.length l1 + S (List.length l2))%nat ->
  let cs := l1 ++ A :: l2 ++ B :: l3 in
  insertBefore cs ia (nextSibling cs ib) = l1 ++ l2 ++ B :: A :: l3.
Proof.
  intros Ha Hb cs.
  assert (Hlen : List.length cs = (S ib + List.length l3)%nat).
  { unfold cs. rewrite length_app. simpl. rewrite length_app. simpl. lia. }
  unfold insertBefore, nextSibling. rewrite Hlen. subst cs. cbv zeta.
  rewrite (nth_error_middle l1 _ A Ha), (without_middle l1 _ A Ha).
  destruct l3 as [|x l3].
  - assert (E : Nat.ltb (S ib) (S ib + List.length (@nil node)) = false)
      by (apply Nat.ltb_ge; simpl; lia).
    rewrite E. now rewrite <- !app_assoc.
  - assert (E1 : Nat.ltb (S ib) (S ib + List.length (x :: l3)) = true)
      by (apply Nat.ltb_lt; simpl; lia).
    assert (E2 : Nat.eqb (S ib) ia = false) by (apply Nat.eqb_neq; lia).
    assert (E3 : Nat.ltb ia (S ib) = true) by (apply Nat.ltb_lt; lia).
    rewrite E1, E2, E3.
    replace (S ib - 1)%nat with ib by lia.
    replace (l1 ++ l2 ++ B :: x :: l3) with ((l1 ++ l2 ++ [B]) ++ x :: l3)
      by (rewrite <- !app_assoc; reflexivity).
    assert (Hib : ib = List.length (l1 ++ l2 ++ [B]))
      by (rewrite !length_app; simpl; lia).
    rewrite (firstn_prefix _ _ Hib), (skipn_prefix _ _ Hib).
    now rewrite <- !app_assoc.
Qed.

(** the anchor [A] stands after [B]: it is put back right before [B] *)
Lemma move_backward (l1 l2 l3 : list node) (A B : node) (ia ib : nat) :
  ib = List.length l1 -> ia = (List.length l1 + S (List.length l2))%nat ->
  let cs := l1 ++ B :: l2 ++ A :: l3 in
  insertBefore cs ia (Some ib) = l1 ++ A :: B :: l2 ++ l3.
Proof.
  intros Hb Ha cs.
  assert (Hcs : cs = (l1 ++ B :: l2) ++ A :: l3)
    by (unfold cs; rewrite <- app_assoc; reflexivity).
  assert (Hia : ia = List.length (l1 ++ B :: l2))
    by (rewrite length_app; simpl; lia).
  unfold insertBefore. rewrite Hcs. cbv zeta.
  rewrite (nth_error_middle _ _ A Hia), (without_middle _ _ A Hia).
  assert (E1 : Nat.eqb ib ia = false) by (apply Nat.eqb_neq; lia).
  assert (E2 : Nat.ltb ia ib = false) by (apply Nat.ltb_ge; lia).
  rewrite E1, E2, <- app_assoc.
  now rewrite (firstn_prefix _ _ Hb), (skipn_prefix _ _ Hb).
Qed.

(** both keys have the same anchor: it stays where it is *)
Lemma move_nowhere (l1 l3 : list node) (A : node) (ia : nat) :
  ia = List.length l1 ->
  let cs := l1 ++ A :: l3 in
  insertBefore cs ia (Some ia) = cs.
Proof.
  intros Ha cs.
  assert (Hlen : List.length cs = (S ia + List.length l3)%nat).
  { unfold cs. rewrite length_app. simpl. lia. }
  unfold insertBefore, nextSibling. rewrite Hlen. subst cs. cbv zeta.
  rewrite (nth_error_middle l1 _ A Ha), (without_middle l1 _ A Ha).
  rewrite Nat.eqb_refl. destruct l3 as [|x l3].
  - assert (E : Nat.ltb (S ia) (S ia + List.length (@nil node)) = false)
      by (apply Nat.ltb_ge; simpl; lia).
    rewrite E. now rewrite app_nil_r.
  - assert (E1 : Nat.ltb (S ia) (S ia + List.length (x :: l3)) = true)
      by (apply Nat.ltb_lt; simpl; lia).
    assert (E3 : Nat.ltb ia (S ia) = true) by (apply Nat.ltb_lt; lia).
    rewrite E1, E3.
    replace (S ia - 1)%nat with ia by lia.
    now rewrite (firstn_prefix _ _ Ha), (skipn_prefix _ _ Ha).
Qed.

Lemma anchor_path (b : list node) (p q : path) :
  getRepeatableParent b p = Some q -> q = removelast q ++ [last q 0%nat].
Proof.
  unfold getRepeatableParent. intros H.
  apply climb_In in H as [a [Hin <-]]. apply in_rev in Hin.
  destruct (@ancestorsOf_sound b p b [] a eq_refl Hin) as [_ [_ [H1 _]]].
  rewrite H1 at 1. now rewrite H1, last_last, removelast_last.
Qed.

Lemma nth_error_replaceNth (l : list node) (i : nat) (n : node) :
  (i < List.length l)%nat -> nth_error (replaceNth l i n) i = Some n.
Proof.
  revert i; induction l as [|x l IH]; intros [|i] H; simpl in *;
    try lia; [reflexivity|].
  apply IH. lia.
Qed.

(** the mutated document holds the new child list where the old one was *)
Lemma childNodesAt_set (p : path) :
  forall (b cs cs' : list node),
    childNodesAt b p = Some cs ->
    childNodesAt (setChildNodesAt b p cs') p = Some cs'.
Proof.
  induction p as [|i p IH]; intros b cs cs' H; simpl in *; [reflexivity|].
  destruct (nth_error b i) as [[t a kids| |]|] eqn:Hi; try discriminate.
  rewrite nth_error_replaceNth.
  - now apply (IH kids cs).
  - apply nth_error_Some. congruence.
Qed.

(** C4, as the code has it: when the lookup of Swap finds a node for each
    key (the key written [{{key}}] without blanks in a text node, or so or
    URL-encoded in an attribute value) and the anchors of the two nodes
    have different parent elements, Swap(keyA, keyB) leaves the Template
    as it is (no [setHtml]) and shows the rejection notice. *)
Theorem swap_rejected_across_parents (b : list node) (keyA keyB : jstring)
    (nodeA nodeB parentA parentB : path) :
  findElementWithKey b keyA = Some nodeA ->
  findElementWithKey b keyB = Some nodeB ->
  getRepeatableParent b nodeA = Some parentA ->
  getRepeatableParent b nodeB = Some parentB ->
  removelast parentA <> removelast parentB ->
  handleSwapVariables b keyA keyB
  = SwapToast (str "Items must be in the same list to reorder.").
Proof.
  intros HA HB HpA HpB Hdiff. unfold handleSwapVariables.
  destruct (jeqb keyA keyB) eqn:E.
  - apply jeqb_eq in E. subst keyB. exfalso. apply Hdiff. congruence.
  - rewrite HA, HB, HpA, HpB. unfold path_eqb.
    destruct (list_eq_dec Nat.eq_dec (removelast parentA)
                          (removelast parentB)); [contradiction|].
    reflexivity.
Qed.

Lemma swap_rejected_across_parents_witness :
  handleSwapVariables twoLists (str "a") (str "d")
  = SwapToast (str "Items must be in the same list to reorder.").
Proof.
  apply (@swap_rejected_across_parents twoLists (str "a") (str "d")
           [0; 0; 0]%nat [1; 0; 0]%nat [0; 0]%nat [1; 0]%nat);
    try reflexivity.
  simpl. discriminate.
Defined.

(** C3, as the code has it: when the lookup of Swap finds a node for each
    key (the key written [{{key}}] without blanks in a text node, or so or
    URL-encoded in an attribute value) and the anchors of the two nodes
    have the same parent element, Swap(keyA, keyB) exchanges the document
    order of the two anchors: the
    parent's child nodes are permuted, the anchor of keyA that stood before
    the anchor of keyB stands right after it (and right before it when it
    stood after), every other sibling keeps its place relative to the
    others, and the nodes themselves, with the keys in them, are the same. *)
Theorem swap_exchanges_order (b : list node) (keyA keyB : jstring)
    (nodeA nodeB parentA parentB : path) :
  findElementWithKey b keyA = Some nodeA ->
  findElementWithKey b keyB = Some nodeB ->
  getRepeatableParent b nodeA = Some parentA ->
  getRepeatableParent b nodeB = Some parentB ->
  removelast parentA = removelast parentB ->
  let parent := removelast parentA in
  let ia := last parentA 0%nat in
  let ib := last parentB 0%nat in
  exists cs cs',
    childNodesAt b parent = Some cs
    /\ (handleSwapVariables b keyA keyB
        = SwapSetHtml (setChildNodesAt b parent cs')
        \/ (keyA = keyB /\ cs' = cs
            /\ handleSwapVariables b keyA keyB = SwapIgnored))
    /\ childNodesAt (setChildNodesAt b parent cs') parent = Some cs'
    /\ Permutation cs cs'
    /\ ((parentA = parentB /\ cs' = cs)
        \/ (exists l1 A l2 B l3,
               cs = l1 ++ A :: l2 ++ B :: l3
               /\ ia = List.length l1
               /\ ib = (List.length l1 + S (List.length l2))%nat
               /\ cs' = l1 ++ l2 ++ B :: A :: l3)
        \/ (exists l1 B l2 A l3,
               cs = l1 ++ B :: l2 ++ A :: l3
               /\ ib = List.length l1
               /\ ia = (List.length l1 + S (List.length l2))%nat
               /\ cs' = l1 ++ A :: B :: l2 ++ l3)).
Proof.
  intros HA HB HpA HpB Hsame parent ia ib.
  destruct (anchor_is_element _ _ HpA) as [cs [tA [aA [kA [Hcs HnA]]]]].
  destruct (anchor_is_element _ _ HpB) as [cs2 [tB [aB [kB [Hcs2 HnB]]]]].
  rewrite <- Hsame in Hcs2. fold parent in Hcs, Hcs2.
  assert (cs2 = cs) by congruence. subst cs2. clear Hcs2.
  fold ia in HnA. fold ib in HnB.
  pose proof (indexInChildren_element _ _ HnA) as HiA.
  pose proof (indexInChildren_element _ _ HnB) as HiB.
  assert (Hout : forall cs',
            cs' = (if Nat.ltb (List.length (filter isElement (firstn ia cs)))
                              (List.length (filter isElement (firstn ib cs)))
                   then insertBefore cs ia (nextSibling cs ib)
                   else insertBefore cs ia (Some ib)) ->
            (keyA = keyB -> cs' = cs) ->
            handleSwapVariables b keyA keyB
            = SwapSetHtml (setChildNodesAt b parent cs')
            \/ (keyA = keyB /\ cs' = cs
                /\ handleSwapVariables b keyA keyB = SwapIgnored)).
  { intros cs' Hcs' Hkey. unfold handleSwapVariables.
    destruct (jeqb keyA keyB) eqn:E.
    - apply jeqb_eq in E. right. auto.
    - left. rewrite HA, HB, HpA, HpB. unfold path_eqb.
      destruct (list_eq_dec Nat.eq_dec (removelast parentA)
                            (removelast parentB)); [|contradiction].
      fold parent ia ib. rewrite Hcs, HiA, HiB. now rewrite Hcs'. }
  destruct (lt_eq_lt_dec ia ib) as [[Hlt | Heq] | Hgt].
  - (* the anchor of keyA stands first *)
    destruct (nth_error_split _ _ HnA) as [l1 [rest [Hsplit Hl1]]].
    assert (HnB' : nth_error rest (ib - ia - 1) = Some (Elem tB aB kB)).
    { rewrite Hsplit in HnB. rewrite nth_error_app2 in HnB by lia.
      rewrite Hl1 in HnB.
      replace (ib - ia)%nat with (S (ib - ia - 1)) in HnB by lia.
      exact HnB. }
    destruct (nth_error_split _ _ HnB') as [l2 [l3 [Hrest Hl2]]].
    subst rest.
    assert (Hia : ia = List.length l1) by congruence.
    assert (Hib : ib = (List.length l1 + S (List.length l2))%nat) by lia.
    set (A := Elem tA aA kA) in *. set (B := Elem tB aB kB) in *.
    exists cs, (l1 ++ l2 ++ B :: A :: l3).
    assert (Hkeys : keyA = keyB -> False).
    { intros ->. assert (parentA = parentB) by congruence.
      subst parentB. unfold ia, ib in Hlt. lia. }
    split; [assumption|]. split; [|split; [|split]].
    + apply Hout; [|intros H; now apply Hkeys in H].
      pose proof (elements_before_lt _ HnA Hlt) as Hc.
      apply Nat.ltb_lt in Hc. rewrite Hc, Hsplit.
      symmetry. now apply move_forward.
    + eapply childNodesAt_set; eassumption.
    + rewrite Hsplit. apply Permutation_app_head.
      replace (l2 ++ B :: A :: l3) with ((l2 ++ [B]) ++ A :: l3)
        by (rewrite <- app_assoc; reflexivity).
      apply Permutation_cons_app. rewrite <- app_assoc. reflexivity.
    + right. left. exists l1, A, l2, B, l3. auto.
  - (* one anchor for both keys *)
    exists cs, cs.
    assert (HAB : parentA = parentB).
    { rewrite (anchor_path _ _ HpA), (anchor_path _ _ HpB).
      fold ia ib. now rewrite Hsame, Heq. }
    split; [assumption|]. split; [|split; [|split]].
    + apply Hout; [|reflexivity].
      rewrite <- Heq, Nat.ltb_irrefl.
      destruct (nth_error_split _ _ HnA) as [l1 [l3 [Hsplit Hl1]]].
      rewrite Hsplit. symmetry. apply move_nowhere. congruence.
    + eapply childNodesAt_set; eassumption.
    + reflexivity.
    + left. auto.
  - (* the anchor of keyB stands first *)
    destruct (nth_error_split _ _ HnB) as [l1 [rest [Hsplit Hl1]]].
    assert (HnA' : nth_error rest (ia - ib - 1) = Some (Elem tA aA kA)).
    { rewrite Hsplit in HnA. rewrite nth_error_app2 in HnA by lia.
      rewrite Hl1 in HnA.
      replace (ia - ib)%nat with (S (ia - ib - 1)) in HnA by lia.
      exact HnA. }
    destruct (nth_error_split _ _ HnA') as [l2 [l3 [Hrest Hl2]]].
    subst rest.
    assert (Hib : ib = List.length l1) by congruence.
    assert (Hia : ia = (List.length l1 + S (List.length l2))%nat) by lia.
    set (A := Elem tA aA kA) in *. set (B := Elem tB aB kB) in *.
    exists cs, (l1 ++ A :: B :: l2 ++ l3).
    assert (Hkeys : keyA = keyB -> False).
    { intros ->. assert (parentA = parentB) by congruence.
      subst parentB. unfold ia, ib in Hgt. lia. }
    split; [assumption|]. split; [|split; [|split]].
    + apply Hout; [|intros H; now apply Hkeys in H].
      pose proof (elements_before_lt _ HnB Hgt) as Hc.
      assert (Hc' : Nat.ltb
                      (List.length (filter isElement (firstn ia cs)))
                      (List.length (filter isElement (firstn ib cs)))
                    = false) by (apply Nat.ltb_ge; lia).
      rewrite Hc', Hsplit. symmetry. now apply move_backward.
    + eapply childNodesAt_set; eassumption.
    + rewrite Hsplit. apply Permutation_app_head.
      apply Permutation_sym.
      apply (Permutation_cons_app (B :: l2) l3 A). reflexivity.
    + right. right. exists l1, B, l2, A, l3. auto.
Qed.

Lemma swap_exchanges_order_witness :
  exists cs cs',
    childNodesAt twoLists [0%nat] = Some cs
    /\ (handleSwapVariables twoLists (str "a") (str "c")
        = SwapSetHtml (setChildNodesAt twoLists [0%nat] cs')
        \/ (str "a" = str "c" /\ cs' = cs
            /\ handleSwapVariables twoLists (str "a") (str "c")
               = SwapIgnored))
    /\ childNodesAt (setChildNodesAt twoLists [0%nat] cs') [0%nat] = Some cs'
    /\ Permutation cs cs'
    /\ (([0; 0]%nat = [0; 3]%nat /\ cs' = cs)
        \/ (exists l1 A l2 B l3,
               cs = l1 ++ A :: l2 ++ B :: l3
               /\ 0%nat = List.length l1
               /\ 3%nat = (List.length l1 + S (List.length l2))%nat
               /\ cs' = l1 ++ l2 ++ B :: A :: l3)
        \/ (exists l1 B l2 A l3,
               cs = l1 ++ B :: l2 ++ A :: l3
               /\ 3%nat = List.length l1
               /\ 0%nat = (List.length l1 + S (List.length l2))%nat
               /\ cs' = l1 ++ A :: B :: l2 ++ l3)).
Proof.
  apply (@swap_exchanges_order twoLists (str "a") (str "c")
           [0; 0; 0]%nat [0; 3; 0]%nat [0; 0]%nat [0; 3]%nat);
    reflexivity.
Defined.

(** C3 as stated does not hold for every Template in which the anchors of
    the two keys share a parent: Group Inference reads a placeholder
    written with blanks, [{{ a }}], and gives it its list item as anchor,
    so the form offers the two keys for reordering; Swap looks for the
    exact text [{{a}}], finds no node and returns at its guard.  Nothing
    is exchanged. *)
Lemma swap_ignores_spaced_keys :
  map (fun o => (occ_key o, occ_parent o)) (finalOrderedKeys spacedList)
  = [(str "a", Some [0; 0]%nat); (str "b", Some [0; 1]%nat)]
  /\ fieldGroups spacedList = [[str "a"]; [str "b"]]
  /\ removelast [0; 0]%nat = removelast [0; 1]%nat
  /\ findElementWithKey spacedList (str "a") = None
  /\ handleSwapVariables spacedList (str "a") (str "b") = SwapIgnored.
Proof. repeat split. Qed.

(** C4 as stated does not hold for every Template in which the two
    anchors exist with different parents: for keys written with blanks
    Group Inference finds the anchors, in two lists, while the lookup of
    Swap finds no node, and Swap returns at its guard without a notice. *)
Lemma swap_across_parents_without_notice :
  map (fun o => (occ_key o, occ_parent o)) (finalOrderedKeys spacedLists)
  = [(str "a", Some [0; 0]%nat); (str "d", Some [1; 0]%nat)]
  /\ removelast [0; 0]%nat <> removelast [1; 0]%nat
  /\ findElementWithKey spacedLists (str "a") = None
  /\ handleSwapVariables spacedLists (str "a") (str "d") = SwapIgnored.
Proof.
  split; [reflexivity|]. split; [discriminate|]. split; reflexivity.
Qed.

(* ================================================================== *)
(** ** Theme rewriter *)

(** where the utility-class pattern matches: at a word boundary, on the
    token itself, in front of a blank, a quote, a closing bracket or the
    end of the text *)
Lemma classAttempt_match (oldVal : jstring) (prev : option cu) (s : jstring)
    (caps : list jstring) (len : nat) :
  classAttempt oldVal prev s = Some (caps, len) ->
  match prev with Some c => is_word_char c | None => false end
  <> match s with c :: _ => is_word_char c | [] => false end
  /\ len = List.length oldVal
  /\ exists rest,
      s = oldVal ++ rest
      /\ (rest = []
          \/ exists c r, rest = c :: r
                         /\ (is_space c = true \/ c = 34%N \/ c = 39%N
                             \/ c = 62%N \/ c = 93%N)).
Proof.
  unfold classAttempt.
  set (wb := match prev with Some c => is_word_char c | None => false end).
  set (wa := match s with c :: _ => is_word_char c | [] => false end).
  destruct (eqb wb wa) eqn:Eb; cbn [negb]; [discriminate|].
  apply eqb_false_iff in Eb.
  destruct (strip_prefix oldVal s) as [rest|] eqn:Es; [|discriminate].
  apply strip_prefix_app in Es. intros H. split; [assumption|].
  destruct rest as [|c r].
  - injection H as _ <-. split; [reflexivity|]. exists []. auto.
  - destruct (is_space c || N.eqb c 34 || N.eqb c 39 || N.eqb c 62
              || N.eqb c 93) eqn:Ec; [|discriminate].
    injection H as _ <-. split; [reflexivity|].
    exists (c :: r). split; [assumption|]. right. exists c, r.
    split; [reflexivity|].
    repeat rewrite orb_true_iff in Ec. repeat rewrite N.eqb_eq in Ec. tauto.
Qed.

(** C8: a theme rewrite of a utility-class token replaces it at word
    boundaries only.  For the Template
    [<div class=DQ bg-blue-600 DQ>bg-blue-600-ish</div>] (DQ the double
    quote), rewriting [bg-blue-600] to the explicit colour [#ff0000] turns
    the class into [bg-[#ff0000]] and leaves the text [bg-blue-600-ish] as
    it is.  In any Template the token followed by [-ish] is no match of the
    pattern, and the token between double quotes is one; and wherever the
    pattern matches, the place is a word boundary. *)
Theorem theme_rewrite_precision :
  handleGlobalThemeUpdate (str "bg-blue-600") (str "#ff0000") themeTemplate
  = Some (str "<div class=" ++ dq ++ str "bg-[#ff0000]" ++ dq
          ++ str ">bg-blue-600-ish</div>")
  /\ (forall prev rest,
         classAttempt (str "bg-blue-600") prev (str "bg-blue-600-ish" ++ rest)
         = None)
  /\ (forall rest,
         classAttempt (str "bg-blue-600") (Some 34%N)
                      (str "bg-blue-600" ++ dq ++ rest)
         = Some ([], 11%nat))
  /\ (forall oldVal prev s caps len,
         classAttempt oldVal prev s = Some (caps, len) ->
         match prev with Some c => is_word_char c | None => false end
         <> match s with c :: _ => is_word_char c | [] => false end).
Proof.
  split; [reflexivity|]. split; [|split].
  - intros [c|] rest; unfold classAttempt; simpl;
      [destruct (is_word_char c)|]; reflexivity.
  - intros rest. reflexivity.
  - intros oldVal prev s caps len H.
    now apply classAttempt_match in H.
Qed.

Lemma theme_rewrite_precision_witness :
  match Some 34%N with Some c => is_word_char c | None => false end
  <> match str "bg-blue-600" ++ dq with
     | c :: _ => is_word_char c
     | [] => false
     end.
Proof.
  apply (proj2 (proj2 (proj2 theme_rewrite_precision))
           (str "bg-blue-600") (Some 34%N) (str "bg-blue-600" ++ dq)
           [] 11%nat).
  reflexivity.
Defined.

(* ================================================================== *)
(** ** Group inference *)

Lemma node_induction (P : node -> Prop) :
  (forall t a cs, Forall P cs -> P (Elem t a cs)) ->
  (forall d, P (Text d)) ->
  (forall d, P (Comment d)) ->
  forall n, P n.
Proof.
  intros HE HT HC. fix IH 1. intros [t a cs|d|d].
  - apply HE. revert cs. fix IHcs 1. intros [|c cs].
    + constructor.
    + constructor; [apply IH | apply IHcs].
  - apply HT.
  - apply HC.
Qed.

Lemma subtree_Elem (p : path) (t : jstring) (a : list (jstring * jstring))
    (cs : list node) :
  subtree p (Elem t a cs) = (p, Elem t a cs) :: forest p 0 cs.
Proof.
  simpl. f_equal. generalize 0%nat.
  induction cs as [|c cs IH]; intros i; simpl; [reflexivity|].
  now rewrite IH.
Qed.

(** the paths of a subtree extend the path of its root *)
Lemma subtree_paths (n : node) :
  forall (p q : path) (m : node),
    In (q, m) (subtree p n) -> exists r, q = p ++ r.
Proof.
  induction n as [t a cs IH|d|d] using node_induction; intros p q m Hin.
  - rewrite subtree_Elem in Hin. destruct Hin as [[= <- <-] | Hin].
    + exists []. now rewrite app_nil_r.
    + revert Hin. generalize 0%nat.
      induction IH as [|c cs Hc _ IHcs]; intros i Hin; simpl in Hin;
        [contradiction|].
      apply in_app_iff in Hin as [Hin | Hin].
      * apply Hc in Hin as [r ->]. exists (i :: r).
        now rewrite <- app_assoc.
      * now apply (IHcs (S i)).
  - destruct Hin as [[= <- <-] | []]. exists []. now rewrite app_nil_r.
  - destruct Hin as [[= <- <-] | []]. exists []. now rewrite app_nil_r.
Qed.

(** the nodes of a subtree do not depend on where the subtree hangs *)
Lemma subtree_nodes (n : node) :
  forall p, map snd (subtree p n) = map snd (subtree [] n).
Proof.
  induction n as [t a cs IH|d|d] using node_induction; intros p;
    [|reflexivity|reflexivity].
  rewrite !subtree_Elem. simpl. f_equal. generalize 0%nat.
  induction IH as [|c cs Hc _ IHcs]; intros i; simpl; [reflexivity|].
  rewrite !map_app, (Hc (p ++ [i])), (Hc [i]). f_equal. apply IHcs.
Qed.

Lemma occurrencesOf_keys (b : list node) (pn : path * node) :
  map occ_key (occurrencesOf b pn) = keysAt (snd pn).
Proof.
  unfold occurrencesOf, keysAt. destruct (snd pn) as [t a cs|d|d].
  - induction a as [|x a IH]; simpl; [reflexivity|].
    rewrite map_app, IH, map_map. simpl. now rewrite map_id.
  - rewrite map_map. simpl. apply map_id.
  - reflexivity.
Qed.

Lemma occurrencesIn_keys (b : list node) (p : path) (n : node) :
  map occ_key (occurrencesIn b p n) = placeholdersOf n.
Proof.
  unfold occurrencesIn, placeholdersOf.
  assert (H : forall l : list (path * node),
             map occ_key
               (flat_map (occurrencesOf b)
                  (filter (fun pn => match snd pn with
                                     | Comment _ => false
                                     | _ => true
                                     end) l))
             = flat_map keysAt (map snd l)).
  { induction l as [|[q m] l IH]; simpl; [reflexivity|].
    destruct m as [t a cs|d|d]; simpl;
      rewrite ?map_app, ?IH, ?occurrencesOf_keys; reflexivity. }
  rewrite H, subtree_nodes, flat_map_concat_map, map_map.
  now rewrite <- flat_map_concat_map.
Qed.

Lemma occurrencesIn_nodes (b : list node) (p : path) (n : node)
    (o : occurrence) :
  In o (occurrencesIn b p n) ->
  occ_parent o = getRepeatableParent b (occ_node o)
  /\ exists r, occ_node o = p ++ r.
Proof.
  unfold occurrencesIn. intros H.
  apply in_flat_map in H as [[q m] [Hq Ho]].
  apply filter_In in Hq as [Hq _]. apply subtree_paths in Hq.
  unfold occurrencesOf in Ho. simpl in Ho.
  destruct m as [t a cs|d|d].
  - apply in_flat_map in Ho as [x [_ Ho]].
    apply in_map_iff in Ho as [k [<- _]]. simpl. auto.
  - apply in_map_iff in Ho as [k [<- _]]. simpl. auto.
  - contradiction.
Qed.

(** a subtree with one placeholder yields one occurrence *)
Lemma single_occurrence (b : list node) (p : path) (n : node) (k : jstring) :
  placeholdersOf n = [k] ->
  exists r, occurrencesIn b p n
            = [mkOccurrence k (p ++ r) (getRepeatableParent b (p ++ r))].
Proof.
  intros H. pose proof (occurrencesIn_keys b p n) as Hk. rewrite H in Hk.
  destruct (occurrencesIn b p n) as [|o [|o' l]] eqn:E; try discriminate.
  assert (Hin : In o (occurrencesIn b p n)) by (rewrite E; now left).
  apply occurrencesIn_nodes in Hin as [Hp [r Hr]].
  exists r. destruct o as [ok on op]. simpl in *.
  injection Hk as ->. now subst.
Qed.

Lemma ancestorsOf_paths (p : path) :
  forall (cs : list node) (pre : path) (i : nat) (a : ancestor),
    In a (ancestorsOf cs pre (i :: p)) -> exists r, anc_path a = pre ++ i :: r.
Proof.
  induction p as [|j p IH]; intros cs pre i a Hin; simpl in Hin;
    [contradiction|].
  destruct (nth_error cs i) as [[t at' kids| |]|]; simpl in Hin; try tauto.
  destruct Hin as [<- | Hin].
  - exists []. reflexivity.
  - apply IH in Hin as [r ->]. exists (j :: r). now rewrite <- app_assoc.
Qed.

(** an anchor lies on the way from [body] to the node: it starts with the
    same child of [body] *)
Lemma anchor_head (b : list node) (i : nat) (r q : path) :
  getRepeatableParent b (i :: r) = Some q -> exists r', q = i :: r'.
Proof.
  unfold getRepeatableParent. intros H.
  apply climb_In in H as [a [Hin <-]]. apply in_rev in Hin.
  now apply ancestorsOf_paths in Hin.
Qed.

(** the walk returns a list item or table row as soon as it reaches it *)
Lemma climb_list_item (inner outer : list ancestor) (a : ancestor) :
  forallb passedOver inner = true ->
  mem (anc_tag a) [str "LI"; str "TR"] = true ->
  climb (inner ++ a :: outer) = Some (anc_path a).
Proof.
  intros Hinner Ha. induction inner as [|x inner IH]; cbn [climb app].
  - assert (Hstop : mem (anc_tag a) stopTags = false).
    { unfold mem in *. simpl in *.
      apply orb_true_iff in Ha as [Ha | Ha].
      - apply jeqb_eq in Ha. now rewrite Ha.
      - rewrite orb_false_r in Ha. apply jeqb_eq in Ha. now rewrite Ha. }
    now rewrite Hstop, Ha.
  - cbn [forallb] in Hinner. apply andb_true_iff in Hinner as [Hx Hinner].
    unfold passedOver in Hx.
    apply andb_true_iff in Hx as [Hx H3].
    apply andb_true_iff in Hx as [H1 H2].
    apply negb_true_iff in H1, H2, H3. rewrite H1, H2, H3. now apply IH.
Qed.

Lemma path_eqb_refl (p : path) : path_eqb p p = true.
Proof.
  unfold path_eqb. now destruct (list_eq_dec Nat.eq_dec p p).
Qed.

Lemma path_eqb_neq (p q : path) : p <> q -> path_eqb p q = false.
Proof.
  intros H. unfold path_eqb. now destruct (list_eq_dec Nat.eq_dec p q).
Qed.

Lemma anchoredUnder_apart (i j : nat) (p q : option path) (x y : path) :
  i <> j -> anchoredUnder i p -> anchoredUnder j q ->
  p = Some x -> q = Some y -> path_eqb x y = false.
Proof.
  intros Hij Hp Hq -> ->. destruct Hp as [r ->]. destruct Hq as [r' ->].
  apply path_eqb_neq. congruence.
Qed.

Lemma sameParent_apart (i j : nat) (o : occurrence) (par : path) :
  i <> j -> anchoredUnder i (occ_parent o) -> (exists r, par = j :: r) ->
  sameParent par o = false.
Proof.
  intros Hij Ho [r ->]. unfold sameParent.
  destruct (occ_parent o) as [q|]; [|reflexivity].
  destruct Ho as [r' ->]. apply path_eqb_neq. congruence.
Qed.

Lemma sameParent_own (o : occurrence) (par : path) :
  occ_parent o = Some par -> sameParent par o = true.
Proof. unfold sameParent. intros ->. apply path_eqb_refl. Qed.

(** the round of an item with a new key whose anchor, if it has one, is
    new and holds no other occurrence: a group of its own *)
Lemma groupItem_single (all : list occurrence) (g : grouping)
    (item : occurrence) :
  mem (occ_key item) (processedKeys g) = false ->
  (forall par, occ_parent item = Some par ->
               existsb (path_eqb par) (processedParents g) = false
               /\ filter (sameParent par) all = [item]) ->
  groupItem all g item
  = mkGrouping (groups g ++ [[occ_key item]])
               (occ_key item :: processedKeys g)
               (match occ_parent item with
                | Some par => par :: processedParents g
                | None => processedParents g
                end).
Proof.
  intros Hkey Hpar. unfold groupItem. rewrite Hkey.
  destruct (occ_parent item) as [par|]; [|reflexivity].
  destruct (Hpar par eq_refl) as [H1 H2]. rewrite H1, H2.
  simpl. now rewrite Hkey.
Qed.

(** three occurrences with distinct keys and anchors under different
    children of [body] make three groups of one key each *)
Lemma three_groups (k1 k2 k3 : jstring) (n1 n2 n3 : path)
    (p1 p2 p3 : option path) :
  k1 <> k2 -> k1 <> k3 -> k2 <> k3 ->
  anchoredUnder 0 p1 -> anchoredUnder 1 p2 -> anchoredUnder 2 p3 ->
  let all := [mkOccurrence k1 n1 p1; mkOccurrence k2 n2 p2;
              mkOccurrence k3 n3 p3] in
  groups (fold_left (groupItem all) all (mkGrouping [] [] []))
  = [[k1]; [k2]; [k3]].
Proof.
  intros H12 H13 H23 A1 A2 A3 all.
  assert (E21 : jeqb k2 k1 = false) by (apply jeqb_neq; congruence).
  assert (E31 : jeqb k3 k1 = false) by (apply jeqb_neq; congruence).
  assert (E32 : jeqb k3 k2 = false) by (apply jeqb_neq; congruence).
  set (o1 := mkOccurrence k1 n1 p1) in *.
  set (o2 := mkOccurrence k2 n2 p2) in *.
  set (o3 := mkOccurrence k3 n3 p3) in *.
  assert (F1 : forall par, p1 = Some par ->
                           filter (sameParent par) all = [o1]).
  { intros par Hp. unfold all. cbn [filter].
    assert (Hr : exists r, par = 0%nat :: r) by (now rewrite Hp in A1).
    rewrite (sameParent_own o1 Hp).
    rewrite (@sameParent_apart 1 0 o2 par), (@sameParent_apart 2 0 o3 par);
      auto. }
  assert (F2 : forall par, p2 = Some par ->
                           filter (sameParent par) all = [o2]).
  { intros par Hp. unfold all. cbn [filter].
    assert (Hr : exists r, par = 1%nat :: r) by (now rewrite Hp in A2).
    rewrite (sameParent_own o2 Hp).
    rewrite (@sameParent_apart 0 1 o1 par), (@sameParent_apart 2 1 o3 par);
      auto. }
  assert (F3 : forall par, p3 = Some par ->
                           filter (sameParent par) all = [o3]).
  { intros par Hp. unfold all. cbn [filter].
    assert (Hr : exists r, par = 2%nat :: r) by (now rewrite Hp in A3).
    rewrite (sameParent_own o3 Hp).
    rewrite (@sameParent_apart 0 2 o1 par), (@sameParent_apart 1 2 o2 par);
      auto. }
  unfold all at 2. cbn [fold_left].
  rewrite (@groupItem_single all _ o1);
    [|reflexivity | intros par Hp; split; [reflexivity | now apply F1]].
  rewrite (@groupItem_single all _ o2).
  - rewrite (@groupItem_single all _ o3).
    + reflexivity.
    + cbn. now rewrite E31, E32.
    + intros par Hp. split; [|now apply F3].
      assert (Hr : exists r, par = 2%nat :: r)
        by (change (anchoredUnder 2 (Some par)); now rewrite <- Hp).
      destruct Hr as [r ->]. cbn.
      destruct p2 as [q2|]; destruct p1 as [q1|]; cbn;
        repeat match goal with
               | H : anchoredUnder _ (Some _) |- _ => destruct H as [? ->]
               end;
        rewrite ?path_eqb_neq by congruence; reflexivity.
  - cbn. now rewrite E21.
  - intros par Hp. split; [|now apply F2].
    assert (Hr : exists r, par = 1%nat :: r)
      by (change (anchoredUnder 1 (Some par)); now rewrite <- Hp).
    destruct Hr as [r ->]. cbn.
    destruct p1 as [q1|]; cbn; [|reflexivity].
    destruct A1 as [r1 ->]. rewrite path_eqb_neq by congruence. reflexivity.
Qed.

Lemma finalOrderedKeys_three (n1 n2 n3 : node) :
  let b := [n1; n2; n3] in
  finalOrderedKeys b
  = occurrencesIn b [0%nat] n1 ++ occurrencesIn b [1%nat] n2
    ++ occurrencesIn b [2%nat] n3.
Proof.
  intros b. unfold finalOrderedKeys, walker, occurrencesIn.
  unfold b at 2. cbn [forest app].
  rewrite app_nil_r, !filter_app, !flat_map_app. reflexivity.
Qed.

(** C9, as the code has it: for a Template of three list items, each with
    exactly one placeholder and the three keys distinct, Group Inference
    returns three groups of one key each, in document order.  The anchor
    of each occurrence, when it has one, lies in its own list item, so no
    two share an anchor; it is the list item itself when the placeholder's
    node is a child of the list item; and in general the walk returns a
    list item or table row as soon as it reaches it, that is, when every
    ancestor nearer to the node was passed over (no stop tag, and no DIV,
    ARTICLE or SECTION with a sibling of its own tag). *)
Theorem three_list_items_three_groups
    (a1 a2 a3 : list (jstring * jstring)) (c1 c2 c3 : list node)
    (k1 k2 k3 : jstring) :
  let b := [Elem (str "LI") a1 c1; Elem (str "LI") a2 c2;
            Elem (str "LI") a3 c3] in
  placeholdersOf (Elem (str "LI") a1 c1) = [k1] ->
  placeholdersOf (Elem (str "LI") a2 c2) = [k2] ->
  placeholdersOf (Elem (str "LI") a3 c3) = [k3] ->
  k1 <> k2 -> k1 <> k3 -> k2 <> k3 ->
  fieldGroups b = [[k1]; [k2]; [k3]]
  /\ (exists n1 n2 n3,
         finalOrderedKeys b
         = [mkOccurrence k1 (0%nat :: n1) (getRepeatableParent b (0%nat :: n1));
            mkOccurrence k2 (1%nat :: n2) (getRepeatableParent b (1%nat :: n2));
            mkOccurrence k3 (2%nat :: n3) (getRepeatableParent b (2%nat :: n3))]
         /\ anchoredUnder 0 (getRepeatableParent b (0%nat :: n1))
         /\ anchoredUnder 1 (getRepeatableParent b (1%nat :: n2))
         /\ anchoredUnder 2 (getRepeatableParent b (2%nat :: n3)))
  /\ (forall i j, (i < 3)%nat -> getRepeatableParent b [i; j] = Some [i])
  /\ (forall p inner a outer,
         rev (ancestorsOf b [] p) = inner ++ a :: outer ->
         forallb passedOver inner = true ->
         mem (anc_tag a) [str "LI"; str "TR"] = true ->
         getRepeatableParent b p = Some (anc_path a)).
Proof.
  intros b H1 H2 H3 H12 H13 H23.
  destruct (single_occurrence b [0%nat] _ H1) as [n1 E1].
  destruct (single_occurrence b [1%nat] _ H2) as [n2 E2].
  destruct (single_occurrence b [2%nat] _ H3) as [n3 E3].
  assert (Hall : finalOrderedKeys b
            = [mkOccurrence k1 (0%nat :: n1)
                            (getRepeatableParent b (0%nat :: n1));
               mkOccurrence k2 (1%nat :: n2)
                            (getRepeatableParent b (1%nat :: n2));
               mkOccurrence k3 (2%nat :: n3)
                            (getRepeatableParent b (2%nat :: n3))]).
  { unfold b. rewrite finalOrderedKeys_three. fold b.
    rewrite E1, E2, E3. reflexivity. }
  assert (Hanchor : forall i r, anchoredUnder i (getRepeatableParent b (i :: r))).
  { intros i r. unfold anchoredUnder.
    destruct (getRepeatableParent b (i :: r)) as [q|] eqn:E; [|exact I].
    now apply anchor_head in E. }
  split; [|split; [|split]].
  - unfold fieldGroups. rewrite Hall. apply three_groups; auto.
  - exists n1, n2, n3. auto.
  - intros i j Hi.
    destruct i as [|[|[|i]]]; try lia; reflexivity.
  - intros p inner a outer Hrev Hin Ha. unfold getRepeatableParent.
    rewrite Hrev. now apply climb_list_item.
Qed.

Lemma three_list_items_three_groups_witness :
  fieldGroups cardList = [[str "a"]; [str "b"]; [str "c"]].
Proof.
  refine (proj1 (@three_list_items_three_groups
                   [] [] []
                   [Elem (str "DIV") [] [Text (token (str "a"))];
                    Elem (str "DIV") [] [Text (str "x")]]
                   [Text (token (str "b"))] [Text (token (str "c"))]
                   (str "a") (str "b") (str "c") _ _ _ _ _ _));
    try reflexivity; discriminate.
Defined.

(** C9 as stated does not hold: in this Template of three list items with
    one placeholder each, the first placeholder sits in a DIV that has a
    sibling DIV, and the walk returns that DIV, not the list item above
    it. *)
Lemma card_anchor_is_not_the_list_item :
  placeholdersOf (nth 0 cardList (Text [])) = [str "a"]
  /\ placeholdersOf (nth 1 cardList (Text [])) = [str "b"]
  /\ placeholdersOf (nth 2 cardList (Text [])) = [str "c"]
  /\ getRepeatableParent cardList [0; 0; 0]%nat = Some [0; 0]%nat
  /\ tagAt cardList [0; 0]%nat = Some (str "DIV")
  /\ tagAt cardList [0%nat] = Some (str "LI")
  /\ ~ anchoredAtListItems cardList.
Proof.
  repeat split; try reflexivity.
  intros H.
  destruct (H (mkOccurrence (str "a") [0; 0; 0]%nat (Some [0; 0]%nat)))
    as [q [Hq Ht]].
  - left. reflexivity.
  - simpl in Hq. injection Hq as <-. discriminate Ht.
Qed.
(* ================================================================== *)
(** ** Duplicate *)

Lemma anchor_children (b : list node) (p q : path) :
  getRepeatableParent b p = Some q ->
  exists kids, childNodesAt b q = Some kids.
Proof.
  intros H. pose proof (anchor_path _ _ H) as Hq.
  destruct (anchor_is_element _ _ H) as [cs [t [a [kids [H1 H2]]]]].
  exists kids. rewrite Hq, childNodesAt_snoc, H1, H2. reflexivity.
Qed.

Section DuplicateFacts.
Variable random : nat -> N.
Hypothesis random_range : forall i, (random i < 10000)%N.





(** an inherited name is never given a new key *)
Lemma names_skip (l : list jstring) (k : jstring) :
  In k objectPrototypeNames ->
  forall acc : obj jstring * nat,
    obj_get (fst acc) k = None ->
    obj_get (fst (fold_left (nameKey random) l acc)) k = None.
Proof.
  intros Hk. apply mem_In in Hk.
  induction l as [|x l IH]; intros [m d] H; [assumption|].
  cbn [fold_left]. apply IH. unfold nameKey.
  destruct (named m x) eqn:En; cbn [fst] in *; [assumption|].
  rewrite obj_get_set. destruct (jeqb x k) eqn:E; [|assumption].
  apply jeqb_eq in E. subst x. unfold named in En. rewrite H in En.
  congruence.
Qed.

End DuplicateFacts.


Lemma nth_error_firstn_lt (A : Type) (l : list A) :
  forall k n, (n < k)%nat -> nth_error (firstn k l) n = nth_error l n.
Proof.
  induction l as [|x l IH]; intros k n H.
  - now rewrite firstn_nil.
  - destruct k; [lia|]. destruct n; [reflexivity|].
    simpl. apply IH. lia.
Qed.





(* ================================================================== *)
(** ** The substitution pass *)

Lemma span_app (p : cu -> bool) (s : jstring) :
  s = fst (span p s) ++ snd (span p s).
Proof.
  induction s as [|c s IH]; simpl; [reflexivity|].
  destruct (p c); [|reflexivity].
  destruct (span p s) as [a b]. simpl in *. now f_equal.
Qed.

Lemma span_stop (p : cu -> bool) (c : cu) (s : jstring) :
  p c = false -> span p (c :: s) = ([], c :: s).
Proof. intros H. simpl. now rewrite H. Qed.

(** a greedy class stops in front of a text that starts outside it *)
Lemma span_before (p : cu -> bool) (q : jstring) (t0 : cu) (T : jstring) :
  p t0 = false ->
  span p (q ++ t0 :: T) = (fst (span p q), snd (span p q) ++ t0 :: T).
Proof.
  intros Ht. induction q as [|c q IH]; simpl.
  - now rewrite Ht.
  - destruct (p c); [|reflexivity].
    rewrite IH. now destruct (span p q).
Qed.

(** a literal without the character [t0] cannot reach into a text that
    starts with [t0] *)
Lemma strip_prefix_before (w q : jstring) (t0 : cu) (T : jstring) :
  ~ In t0 w ->
  strip_prefix w (q ++ t0 :: T)
  = option_map (fun r => r ++ t0 :: T) (strip_prefix w q).
Proof.
  revert q; induction w as [|x w IH]; intros q Hw; simpl; [reflexivity|].
  destruct q as [|y q]; simpl.
  - destruct (N.eqb x t0) eqn:E; [|reflexivity].
    apply N.eqb_eq in E. subst. exfalso. apply Hw. now left.
  - destruct (N.eqb x y); [|reflexivity]. apply IH. intros H. apply Hw.
    now right.
Qed.

Lemma validKey_chars (k : jstring) :
  validKey k = true ->
  exists x k', k = x :: k' /\ is_key_char x = true
               /\ forall c, In c k -> is_key_char c = true.
Proof.
  destruct k as [|x k']; [discriminate|]. intros H.
  unfold validKey in H. exists x, k'. split; [reflexivity|].
  rewrite forallb_forall in H. split; [apply H; now left | exact H].
Qed.

Lemma key_char_not_space (c : cu) : is_key_char c = true -> is_space c = false.
Proof.
  unfold is_key_char, is_space, inRange. intros H.
  repeat rewrite orb_true_iff in H. repeat rewrite andb_true_iff in H.
  repeat rewrite N.leb_le in H. repeat rewrite N.eqb_eq in H.
  repeat (apply orb_false_iff; split);
    try (apply andb_false_iff);
    repeat rewrite N.leb_gt; repeat rewrite N.eqb_neq; lia.
Qed.

Lemma key_char_not_brace (c : cu) :
  is_key_char c = true -> c <> 123%N /\ c <> 125%N.
Proof.
  unfold is_key_char, inRange. intros H.
  repeat rewrite orb_true_iff in H. repeat rewrite andb_true_iff in H.
  repeat rewrite N.leb_le in H. repeat rewrite N.eqb_eq in H. lia.
Qed.

Lemma validKey_no_brace (k : jstring) :
  validKey k = true -> ~ In 123%N k.
Proof.
  intros H Hin. destruct (validKey_chars _ H) as [x [k' [_ [_ Hall]]]].
  apply Hall, key_char_not_brace in Hin. tauto.
Qed.

(** the length of a match *)
Lemma match_token_length (k s : jstring) (len : nat) :
  match_token k s = Some len -> (1 <= len <= List.length s)%nat.
Proof.
  unfold match_token.
  destruct (strip_prefix (str "{{") s) as [r1|] eqn:E1; [|discriminate].
  apply strip_prefix_app in E1.
  pose proof (span_app is_space r1) as E2.
  destruct (span is_space r1) as [w1 r2]. simpl in E2.
  destruct (strip_prefix k r2) as [r3|] eqn:E3; [|discriminate].
  apply strip_prefix_app in E3.
  pose proof (span_app is_space r3) as E4.
  destruct (span is_space r3) as [w2 r4]. simpl in E4.
  destruct (strip_prefix (str "}}") r4) as [r5|] eqn:E5; [|discriminate].
  apply strip_prefix_app in E5. intros [= <-].
  subst s r1 r2 r3 r4. rewrite !length_app.
  change (List.length (str "{{")) with 2%nat.
  change (List.length (str "}}")) with 2%nat. lia.
Qed.

Lemma strip_prefix_head (x c : cu) (w s : jstring) :
  x <> c -> strip_prefix (x :: w) (c :: s) = None.
Proof.
  intros H. cbn [strip_prefix]. apply N.eqb_neq in H. now rewrite H.
Qed.

(** in front of a text that starts with two opening braces, an attempt
    sees what it would see at the end of the text *)
Lemma match_token_before (k p T : jstring) :
  validKey k = true -> p <> [] ->
  match_token k (p ++ 123%N :: 123%N :: T) = match_token k p.
Proof.
  intros Hk Hp. destruct (validKey_chars _ Hk) as [x [k' [Ek [Hx Hall]]]].
  unfold match_token. change (str "{{") with [123%N; 123%N].
  destruct p as [|c1 [|c2 q]]; [contradiction| |].
  - (* one character: the braces of the text cannot open a match *)
    cbn [app strip_prefix].
    destruct (N.eqb 123 c1); [|reflexivity].
    rewrite N.eqb_refl, span_stop by reflexivity.
    rewrite Ek, strip_prefix_head; [reflexivity|].
    apply key_char_not_brace in Hx. tauto.
  - cbn [app strip_prefix].
    destruct (N.eqb 123 c1); [|reflexivity].
    destruct (N.eqb 123 c2); [|reflexivity].
    rewrite span_before by reflexivity.
    destruct (span is_space q) as [w1 r2]. cbn [fst snd].
    rewrite strip_prefix_before by (now apply validKey_no_brace).
    destruct (strip_prefix k r2) as [r3|]; [|reflexivity]. cbn [option_map].
    rewrite span_before by reflexivity.
    destruct (span is_space r3) as [w2 r4]. cbn [fst snd].
    rewrite strip_prefix_before
      by (change (str "}}") with [125%N; 125%N];
          intros [H | [H | []]]; discriminate).
    destruct (strip_prefix (str "}}") r4) as [r5|]; [|reflexivity].
    cbn [option_map]. f_equal. cbn [List.length].
    rewrite !length_app. cbn [List.length]. lia.
Qed.

Section OnePass.
Variables (k text : jstring).

Lemma pass_before (s : jstring) :
  forall skip b b', hydrateFrom k text skip b s = hydrateFrom k text skip b' s.
Proof.
  induction s as [|c s IH]; intros skip b b'; [reflexivity|].
  unfold hydrateFrom. cbn [replace_from]. fold (hydrateFrom k text).
  destruct skip as [|n]; [|apply IH].
  unfold tokenAttempt, byConst.
  destruct (match_token k (c :: s)) as [len|].
  - f_equal. apply IH.
  - f_equal. apply IH.
Qed.

Lemma pass_skip (s : jstring) :
  forall n b, (n <= List.length s)%nat ->
              hydrateFrom k text n b s = hydrate k text (skipn n s).
Proof.
  induction s as [|c s IH]; intros n b Hn.
  - destruct n; [reflexivity | simpl in Hn; lia].
  - destruct n as [|n].
    + apply pass_before.
    + unfold hydrateFrom. cbn [replace_from skipn]. fold (hydrateFrom k text).
      apply IH. simpl in Hn. lia.
Qed.

(** at a match the pass puts the text and goes on behind the match *)
Lemma hydrate_match (s : jstring) (len : nat) :
  match_token k s = Some len ->
  hydrate k text s = text ++ hydrate k text (skipn len s).
Proof.
  intros H. pose proof (match_token_length _ _ H) as Hlen.
  destruct s as [|c s]; [simpl in Hlen; lia|].
  unfold hydrate, replace. cbn [replace_from].
  unfold tokenAttempt at 1. rewrite H. unfold byConst at 1. f_equal.
  destruct len as [|len]; [lia|].
  replace (S len - 1)%nat with len by lia.
  cbn [skipn]. apply pass_skip. simpl in Hlen. lia.
Qed.

(** elsewhere it copies one character *)
Lemma hydrate_nomatch (c : cu) (s : jstring) :
  match_token k (c :: s) = None ->
  hydrate k text (c :: s) = c :: hydrate k text s.
Proof.
  intros H. unfold hydrate, replace. cbn [replace_from].
  unfold tokenAttempt at 1. rewrite H. f_equal. apply pass_before.
Qed.

Lemma match_token_needs_brace (c : cu) (s : jstring) :
  c <> 123%N -> match_token k (c :: s) = None.
Proof.
  intros H. unfold match_token. change (str "{{") with [123%N; 123%N].
  rewrite strip_prefix_head; [reflexivity | congruence].
Qed.

(** text without an opening brace is copied *)
Lemma hydrate_copy (w rest : jstring) :
  ~ In 123%N w -> hydrate k text (w ++ rest) = w ++ hydrate k text rest.
Proof.
  induction w as [|c w IH]; intros H; [reflexivity|].
  cbn [app]. rewrite hydrate_nomatch.
  - f_equal. apply IH. intros Hin. apply H. now right.
  - apply match_token_needs_brace. intros ->. apply H. now left.
Qed.

Hypothesis k_valid : validKey k = true.

(** a pass works on the text in front of two opening braces as it
    works on that text alone *)
Lemma hydrate_before (T : jstring) (n : nat) :
  forall pre, (List.length pre <= n)%nat ->
    hydrate k text (pre ++ 123%N :: 123%N :: T)
    = hydrate k text pre ++ hydrate k text (123%N :: 123%N :: T).
Proof.
  induction n as [|n IH]; intros pre Hn.
  - destruct pre; [reflexivity | simpl in Hn; lia].
  - destruct pre as [|c pre]; [reflexivity|].
    pose proof (@match_token_before k (c :: pre) T k_valid
                  ltac:(discriminate)) as Hm.
    destruct (match_token k (c :: pre)) as [len|] eqn:E.
    + pose proof (match_token_length _ _ E) as Hlen.
      rewrite (hydrate_match _ Hm), (hydrate_match _ E).
      rewrite skipn_app.
      replace (len - List.length (c :: pre))%nat with 0%nat by lia.
      cbn [skipn]. rewrite IH, app_assoc; [reflexivity|].
      rewrite length_skipn. cbn [List.length] in *. lia.
    + cbn [app] in Hm |- *.
      rewrite !hydrate_nomatch by assumption.
      cbn [app]. f_equal. apply IH. simpl in Hn. lia.
Qed.

(** the token of the key itself is a match *)
Lemma match_own_token (post : jstring) :
  match_token k (token k ++ post) = Some (List.length (token k)).
Proof.
  destruct (validKey_chars _ k_valid) as [x [k' [Ek [Hx Hall]]]].
  unfold match_token, token. rewrite <- !app_assoc.
  assert (E1 : strip_prefix (str "{{") (str "{{" ++ k ++ str "}}" ++ post)
               = Some (k ++ str "}}" ++ post))
    by now apply strip_prefix_app.
  rewrite E1.
  assert (E2 : span is_space (k ++ str "}}" ++ post)
               = ([], k ++ str "}}" ++ post)).
  { rewrite Ek. apply span_stop. now apply key_char_not_space. }
  rewrite E2.
  assert (E3 : strip_prefix k (k ++ str "}}" ++ post)
               = Some (str "}}" ++ post))
    by now apply strip_prefix_app.
  rewrite E3.
  assert (E4 : span is_space (str "}}" ++ post) = ([], str "}}" ++ post))
    by (apply span_stop; reflexivity).
  rewrite E4.
  assert (E5 : strip_prefix (str "}}") (str "}}" ++ post) = Some post)
    by now apply strip_prefix_app.
  rewrite E5. f_equal. rewrite !length_app. lia.
Qed.

Lemma hydrate_own_token (post : jstring) :
  hydrate k text (token k ++ post) = text ++ hydrate k text post.
Proof.
  rewrite (hydrate_match _ (match_own_token post)).
  rewrite skipn_app, skipn_all, Nat.sub_diag. reflexivity.
Qed.

(** the token of another key is no match *)
Lemma match_other_token (k' post : jstring) :
  validKey k' = true -> k <> k' ->
  match_token k (token k' ++ post) = None.
Proof.
  intros Hk' Hne.
  destruct (validKey_chars _ Hk') as [x' [t' [Ek' [Hx' Hall']]]].
  destruct (validKey_chars _ k_valid) as [x [t [Ek [Hx Hall]]]].
  unfold match_token, token. rewrite <- !app_assoc.
  assert (E1 : strip_prefix (str "{{") (str "{{" ++ k' ++ str "}}" ++ post)
               = Some (k' ++ str "}}" ++ post))
    by now apply strip_prefix_app.
  rewrite E1.
  assert (E2 : span is_space (k' ++ str "}}" ++ post)
               = ([], k' ++ str "}}" ++ post)).
  { rewrite Ek'. apply span_stop. now apply key_char_not_space. }
  rewrite E2.
  destruct (strip_prefix k (k' ++ str "}}" ++ post)) as [r3|] eqn:E3;
    [|reflexivity].
  apply strip_prefix_app in E3. symmetry in E3.
  apply app_eq_app in E3 as [l [[H1 H2] | [H1 H2]]].
  - (* k' is a prefix of k: the next character of k would be a brace *)
    destruct l as [|c l].
    + rewrite app_nil_r in H1. congruence.
    + exfalso. change (str "}}") with [125%N; 125%N] in H2.
      injection H2 as Hc _.
      assert (Hin : In c k) by (rewrite H1, in_app_iff; right; now left).
      apply Hall, key_char_not_brace in Hin. rewrite Hc in Hin. tauto.
  - (* k is a proper prefix of k': a key character follows it *)
    destruct l as [|c l].
    + rewrite app_nil_r in H1. congruence.
    + assert (Hin : In c k') by (rewrite H1, in_app_iff; right; now left).
      apply Hall' in Hin. rewrite H2. cbn [app].
      rewrite span_stop by now apply key_char_not_space.
      change (str "}}") with [125%N; 125%N].
      rewrite strip_prefix_head; [reflexivity|].
      apply key_char_not_brace in Hin. intros E. symmetry in E. tauto.
Qed.

Lemma hydrate_other_token (k' post : jstring) :
  validKey k' = true -> k <> k' ->
  hydrate k text (token k' ++ post) = token k' ++ hydrate k text post.
Proof.
  intros Hk' Hne.
  destruct (validKey_chars _ Hk') as [x' [t' [Ek' [Hx' Hall']]]].
  pose proof (match_other_token post Hk' Hne) as Hm.
  unfold token in *. rewrite <- !app_assoc in *.
  change (str "{{" ++ k' ++ str "}}" ++ post)
    with (123%N :: 123%N :: (k' ++ str "}}" ++ post)) in *.
  rewrite hydrate_nomatch by exact Hm. cbn [app]. f_equal.
  rewrite hydrate_nomatch.
  - f_equal. rewrite app_assoc, hydrate_copy.
    + now rewrite <- app_assoc.
    + rewrite in_app_iff. intros [H | H].
      * now apply (validKey_no_brace _ Hk').
      * change (str "}}") with [125%N; 125%N] in H.
        destruct H as [H | [H | []]]; discriminate.
  - unfold match_token. change (str "{{") with [123%N; 123%N].
    rewrite Ek'. cbn [app strip_prefix]. rewrite N.eqb_refl.
    destruct (N.eqb 123 x') eqn:E; [|reflexivity].
    apply N.eqb_eq in E. apply key_char_not_brace in Hx'. symmetry in E.
    tauto.
Qed.

(** one pass around a token: the text in front and the text behind are
    treated on their own; the token becomes the value when it is the
    token of the key of the pass and stays otherwise *)
Lemma hydrate_around (k' pre post : jstring) :
  validKey k' = true ->
  hydrate k text (pre ++ token k' ++ post)
  = hydrate k text pre
    ++ (if jeqb k k' then text else token k')
    ++ hydrate k text post.
Proof.
  intros Hk'.
  assert (HT : token k' ++ post
               = 123%N :: 123%N :: (k' ++ str "}}" ++ post)).
  { unfold token. now rewrite <- !app_assoc. }
  rewrite HT, (@hydrate_before _ (List.length pre) pre (le_n _)), <- HT.
  f_equal. destruct (jeqb k k') eqn:E.
  - apply jeqb_eq in E. subst k'. apply hydrate_own_token.
  - apply jeqb_neq in E. now apply hydrate_other_token.
Qed.
End OnePass.

Lemma hydrateEntry_hydrate (h : jstring) (e : jstring * value) :
  hydrateEntry h e = hydrate (fst e) (String_of (snd e)) h.
Proof. reflexivity. Qed.

(** the token of a key that State does not have goes through every
    pass *)
Lemma substitute_absent (st : State) :
  forall (k pre post : jstring),
    forallb validKey (obj_keys st) = true ->
    validKey k = true ->
    ~ In k (obj_keys st) ->
    substitute st (pre ++ token k ++ post)
    = substitute st pre ++ token k ++ substitute st post.
Proof.
  induction st as [|[k1 v1] st IH]; intros k pre post Hst Hk Hin;
    [reflexivity|].
  simpl in Hst. apply andb_true_iff in Hst as [Hk1 Hst].
  unfold substitute. cbn [fold_left]. rewrite !hydrateEntry_hydrate.
  cbn [fst snd]. rewrite hydrate_around by assumption.
  assert (E : jeqb k1 k = false).
  { apply jeqb_neq. intros ->. apply Hin. now left. }
  rewrite E. apply IH; auto. intros H. apply Hin. now right.
Qed.

(** the token of a key of State is replaced by the text of its value in
    the pass of that key; the passes of the entries behind it then run
    over the result *)
Lemma substitute_present (st1 st2 : State) (k : jstring) (v : value)
    (pre post : jstring) :
  forallb validKey (obj_keys st1) = true ->
  validKey k = true ->
  ~ In k (obj_keys st1) ->
  substitute (st1 ++ (k, v) :: st2) (pre ++ token k ++ post)
  = substitute st2
      (substitute (st1 ++ [(k, v)]) pre ++ String_of v
       ++ substitute (st1 ++ [(k, v)]) post).
Proof.
  intros Hst Hk Hin. unfold substitute at 1. rewrite fold_left_app.
  fold (substitute st1 (pre ++ token k ++ post)).
  rewrite substitute_absent by assumption.
  cbn [fold_left]. rewrite hydrateEntry_hydrate. cbn [fst snd].
  rewrite hydrate_around by assumption. rewrite jeqb_refl.
  unfold substitute. rewrite !fold_left_app. reflexivity.
Qed.

(** C2, as the code has it: the substitution pass runs one global replace
    per State entry, in the order of the entries.  A token [{{k}}] whose
    key is absent from State is not replaced: it is in the output as it
    was, with the text in front of it and behind it substituted.  A token
    whose key is in State is replaced by the String form of the key's
    value in the pass of that key, and the passes of the later entries run
    over the result. *)
Theorem substitution_pass (serialize : list node -> jstring)
    (doc : document) (currentState : State) (k pre post : jstring) :
  forallb validKey (obj_keys currentState) = true ->
  validKey k = true ->
  serialize (head doc) ++ serialize (addBodyPaths 0 (body doc))
  = pre ++ token k ++ post ->
  (~ In k (obj_keys currentState) ->
   getProcessedHtml serialize doc currentState
   = substitute currentState pre ++ token k ++ substitute currentState post)
  /\ (forall st1 v st2,
         currentState = st1 ++ (k, v) :: st2 ->
         ~ In k (obj_keys st1) ->
         getProcessedHtml serialize doc currentState
         = substitute st2
             (substitute (st1 ++ [(k, v)]) pre ++ String_of v
              ++ substitute (st1 ++ [(k, v)]) post)).
Proof.
  intros Hst Hk Hdoc. unfold getProcessedHtml. cbv zeta. rewrite Hdoc.
  split.
  - intros Hin. now apply substitute_absent.
  - intros st1 v st2 -> Hin. apply substitute_present; auto.
    unfold obj_keys in Hst. rewrite map_app, forallb_app in Hst.
    now apply andb_true_iff in Hst as [Hst _].
Qed.

Lemma substitution_pass_witness :
  let pre := str "<p data-path=" ++ dq ++ str "0" ++ dq ++ str ">{{title}} " in
  let post := str "</p>" in
  (~ In (str "x") (obj_keys previewState) ->
   getProcessedHtml innerHTML previewDocument previewState
   = substitute previewState pre ++ token (str "x")
     ++ substitute previewState post)
  /\ (forall st1 v st2,
         previewState = st1 ++ (str "x", v) :: st2 ->
         ~ In (str "x") (obj_keys st1) ->
         getProcessedHtml innerHTML previewDocument previewState
         = substitute st2
             (substitute (st1 ++ [(str "x", v)]) pre ++ String_of v
              ++ substitute (st1 ++ [(str "x", v)]) post)).
Proof.
  intros pre post.
  apply (@substitution_pass innerHTML previewDocument previewState
           (str "x") pre post); reflexivity.
Defined.

(** C2 as stated does not hold: the token of a key that State does not
    have stays in the rendered output, it is not replaced by the empty
    string; and a token of a key that State has can remain when a later
    value brings it in. *)
Lemma absent_key_token_stays :
  obj_get previewState (str "x") = None
  /\ getProcessedHtml innerHTML previewDocument previewState
     = str "<p data-path=" ++ dq ++ str "0" ++ dq ++ str ">Hello {{x}}</p>"
  /\ getProcessedHtml innerHTML previewDocument previewState
     <> str "<p data-path=" ++ dq ++ str "0" ++ dq ++ str ">Hello </p>"
  /\ substitute [(str "a", VStr (str "1")); (str "b", VStr (str "{{a}}"))]
                (str "{{b}}")
     = str "{{a}}".
Proof.
  repeat split; try reflexivity. discriminate.
Qed.

(* ================================================================== *)
(** ** The reconciler: what a pass leaves behind *)

Lemma filter_none (A : Type) (f : A -> bool) (l : list A) :
  (forall x, In x l -> f x = false) -> filter f l = [].
Proof.
  induction l as [|a l IH]; intros H; simpl; [reflexivity|].
  rewrite (H a) by now left. apply IH. intros x Hx. apply H. now right.
Qed.

Lemma fold_left_fixed (A B : Type) (f : A -> B -> A) (l : list B) (a : A) :
  (forall x, In x l -> f a x = a) -> fold_left f l a = a.
Proof.
  induction l as [|x l IH]; intros H; simpl; [reflexivity|].
  rewrite (H x) by now left. apply IH. intros y Hy. apply H. now right.
Qed.

Lemma addKeys_fixed (l : list jstring) (p : pass) :
  (forall k, In k l -> addKey p k = Some p) -> addKeys l p = Some p.
Proof.
  induction l as [|x l IH]; intros H; [reflexivity|].
  rewrite addKeys_cons, (H x) by now left.
  apply IH. intros k Hk. apply H. now right.
Qed.

(** after a pass no key outside the Template holds its default value *)
Lemma reconciled_no_stale_default (found : list jstring) (prev st : State)
    (k : jstring) :
  reconcileKeys found prev = Some st ->
  ~ In k found ->
  isDefaultValue st k = false.
Proof.
  intros H Hk. apply mem_not_In in Hk.
  unfold isDefaultValue. rewrite (reconcileKeys_lookup _ _ k H), Hk. simpl.
  destruct (obj_get (newState (migrate found prev)) k) as [v|];
    [|reflexivity].
  destruct (jeqb_value v k) eqn:E; [reflexivity|].
  destruct v; [exact E | reflexivity..].
Qed.

(** after a pass every Template key has an entry, unless it is a
    [__proto__] that State did not have *)
Lemma reconciled_has_found (found : list jstring) (prev st : State)
    (k : jstring) :
  reconcileKeys found prev = Some st ->
  In k found ->
  k <> str "__proto__" \/ In k (obj_keys prev) ->
  obj_has st k = true
  /\ (obj_get (newState (migrate found prev)) k = None ->
      obj_get st k = Some (VStr (defaultValue k))).
Proof.
  intros H Hk Hor. pose proof Hk as Hm. apply mem_In in Hm.
  unfold obj_has. rewrite (reconcileKeys_lookup _ _ k H), Hm. simpl.
  destruct (obj_get (newState (migrate found prev)) k) as [v|] eqn:E.
  - split; [reflexivity | discriminate].
  - destruct Hor as [Hne | Hown].
    + rewrite reachesSetter_other by assumption. now split.
    + exfalso. rewrite migrate_frame_shared in E.
      * apply obj_keys_get in Hown as [v Hv]. congruence.
      * rewrite added_spec. tauto.
      * rewrite removed_spec. tauto.
Qed.

(** a State in which every Template key has an entry, no other key holds
    its default value and, if the Template has a key at all, no key is
    named [hasOwnProperty], is returned as it is *)
Lemma reconcileKeys_settled (found : list jstring) (st : State) :
  (forall k, In k found -> obj_has st k = true) ->
  (forall k, ~ In k found -> isDefaultValue st k = false) ->
  (found <> [] -> obj_has st (str "hasOwnProperty") = false) ->
  reconcileKeys found st = Some st.
Proof.
  intros Hhas Hstale Hcall. unfold reconcileKeys.
  assert (Hadded : addedKeysOf found st = []).
  { apply filter_none. intros k Hk. apply negb_false_iff, mem_In.
    now apply obj_has_In, Hhas. }
  assert (Hmig : migrate found st = startPass found st).
  { unfold migrate. now rewrite Hadded. }
  rewrite Hmig.
  assert (Hadd : addKeys found (startPass found st)
                 = Some (startPass found st)).
  { apply addKeys_fixed. intros k Hk.
    unfold addKey, js_hasOwnProperty. simpl.
    rewrite Hcall by (intros ->; contradiction).
    now rewrite (Hhas k Hk). }
  rewrite Hadd.
  assert (Hprune : fold_left (pruneKey found)
                     (obj_keys (newState (startPass found st)))
                     (startPass found st)
                   = startPass found st).
  { apply fold_left_fixed. intros k _. unfold pruneKey. simpl.
    destruct (mem k found) eqn:E; [reflexivity|].
    apply mem_not_In in E. now rewrite (Hstale k E). }
  rewrite Hprune. reflexivity.
Qed.

(** X1: reconciliation is idempotent on Templates that name neither
    [__proto__] nor [hasOwnProperty]: a second pass over the same Template
    returns the State the first pass returned, unchanged. *)
Theorem reconcile_idempotent (html : jstring) (prev st : State) :
  ~ In (str "__proto__") (scanKeys html) ->
  ~ In (str "hasOwnProperty") (scanKeys html) ->
  reconcile html prev = Some st ->
  reconcile html st = Some st.
Proof.
  intros Hproto Hown H. rewrite <- In_foundKeys in Hproto, Hown.
  unfold reconcile in *. apply reconcileKeys_settled.
  - intros k Hk.
    apply (@reconciled_has_found (foundKeys html) prev st k H Hk).
    left. intros ->. contradiction.
  - intros k Hk.
    now apply (@reconciled_no_stale_default (foundKeys html) prev st k H).
  - intros Hne. pose proof H as Hsome.
    apply reconcileKeys_some in Hsome as [p2 [E2 _]].
    destruct (@addKeys_callable _ _ _ E2 Hne) as [Hcall _].
    unfold obj_has in *.
    rewrite (reconcileKeys_lookup _ _ (str "hasOwnProperty") H).
    destruct (obj_get (newState (migrate (foundKeys html) prev))
                      (str "hasOwnProperty")); [discriminate|].
    apply mem_not_In in Hown. now rewrite Hown.
Qed.

Lemma reconcile_idempotent_witness :
  reconcile exampleTemplate exampleResult = Some exampleResult.
Proof.
  apply (@reconcile_idempotent exampleTemplate exampleState exampleResult).
  - apply mem_not_In. reflexivity.
  - apply mem_not_In. reflexivity.
  - reflexivity.
Defined.

(** X2: after a pass, a key that does not occur in the Template never
    holds its own default placeholder [[key]]: unused defaults are
    collected whatever the State was. *)
Theorem no_stale_default_after_pass (html : jstring) (prev st : State)
    (k : jstring) :
  ~ In k (scanKeys html) ->
  reconcile html prev = Some st ->
  obj_get st k <> Some (VStr (defaultValue k)).
Proof.
  intros Hk H. rewrite <- In_foundKeys in Hk.
  rewrite <- isDefaultValue_true.
  unfold reconcile in H.
  now rewrite (@reconciled_no_stale_default (foundKeys html) prev st k H).
Qed.

Lemma no_stale_default_after_pass_witness :
  obj_get [(str "link1", VStr (str "custom"));
           (str "intro", VStr (str "[intro]"))] (str "title")
  <> Some (VStr (defaultValue (str "title"))).
Proof.
  apply (@no_stale_default_after_pass (str "<p>{{intro}}</p>") exampleState
           [(str "link1", VStr (str "custom"));
            (str "intro", VStr (str "[intro]"))]
           (str "title")).
  - apply mem_not_In. reflexivity.
  - reflexivity.
Defined.

Lemma In_splice_out_other (k x : jstring) (l : list jstring) :
  In x l -> x <> k -> In x (splice_out k l).
Proof.
  induction l as [|y l IH]; simpl; [tauto|]. intros [-> | H] Hne.
  - destruct (jeqb x k) eqn:E; [apply jeqb_eq in E; contradiction|].
    now left.
  - destruct (jeqb y k); [assumption|]. right. now apply IH.
Qed.

(** the rounds of step 1 leave alone every key that is neither one of
    their added keys nor a removed key *)
Lemma migrateKeys_frame (added : list jstring) :
  forall (p : pass) (x : jstring),
    ~ In x added -> ~ In x (removedKeys p) ->
    obj_get (newState (fold_left migrateKey added p)) x
    = obj_get (newState p) x.
Proof.
  induction added as [|newKey added IH]; intros p x Ha Hr; [reflexivity|].
  simpl. rewrite IH.
  - destruct (migrateKey_cases p newKey) as [-> | [src [_ [_ [Hin E]]]]];
      [reflexivity|].
    rewrite E. simpl. rewrite obj_get_delete, js_assign_get.
    assert (E1 : jeqb src x = false)
      by (apply jeqb_neq; intros <-; contradiction).
    assert (E2 : jeqb newKey x = false)
      by (apply jeqb_neq; intros <-; apply Ha; now left).
    now rewrite E1, E2.
  - intros H. apply Ha. now right.
  - intros H. apply Hr.
    destruct (migrateKey_cases p newKey) as [E | [src [_ [_ [_ E]]]]];
      rewrite E in H; [assumption|].
    simpl in H. now apply In_splice_out in H.
Qed.

(** step 1 keeps the value of every removed key, at the key itself, which
    is then still a removed key, or at the added key it moved to, as long
    as [__proto__] is not one of the added keys *)
Lemma migrateKeys_keep_values (added : list jstring) :
  forall (p : pass) (k : jstring),
    NoDup added ->
    ~ In (str "__proto__") added ->
    NoDup (removedKeys p) ->
    (forall x, In x (removedKeys p) -> ~ In x added) ->
    (forall x, In x (removedKeys p) -> obj_get (newState p) x <> None) ->
    In k (removedKeys p) ->
    exists k',
      obj_get (newState (fold_left migrateKey added p)) k'
      = obj_get (newState p) k
      /\ ((k' = k /\ In k (removedKeys (fold_left migrateKey added p)))
          \/ In k' added).
Proof.
  induction added as [|newKey added IH];
    intros p k Hnda Hproto Hndr Hdis Hpres Hk.
  - exists k. simpl. auto.
  - inversion Hnda as [|? ? Hnew Hnda']; subst. simpl.
    assert (Hdis' : forall x, In x (removedKeys p) -> ~ In x added).
    { intros x Hx Hxa. apply (Hdis x Hx). now right. }
    assert (Hproto' : ~ In (str "__proto__") added)
      by (intros H; apply Hproto; now right).
    assert (Hplain : newKey <> str "__proto__")
      by (intros ->; apply Hproto; now left).
    destruct (migrateKey_cases p newKey) as [E | [src [_ [_ [Hsrc E]]]]];
      rewrite E.
    + destruct (IH p k) as [k' [H1 H2]]; auto.
      exists k'. split; [assumption|]. destruct H2; [now left|].
      right. now right.
    + set (p' := mkPass _ _ _ _).
      destruct (NoDup_splice_out src Hndr) as [Hnd' Hgone].
      assert (Hsub : forall x, In x (removedKeys p') -> In x (removedKeys p)).
      { intros x Hx. unfold p' in Hx. simpl in Hx.
        now apply In_splice_out in Hx. }
      assert (Hget : forall x, In x (removedKeys p') ->
                obj_get (newState p') x = obj_get (newState p) x).
      { intros x Hx. unfold p'. simpl.
        rewrite obj_get_delete, js_assign_get.
        assert (E1 : jeqb src x = false).
        { apply jeqb_neq. intros <-. now apply Hgone. }
        assert (E2 : jeqb newKey x = false).
        { apply jeqb_neq. intros <-. apply (Hdis newKey (Hsub _ Hx)).
          now left. }
        now rewrite E1, E2. }
      destruct (list_eq_dec N.eq_dec k src) as [-> | Hne].
      * (* the key is the source: its value is at the new key *)
        exists newKey. split; [|right; now left].
        rewrite migrateKeys_frame.
        -- unfold p'. simpl.
           rewrite obj_get_delete, js_assign_get, jeqb_refl,
             reachesSetter_other by assumption.
           assert (E1 : jeqb src newKey = false).
           { apply jeqb_neq. intros E1. apply (Hdis _ Hsrc). rewrite E1.
             now left. }
           rewrite E1. simpl. unfold obj_read.
           destruct (obj_get (newState p) src) eqn:Eg;
             [reflexivity|]. exfalso. now apply (Hpres _ Hsrc).
        -- assumption.
        -- intros H. apply (Hdis newKey (Hsub _ H)). now left.
      * assert (Hk' : In k (removedKeys p')).
        { unfold p'. simpl. now apply In_splice_out_other. }
        destruct (IH p' k) as [k' [H1 H2]]; auto.
        -- intros x Hx. rewrite (Hget x Hx). apply Hpres. now apply Hsub.
        -- exists k'. rewrite H1, (Hget k Hk'). split; [reflexivity|].
           destruct H2; [now left|]. right. now right.
Qed.

Lemma NoDup_set_of (l : list jstring) :
  forall seen, NoDup (set_of seen l).
Proof.
  induction l as [|x l IH]; intros seen; simpl; [constructor|].
  destruct (mem x seen); [apply IH|]. constructor; [|apply IH].
  rewrite In_set_of. simpl. tauto.
Qed.

(** X3: on a Template that does not name [__proto__], a reconciliation
    pass never loses text the user wrote: a value of the prior State that
    is not the default placeholder of its key is the value of some key
    in the State the pass returns (of the same key, or of the key the
    rename migration moved it to). *)
Theorem custom_value_survives (html : jstring) (prev st : State)
    (k : jstring) (v : value) :
  NoDup (obj_keys prev) ->
  ~ In (str "__proto__") (scanKeys html) ->
  obj_get prev k = Some v ->
  v <> VStr (defaultValue k) ->
  reconcile html prev = Some st ->
  exists k', obj_get st k' = Some v.
Proof.
  intros Hnd Hproto Hget Hcustom H. unfold reconcile in H.
  rewrite <- In_foundKeys in Hproto.
  set (found := foundKeys html) in *.
  assert (Hkey : In k (obj_keys prev)).
  { apply obj_has_In. unfold obj_has. now rewrite Hget. }
  destruct (in_dec (list_eq_dec N.eq_dec) k found) as [Hf | Hf].
  - (* the key is still in the Template *)
    exists k. rewrite (reconcileKeys_lookup _ _ k H).
    rewrite migrate_frame_shared, Hget.
    + apply mem_In in Hf. now rewrite Hf.
    + rewrite added_spec. tauto.
    + rewrite removed_spec. tauto.
  - assert (Hrem : In k (removedKeys (startPass found prev)))
      by (apply removed_spec; tauto).
    destruct (@migrateKeys_keep_values (addedKeysOf found prev)
                (startPass found prev) k) as [k' [H1 H2]].
    + apply NoDup_filter. apply NoDup_set_of.
    + intros Ha. apply added_spec in Ha. tauto.
    + unfold startPass. simpl. now apply NoDup_filter.
    + intros x Hx Ha. apply removed_spec in Hx. apply added_spec in Ha.
      tauto.
    + intros x Hx. apply removed_spec in Hx as [Hx _].
      apply obj_keys_get in Hx as [w Hw]. simpl. congruence.
    + assumption.
    + rewrite <- migrate_fold in H1, H2. simpl in H1. rewrite Hget in H1.
      exists k'. rewrite (reconcileKeys_lookup _ _ k' H), H1.
      destruct H2 as [[-> _] | Ha].
      * apply mem_not_In in Hf. rewrite Hf. simpl.
        destruct (jeqb_value v k) eqn:E; [|reflexivity].
        exfalso. apply Hcustom. destruct v as [s| | |s]; try discriminate.
        simpl in E. apply jeqb_eq in E. now subst.
      * apply added_spec in Ha as [Ha _]. apply mem_In in Ha.
        now rewrite Ha.
Qed.

Lemma custom_value_survives_witness :
  exists k', obj_get exampleResult k' = Some (VStr (str "custom")).
Proof.
  apply (@custom_value_survives exampleTemplate exampleState exampleResult
           (str "link1") (VStr (str "custom"))).
  - apply distinct_NoDup. reflexivity.
  - apply mem_not_In. reflexivity.
  - reflexivity.
  - discriminate.
  - reflexivity.
Defined.

(** X19: rename migration, on Templates that add no key [__proto__].
    The added keys are the scanned keys without a State entry and the
    removed keys the State keys no longer scanned; the migration loop is
    the [Migration] of the specification (each added key, in order, takes
    the value of the first remaining removed key whose value is not its
    auto-default and that is a substring of the new key, or contains it,
    or is the only removed key left; that key is then out of
    consideration); and from State [{link1: custom, title: [title]}] with
    a Template whose keys are [link3] and [title] the pass returns
    [{link3: custom, title: [title]}]. *)
Theorem rename_migration (html : jstring) (prev : State) :
  NoDup (obj_keys prev) ->
  ~ In [] (obj_keys prev) ->
  let found := foundKeys html in
  let added := addedKeysOf found prev in
  let removed := removedKeys (startPass found prev) in
  ~ In (str "__proto__") added ->
  (forall k, In k added <-> In k (scanKeys html) /\ ~ In k (obj_keys prev))
  /\ (forall k, In k removed <-> In k (obj_keys prev) /\ ~ In k (scanKeys html))
  /\ (exists m',
         Migration added (obj_get prev) removed m'
                   (removedKeys (migrate found prev))
         /\ forall k, m' k = obj_get (newState (migrate found prev)) k)
  /\ (prev = exampleState ->
      Permutation found [str "link3"; str "title"] ->
      reconcile html prev = Some exampleResult).
Proof.
  intros Hnd Hne found added removed Hproto. split; [|split; [|split]].
  - intros k. unfold added. rewrite added_spec. unfold found.
    now rewrite In_foundKeys.
  - intros k. unfold removed. rewrite removed_spec. unfold found.
    now rewrite In_foundKeys.
  - rewrite migrate_fold.
    apply (migration_loop added (startPass found prev) (obj_get prev)).
    + reflexivity.
    + unfold startPass. simpl. now apply NoDup_filter.
    + intros H. apply removed_spec in H. tauto.
    + assumption.
    + intros k H. apply removed_spec in H. simpl.
      destruct H as [H _]. apply obj_keys_get in H as [v ->]. discriminate.
    + intros k H Ha. apply removed_spec in H. apply added_spec in Ha. tauto.
  - intros -> Hperm. unfold reconcile. fold found.
    apply Permutation_sym, Permutation_length_2_inv in Hperm.
    destruct Hperm as [-> | ->]; reflexivity.
Qed.

Lemma rename_migration_witness :
  reconcile exampleTemplate exampleState = Some exampleResult.
Proof.
  refine (proj2 (proj2 (proj2
            (@rename_migration exampleTemplate exampleState _ _ _)))
            eq_refl _).
  - apply distinct_NoDup. reflexivity.
  - apply mem_not_In. reflexivity.
  - apply mem_not_In. reflexivity.
  - apply perm_swap.
Defined.

(** X20: after a reconciliation pass every key that appears as a
    placeholder in the Template has an entry in the State the pass
    returns, unless it is a [__proto__] that State did not have; a key
    that had no entry and that rename migration gave no value is created
    with the default value [[key]]. *)
Theorem template_keys_have_entries (html : jstring) (prev st : State)
    (k : jstring) :
  In k (scanKeys html) ->
  k <> str "__proto__" \/ In k (obj_keys prev) ->
  reconcile html prev = Some st ->
  obj_has st k = true
  /\ (obj_get (newState (migrate (foundKeys html) prev)) k = None ->
      obj_get st k = Some (VStr (defaultValue k))).
Proof.
  intros Hs Hor H. apply In_foundKeys in Hs.
  now apply (@reconciled_has_found (foundKeys html) prev st k).
Qed.

Lemma template_keys_have_entries_witness :
  obj_has [(str "title", VStr (str "[title]"));
           (str "intro", VStr (str "custom"))] (str "intro") = true.
Proof.
  apply (@template_keys_have_entries (str "<p>{{title}} {{intro}}</p>")
           exampleState _ (str "intro")).
  - apply mem_In. reflexivity.
  - left. discriminate.
  - reflexivity.
Defined.

(** X21: a pass returns a State whenever neither State nor the Template
    names [hasOwnProperty] and the Template does not name [__proto__]. *)
Theorem pass_returns (html : jstring) (prev : State) :
  ~ In (str "hasOwnProperty") (obj_keys prev) ->
  ~ In (str "hasOwnProperty") (scanKeys html) ->
  ~ In (str "__proto__") (scanKeys html) ->
  exists st, reconcile html prev = Some st.
Proof.
  intros Hown Hfound Hproto. rewrite <- In_foundKeys in Hfound, Hproto.
  apply reconcileKeys_returns; try assumption.
  intros H. apply added_spec in H. tauto.
Qed.

Lemma pass_returns_witness :
  exists st, reconcile exampleTemplate exampleState = Some st.
Proof.
  apply (@pass_returns exampleTemplate exampleState);
    apply mem_not_In; reflexivity.
Defined.

(* ================================================================== *)
(** ** The placeholder scanner *)

Lemma span_fst_all (p : cu -> bool) (s : jstring) :
  forallb p (fst (span p s)) = true.
Proof.
  induction s as [|c s IH]; simpl; [reflexivity|].
  destruct (p c) eqn:E; [|reflexivity].
  destruct (span p s) as [a b]. simpl in *. now rewrite E.
Qed.

(** a greedy class takes a whole run that is followed by a character
    outside the class *)
Lemma span_run (p : cu -> bool) (a : jstring) (c : cu) (b : jstring) :
  forallb p a = true -> p c = false -> span p (a ++ c :: b) = (a, c :: b).
Proof.
  intros Ha Hc. induction a as [|x a IH]; simpl.
  - now rewrite Hc.
  - simpl in Ha. apply andb_true_iff in Ha as [Hx Ha].
    now rewrite Hx, (IH Ha).
Qed.

Lemma space_not_key_char (c : cu) : is_space c = true -> is_key_char c = false.
Proof.
  intros H. destruct (is_key_char c) eqn:E; [|reflexivity].
  apply key_char_not_space in E. congruence.
Qed.

Lemma scan_from_skip (s : jstring) :
  forall n, (n <= List.length s)%nat -> scan_from n s = scanKeys (skipn n s).
Proof.
  induction s as [|c s IH]; intros n Hn.
  - destruct n; [reflexivity | simpl in Hn; lia].
  - destruct n as [|n]; [reflexivity|]. cbn [scan_from skipn].
    apply IH. simpl in Hn. lia.
Qed.

(** X4: the scanner reads every spelling of a placeholder as its key:
    plain or percent-encoded braces on either side, with any blanks
    around the key; the scan then goes on behind the placeholder. *)
Theorem scan_reads_every_spelling (key ws1 ws2 rest op cl : jstring) :
  validKey key = true ->
  forallb is_space ws1 = true ->
  forallb is_space ws2 = true ->
  In op [str "{{"; str "%7B%7B"] ->
  In cl [str "}}"; str "%7D%7D"] ->
  scanKeys (op ++ ws1 ++ key ++ ws2 ++ cl ++ rest) = key :: scanKeys rest.
Proof.
  intros Hkey Hw1 Hw2 Hop Hcl.
  destruct (validKey_chars _ Hkey) as [x [k' [Ek [Hx Hall]]]].
  assert (Hkeyall : forallb is_key_char key = true)
    by (now apply forallb_forall).
  set (s := op ++ ws1 ++ key ++ ws2 ++ cl ++ rest).
  assert (Hclose : close_delim (cl ++ rest) = Some rest
                   /\ exists c t, cl = c :: t /\ is_space c = false
                                  /\ is_key_char c = false).
  { destruct Hcl as [<- | [<- | []]].
    - split; [reflexivity|]. exists 125%N, [125%N]. auto.
    - split; [reflexivity|]. exists 37%N, (str "7D%7D"). auto. }
  destruct Hclose as [Hclose [c [t [Ecl [Hcs Hck]]]]].
  assert (Hopen : open_delim s = Some (ws1 ++ key ++ ws2 ++ cl ++ rest)).
  { unfold s. destruct Hop as [<- | [<- | []]]; reflexivity. }
  assert (Hmatch : match_placeholder s
                   = Some (key, (List.length s - List.length rest)%nat)).
  { assert (Hs1 : span is_space (ws1 ++ key ++ ws2 ++ cl ++ rest)
                  = (ws1, key ++ ws2 ++ cl ++ rest)).
    { rewrite Ek, <- app_comm_cons. apply span_run; [assumption|].
      now apply key_char_not_space. }
    assert (Hk2 : span is_key_char (key ++ ws2 ++ cl ++ rest)
                  = (key, ws2 ++ cl ++ rest)).
    { destruct ws2 as [|w ws2].
      - cbn [app]. rewrite Ecl, <- app_comm_cons. now apply span_run.
      - rewrite <- app_comm_cons. apply span_run; [assumption|].
        simpl in Hw2. apply andb_true_iff in Hw2 as [Hw _].
        now apply space_not_key_char. }
    assert (Hs2 : span is_space (ws2 ++ cl ++ rest) = (ws2, cl ++ rest)).
    { rewrite Ecl, <- app_comm_cons. now apply span_run. }
    unfold match_placeholder. rewrite Hopen, Hs1, Hk2, Hs2, Hclose.
    rewrite Ek. reflexivity. }
  assert (Hlen : (List.length s - List.length rest
                  = List.length (op ++ ws1 ++ key ++ ws2 ++ cl))%nat).
  { unfold s. rewrite !length_app. lia. }
  assert (Hs : s = (op ++ ws1 ++ key ++ ws2 ++ cl) ++ rest)
    by (unfold s; now rewrite <- !app_assoc).
  assert (Hpos : (1 <= List.length (op ++ ws1 ++ key ++ ws2 ++ cl))%nat).
  { rewrite !length_app, Ek. simpl. lia. }
  unfold scanKeys. destruct s as [|c0 s0] eqn:Es.
  - exfalso. apply (f_equal (@List.length N)) in Hs.
    rewrite length_app in Hs. simpl in Hs. lia.
  - cbn [scan_from]. rewrite Hmatch, Hlen. f_equal.
    rewrite scan_from_skip.
    + f_equal.
      replace (skipn (List.length (op ++ ws1 ++ key ++ ws2 ++ cl) - 1) s0)
        with (skipn (List.length (op ++ ws1 ++ key ++ ws2 ++ cl)) (c0 :: s0)).
      * rewrite Hs, skipn_app, skipn_all, Nat.sub_diag. reflexivity.
      * destruct (List.length (op ++ ws1 ++ key ++ ws2 ++ cl)) as [|n];
          [lia|]. cbn [skipn]. f_equal. lia.
    + apply (f_equal (@List.length N)) in Hs. rewrite length_app in Hs.
      simpl in Hs. lia.
Qed.

Lemma scan_reads_every_spelling_witness :
  scanKeys (str "%7B%7B" ++ str " " ++ str "hero-image_2" ++ [] ++ str "}}"
            ++ str " and {{ title }}")
  = str "hero-image_2" :: scanKeys (str " and {{ title }}").
Proof.
  apply scan_reads_every_spelling; try reflexivity.
  - right. left. reflexivity.
  - left. reflexivity.
Defined.

Lemma match_placeholder_valid (s key : jstring) (len : nat) :
  match_placeholder s = Some (key, len) -> validKey key = true.
Proof.
  unfold match_placeholder.
  destruct (open_delim s) as [r1|]; [|discriminate].
  destruct (span is_space r1) as [w1 r2].
  pose proof (span_fst_all is_key_char r2) as Hall.
  destruct (span is_key_char r2) as [k r3]. simpl in Hall.
  destruct k as [|c k]; [discriminate|].
  destruct (span is_space r3) as [w2 r4].
  destruct (close_delim r4); [|discriminate].
  intros [= <- _]. exact Hall.
Qed.

Lemma scan_from_valid (s : jstring) :
  forall n k, In k (scan_from n s) -> validKey k = true.
Proof.
  induction s as [|c s IH]; intros n k Hin; [contradiction|].
  cbn [scan_from] in Hin. destruct n as [|n]; [|now apply (IH n)].
  destruct (match_placeholder (c :: s)) as [[key len]|] eqn:E.
  - destruct Hin as [<- | Hin].
    + now apply match_placeholder_valid in E.
    + now apply (IH _ _ Hin).
  - now apply (IH _ _ Hin).
Qed.

(** X5: the key set scanned from a Template holds each key once, in the
    order of first appearance, and every key in it is a non-empty string
    of key characters (letters, digits, underscore, hyphen). *)
Theorem found_keys_are_distinct_valid_keys (html : jstring) :
  NoDup (foundKeys html)
  /\ (forall k, In k (foundKeys html) <-> In k (scanKeys html))
  /\ forallb validKey (foundKeys html) = true.
Proof.
  split; [apply NoDup_set_of|]. split; [intros k; apply In_foundKeys|].
  apply forallb_forall. intros k Hk. apply In_foundKeys in Hk.
  now apply (scan_from_valid html 0).
Qed.

(* ================================================================== *)
(** ** Field groups: every key in one group *)

Lemma path_eqb_true (p q : path) : path_eqb p q = true <-> p = q.
Proof.
  unfold path_eqb. destruct (list_eq_dec Nat.eq_dec p q); split;
    congruence.
Qed.

Lemma sameParent_true (par : path) (x : occurrence) :
  sameParent par x = true <-> occ_parent x = Some par.
Proof.
  unfold sameParent. destruct (occ_parent x) as [q|].
  - rewrite path_eqb_true. split; congruence.
  - split; discriminate.
Qed.

Lemma processed_parent (par : path) (pp : list path) :
  existsb (path_eqb par) pp = true <-> In par pp.
Proof.
  rewrite existsb_exists. split.
  - intros [q [Hq E]]. apply path_eqb_true in E. now subst.
  - intros H. exists par. split; [assumption | now apply path_eqb_true].
Qed.

(** the keys one anchor contributes: the keys of its occurrences that are
    new, each once *)
Lemma collect_fold (sibs : list occurrence) :
  forall (group seen : list jstring),
    exists fresh,
      fst (fold_left collect sibs (group, seen)) = group ++ fresh
      /\ NoDup fresh
      /\ (forall k, In k fresh ->
                    ~ In k seen /\ In k (map occ_key sibs))
      /\ (forall k, In k (snd (fold_left collect sibs (group, seen)))
                    <-> In k seen \/ In k fresh)
      /\ (forall x, In x sibs ->
                    In (occ_key x)
                       (snd (fold_left collect sibs (group, seen)))).
Proof.
  induction sibs as [|sib sibs IH]; intros group seen.
  - exists []. simpl. rewrite app_nil_r.
    split; [reflexivity|]. split; [constructor|].
    split; [intros k []|]. split; [intros k; tauto | intros x []].
  - cbn [fold_left]. unfold collect at 2 4 6.
    destruct (mem (occ_key sib) seen) eqn:E.
    + apply mem_In in E.
      destruct (IH group seen) as [fresh [H1 [H2 [H3 [H4 H5]]]]].
      exists fresh. split; [assumption|]. split; [assumption|].
      split; [|split; [assumption|]].
      * intros k Hk. destruct (H3 k Hk). split; [assumption|]. now right.
      * intros x [<- | Hx]; [|now apply H5]. apply H4. now left.
    + apply mem_not_In in E.
      destruct (IH (group ++ [occ_key sib]) (occ_key sib :: seen))
        as [fresh [H1 [H2 [H3 [H4 H5]]]]].
      exists (occ_key sib :: fresh).
      split; [rewrite H1, <- app_assoc; reflexivity|].
      split; [|split; [|split]].
      * constructor; [|assumption]. intros Hin.
        destruct (H3 _ Hin) as [Hn _]. apply Hn. now left.
      * intros k [<- | Hk].
        -- split; [assumption | now left].
        -- destruct (H3 k Hk) as [Hn Hm]. split.
           ++ intros Hs. apply Hn. now right.
           ++ now right.
      * intros k. rewrite H4. simpl. tauto.
      * intros x [<- | Hx]; [|now apply H5]. apply H4. left. now left.
Qed.

Lemma concat_snoc (A : Type) (ls : list (list A)) (l : list A) :
  concat (ls ++ [l]) = concat ls ++ l.
Proof. rewrite concat_app. simpl. now rewrite app_nil_r. Qed.

(** what the grouping loop keeps true *)
Lemma groupItem_invariant (all : list occurrence) (g : grouping)
    (item : occurrence) :
  In item all ->
  (forall k, In k (processedKeys g) <-> In k (concat (groups g))) ->
  NoDup (concat (groups g)) ->
  (forall k, In k (concat (groups g)) -> In k (map occ_key all)) ->
  (forall grp, In grp (groups g) -> grp <> []) ->
  (forall par it, In par (processedParents g) -> In it all ->
                  occ_parent it = Some par ->
                  In (occ_key it) (processedKeys g)) ->
  let g' := groupItem all g item in
  (forall k, In k (processedKeys g') <-> In k (concat (groups g')))
  /\ NoDup (concat (groups g'))
  /\ (forall k, In k (concat (groups g')) -> In k (map occ_key all))
  /\ (forall grp, In grp (groups g') -> grp <> [])
  /\ (forall par it, In par (processedParents g') -> In it all ->
                     occ_parent it = Some par ->
                     In (occ_key it) (processedKeys g'))
  /\ In (occ_key item) (processedKeys g')
  /\ (forall k, In k (processedKeys g) -> In k (processedKeys g')).
Proof.
  intros Hitem Hpk Hnd Hsub Hne Hpar. cbv zeta. unfold groupItem.
  destruct (mem (occ_key item) (processedKeys g)) eqn:Ekey.
  - apply mem_In in Ekey. repeat split; auto; apply Hpk.
  - apply mem_not_In in Ekey.
    destruct (occ_parent item) as [par|] eqn:Epar.
    + destruct (existsb (path_eqb par) (processedParents g)) eqn:Epp.
      * (* an anchor done before has all its keys done *)
        exfalso. apply Ekey. apply processed_parent in Epp.
        now apply (Hpar par item).
      * destruct (collect_fold (filter (sameParent par) all) []
                    (processedKeys g))
          as [fresh [H1 [H2 [H3 [H4 H5]]]]].
        destruct (fold_left collect (filter (sameParent par) all)
                    ([], processedKeys g)) as [group seen] eqn:Efold.
        simpl in H1, H4, H5. subst group.
        assert (Hsib : In item (filter (sameParent par) all)).
        { apply filter_In. split; [assumption|]. now apply sameParent_true. }
        assert (Hfresh : In (occ_key item) fresh).
        { apply H5, H4 in Hsib. tauto. }
        assert (Hlen : Nat.ltb 0 (List.length fresh) = true).
        { destruct fresh; [contradiction | reflexivity]. }
        rewrite Hlen. cbn [groups processedKeys processedParents].
        rewrite concat_snoc.
        split; [|split; [|split; [|split; [|split; [|split]]]]].
        -- intros k. rewrite H4, in_app_iff, Hpk. tauto.
        -- apply NoDup_app; [assumption | assumption |].
           intros k Hk Hf. destruct (H3 k Hf) as [Hn _]. apply Hn.
           now apply Hpk.
        -- intros k Hk. apply in_app_iff in Hk as [Hk | Hk];
             [now apply Hsub|].
           destruct (H3 k Hk) as [_ Hm].
           apply in_map_iff in Hm as [x [<- Hx]].
           apply filter_In in Hx as [Hx _]. now apply in_map.
        -- intros grp Hg. apply in_app_iff in Hg as [Hg | [<- | []]];
             [now apply Hne|]. intros ->. contradiction.
        -- intros q it [<- | Hq] Hit Hp.
           ++ apply H5. apply filter_In. split; [assumption|].
              now apply sameParent_true.
           ++ apply H4. left. now apply (Hpar q it).
        -- apply H4. now right.
        -- intros k Hk. apply H4. now left.
    + cbn [groups processedKeys processedParents]. rewrite concat_snoc.
      split; [|split; [|split; [|split; [|split; [|split]]]]].
      * intros k. rewrite in_app_iff. simpl. rewrite Hpk. tauto.
      * apply NoDup_app; [assumption | repeat constructor; tauto |].
        intros k Hk [<- | []]. apply Ekey. now apply Hpk.
      * intros k Hk. apply in_app_iff in Hk as [Hk | [<- | []]];
          [now apply Hsub | now apply in_map].
      * intros grp Hg. apply in_app_iff in Hg as [Hg | [<- | []]];
          [now apply Hne | discriminate].
      * intros q it Hq Hit Hp. right. now apply (Hpar q it).
      * now left.
      * intros k Hk. now right.
Qed.

Lemma grouping_loop (all : list occurrence) (l : list occurrence) :
  forall g : grouping,
    incl l all ->
    (forall k, In k (processedKeys g) <-> In k (concat (groups g))) ->
    NoDup (concat (groups g)) ->
    (forall k, In k (concat (groups g)) -> In k (map occ_key all)) ->
    (forall grp, In grp (groups g) -> grp <> []) ->
    (forall par it, In par (processedParents g) -> In it all ->
                    occ_parent it = Some par ->
                    In (occ_key it) (processedKeys g)) ->
    let g' := fold_left (groupItem all) l g in
    (forall k, In k (processedKeys g') <-> In k (concat (groups g')))
    /\ NoDup (concat (groups g'))
    /\ (forall k, In k (concat (groups g')) -> In k (map occ_key all))
    /\ (forall grp, In grp (groups g') -> grp <> [])
    /\ (forall x, In x l -> In (occ_key x) (processedKeys g'))
    /\ (forall k, In k (processedKeys g) -> In k (processedKeys g')).
Proof.
  induction l as [|item l IH]; intros g Hincl Hpk Hnd Hsub Hne Hpar;
    cbv zeta.
  - simpl. repeat split; auto; try apply Hpk. intros x [].
  - cbn [fold_left].
    assert (Hitem : In item all) by (apply Hincl; now left).
    destruct (@groupItem_invariant all g item Hitem Hpk Hnd Hsub Hne Hpar)
      as [A1 [A2 [A3 [A4 [A5 [A6 A7]]]]]].
    destruct (IH (groupItem all g item)) as [B1 [B2 [B3 [B4 [B5 B6]]]]];
      auto.
    { intros x Hx. apply Hincl. now right. }
    repeat split; auto; try apply B1.
    intros x [<- | Hx]; [now apply B6 | now apply B5].
Qed.

(** X6: the field groups partition the placeholder keys of the document:
    every key scanned from a text node or an attribute is in exactly one
    group, the groups hold nothing else, and no group is empty. *)
Theorem field_groups_partition (b : list node) :
  NoDup (concat (fieldGroups b))
  /\ (forall k, In k (concat (fieldGroups b))
                <-> In k (map occ_key (finalOrderedKeys b)))
  /\ (forall grp, In grp (fieldGroups b) -> grp <> []).
Proof.
  unfold fieldGroups. cbv zeta.
  destruct (@grouping_loop (finalOrderedKeys b) (finalOrderedKeys b)
              (mkGrouping [] [] []))
    as [H1 [H2 [H3 [H4 [H5 _]]]]]; simpl; try tauto.
  - apply incl_refl.
  - constructor.
  - split; [exact H2|]. split; [|exact H4].
    intros k. split; [apply H3|]. intros Hk.
    apply in_map_iff in Hk as [x [<- Hx]]. apply H1. now apply H5.
Qed.

(* ================================================================== *)
(** ** Undo/redo history *)

Lemma nth_error_tl (A : Type) (l : list A) (n : nat) :
  nth_error (tl l) n = nth_error l (S n).
Proof. destruct l; [now destruct n | reflexivity]. Qed.

Lemma nth_error_kept (l : list jstring) (next : jstring) (i n : nat) :
  (i < List.length l)%nat -> (n <= i)%nat ->
  nth_error (firstn (i + 1) l ++ [next]) n = nth_error l n.
Proof.
  intros Hi Hn. rewrite nth_error_app1.
  - apply nth_error_firstn_lt. lia.
  - rewrite length_firstn. lia.
Qed.

Lemma nth_error_pushed (l : list jstring) (next : jstring) (i : nat) :
  (i < List.length l)%nat ->
  nth_error (firstn (i + 1) l ++ [next]) (i + 1) = Some next.
Proof.
  intros Hi. rewrite nth_error_app2; rewrite length_firstn.
  - replace (i + 1 - Nat.min (i + 1) (List.length l))%nat with 0%nat by lia.
    reflexivity.
  - lia.
Qed.

Lemma length_pushed (l : list jstring) (next : jstring) (i : nat) :
  (i < List.length l)%nat ->
  List.length (firstn (i + 1) l ++ [next]) = (i + 2)%nat.
Proof. intros Hi. rewrite length_app, length_firstn. simpl. lia. Qed.

Lemma length_tl (A : Type) (l : list A) :
  List.length (tl l) = (List.length l - 1)%nat.
Proof. destruct l; simpl; lia. Qed.

(** the state of the history after an edit that changes the Template *)
Lemma setHtml_pushes (e : editor) (next : jstring) (newHtml : htmlArg) :
  (historyIndex e < List.length (history e))%nat ->
  (List.length (history e) <= 100)%nat ->
  next = match newHtml with Updater f => f (html e) | NewHtml s => s end ->
  differs next (html e) = true ->
  let e' := setHtml newHtml false e in
  html e' = Some next
  /\ (0 < historyIndex e')%nat
  /\ historyIndex e' = (List.length (history e') - 1)%nat
  /\ (List.length (history e') <= 100)%nat
  /\ nth_error (history e') (historyIndex e') = Some next
  /\ nth_error (history e') (historyIndex e' - 1)
     = nth_error (history e) (historyIndex e).
Proof.
  intros Hi Hlen Hnext Hd. cbv zeta. unfold setHtml. rewrite <- Hnext, Hd.
  cbn [negb andb].
  pose proof (length_pushed (history e) next Hi) as Hl.
  pose proof (nth_error_pushed (history e) next Hi) as Hp.
  pose proof (@nth_error_kept (history e) next (historyIndex e)
                (historyIndex e) Hi (Nat.le_refl _)) as Hk.
  destruct (Nat.ltb 100
              (List.length (firstn (historyIndex e + 1) (history e)
                            ++ [next]))) eqn:E;
    cbn [html history historyIndex].
  - apply Nat.ltb_lt in E. rewrite length_tl, !nth_error_tl, Hl.
    assert (Hidx : historyIndex e = 99%nat) by lia.
    split; [reflexivity|]. split; [lia|]. split; [reflexivity|].
    split; [lia|]. split.
    + rewrite <- Hp. f_equal. lia.
    + rewrite <- Hk. f_equal. lia.
  - apply Nat.ltb_ge in E. rewrite Hl.
    split; [reflexivity|]. split; [lia|]. split; [reflexivity|].
    split; [lia|]. split.
    + rewrite <- Hp. f_equal. lia.
    + rewrite <- Hk. f_equal. lia.
Qed.

Lemma differs_false (next : jstring) (prev : option jstring) :
  differs next prev = false -> prev = Some next.
Proof.
  destruct prev as [p|]; simpl; [|discriminate].
  intros H. apply negb_false_iff, jeqb_eq in H. now subst.
Qed.

Lemma perform_keeps (e : editor) (a : edit) :
  (historyIndex e < List.length (history e))%nat ->
  (List.length (history e) <= 100)%nat ->
  html e = nth_error (history e) (historyIndex e) ->
  let e' := perform e a in
  (historyIndex e' < List.length (history e'))%nat
  /\ (List.length (history e') <= 100)%nat
  /\ html e' = nth_error (history e') (historyIndex e').
Proof.
  intros Hi Hlen Hh. cbv zeta. destruct a as [newHtml| |]; cbn [perform].
  - set (next := match newHtml with
                 | Updater f => f (html e) | NewHtml s => s end).
    destruct (differs next (html e)) eqn:Hd.
    + destruct (@setHtml_pushes e next newHtml Hi Hlen eq_refl Hd)
        as [H1 [H2 [H3 [H4 [H5 _]]]]].
      split; [lia|]. split; [assumption|]. now rewrite H1, H5.
    + unfold setHtml. fold next. rewrite Hd. cbn [negb andb].
      cbn [html history historyIndex]. apply differs_false in Hd.
      split; [assumption|]. split; [assumption|]. now rewrite <- Hd.
  - unfold undo. destruct (Nat.ltb 0 (historyIndex e)) eqn:E.
    + cbn [html history historyIndex]. split; [lia|]. now split.
    + now repeat split.
  - unfold redo.
    destruct (Nat.ltb (historyIndex e) (List.length (history e) - 1)) eqn:E.
    + apply Nat.ltb_lt in E. cbn [html history historyIndex].
      split; [lia|]. now split.
    + now repeat split.
Qed.

Lemma session_keeps (edits : list edit) :
  forall e : editor,
    (historyIndex e < List.length (history e))%nat ->
    (List.length (history e) <= 100)%nat ->
    html e = nth_error (history e) (historyIndex e) ->
    let e' := fold_left perform edits e in
    (historyIndex e' < List.length (history e'))%nat
    /\ (List.length (history e') <= 100)%nat
    /\ html e' = nth_error (history e') (historyIndex e').
Proof.
  induction edits as [|a edits IH]; intros e Hi Hlen Hh; cbv zeta.
  - now repeat split.
  - cbn [fold_left].
    destruct (@perform_keeps e a Hi Hlen Hh) as [H1 [H2 H3]].
    now apply IH.
Qed.

Lemma session_wf (initialHtml : jstring) (edits : list edit) :
  let e := session initialHtml edits in
  (historyIndex e < List.length (history e))%nat
  /\ (List.length (history e) <= 100)%nat
  /\ html e = nth_error (history e) (historyIndex e).
Proof.
  apply session_keeps; simpl; [lia | lia | reflexivity].
Qed.

(** X7: whatever the sequence of edits, undos and redos of a session, the
    history holds between one and a hundred Templates, the cursor points
    into it, and the Template shown is the entry under the cursor. *)
Theorem history_invariant (initialHtml : jstring) (edits : list edit) :
  let e := session initialHtml edits in
  (historyIndex e < List.length (history e) <= 100)%nat
  /\ html e = nth_error (history e) (historyIndex e)
  /\ html e <> None.
Proof.
  cbv zeta. destruct (session_wf initialHtml edits) as [H1 [H2 H3]].
  split; [lia|]. split; [assumption|].
  rewrite H3. apply nth_error_Some. assumption.
Qed.

(** X8: undo and redo are inverse to each other: after an undo that moved
    the cursor, redo gives back the state before it, and after a redo that
    moved the cursor, undo does. *)
Theorem undo_redo_inverse (initialHtml : jstring) (edits : list edit) :
  let e := session initialHtml edits in
  ((0 < historyIndex e)%nat -> redo (undo e) = e)
  /\ ((historyIndex e < List.length (history e) - 1)%nat ->
      undo (redo e) = e).
Proof.
  cbv zeta. destruct (session_wf initialHtml edits) as [H1 [H2 H3]].
  destruct (session initialHtml edits) as [h hist i].
  cbn [html history historyIndex] in *. split; intros H.
  - unfold undo. cbn [historyIndex history].
    apply Nat.ltb_lt in H as H'. rewrite H'.
    unfold redo. cbn [historyIndex history].
    assert (E : Nat.ltb (i - 1) (List.length hist - 1) = true)
      by (apply Nat.ltb_lt; lia).
    rewrite E. replace (i - 1 + 1)%nat with i by lia. now rewrite H3.
  - unfold redo. cbn [historyIndex history].
    apply Nat.ltb_lt in H as H'. rewrite H'.
    unfold undo. cbn [historyIndex history].
    assert (E : Nat.ltb 0 (i + 1) = true) by (apply Nat.ltb_lt; lia).
    rewrite E. replace (i + 1 - 1)%nat with i by lia. now rewrite H3.
Qed.

Lemma undo_redo_inverse_witness :
  let e := session (str "a") [SetHtml (NewHtml (str "b"));
                              SetHtml (NewHtml (str "c")); Undo] in
  redo (undo e) = e /\ undo (redo e) = e.
Proof.
  cbv zeta.
  destruct (undo_redo_inverse (str "a")
              [SetHtml (NewHtml (str "b"));
               SetHtml (NewHtml (str "c")); Undo]) as [H1 H2].
  split; [apply H1 | apply H2]; vm_compute; lia.
Defined.

(* ================================================================== *)
(** ** The form *)

Lemma filter_split (A : Type) (f : A -> bool) (l : list A) :
  Permutation l (filter f l ++ filter (fun x => negb (f x)) l).
Proof.
  induction l as [|x l IH]; simpl; [constructor|].
  destruct (f x); simpl.
  - now constructor.
  - now apply Permutation_cons_app.
Qed.

Lemma filter_every (A : Type) (f : A -> bool) (l : list A) :
  (forall x, In x l -> f x = true) -> filter f l = l.
Proof.
  induction l as [|a l IH]; intros H; simpl; [reflexivity|].
  rewrite (H a) by now left. f_equal. apply IH.
  intros x Hx. apply H. now right.
Qed.

Lemma filterOwn_callable (state : State) (keys : list jstring) :
  obj_has state (str "hasOwnProperty") = false ->
  filterOwn state keys = Some (filter (obj_has state) keys).
Proof.
  intros H. induction keys as [|k keys IH]; [reflexivity|].
  cbn [filterOwn filter]. unfold js_hasOwnProperty. rewrite H, IH.
  reflexivity.
Qed.

Lemma filterOwn_throws (state : State) (keys : list jstring) :
  obj_has state (str "hasOwnProperty") = true -> keys <> [] ->
  filterOwn state keys = None.
Proof.
  intros H Hk. destruct keys as [|k keys]; [contradiction|].
  cbn [filterOwn]. unfold js_hasOwnProperty. now rewrite H.
Qed.

(** X10: the sorted keys, which the form shows one by one when it is
    given no field groups.  The computation throws exactly when the
    Template has a placeholder and State has a key [hasOwnProperty], whose
    value then shadows the method that is called.  Otherwise the sorted
    keys are the keys of State, each once, whatever the Template; they are
    what the form renders without field groups, and with field groups the
    form renders the groups instead. *)
Theorem sorted_keys_permutation (template : jstring) (state : State) :
  NoDup (obj_keys state) ->
  (sortedKeys template state = None
   <-> foundKeys template <> []
       /\ obj_has state (str "hasOwnProperty") = true)
  /\ forall keys,
      sortedKeys template state = Some keys ->
      Permutation keys (obj_keys state)
      /\ NoDup keys
      /\ displayGroups None template state
         = Some (map (fun k => [k]) keys)
      /\ displayGroups (Some []) template state
         = Some (map (fun k => [k]) keys)
      /\ forall g gs,
          displayGroups (Some (g :: gs)) template state = Some (g :: gs).
Proof.
  intros Hnd. split.
  - unfold sortedKeys. cbv zeta.
    destruct (obj_has state (str "hasOwnProperty")) eqn:Eown.
    + destruct (foundKeys template) as [|k ks] eqn:Ef.
      * split; [discriminate | intros [H _]; contradiction].
      * rewrite filterOwn_throws by (assumption || discriminate).
        split; [intros _; split; [discriminate | reflexivity]
               | reflexivity].
    + rewrite filterOwn_callable by assumption.
      split; [discriminate | intros [_ H]; discriminate].
  - intros keys H.
    assert (Hp : Permutation keys (obj_keys state)).
    { unfold sortedKeys in H. cbv zeta in H.
      destruct (obj_has state (str "hasOwnProperty")) eqn:Eown.
      - destruct (foundKeys template) as [|k ks] eqn:Ef.
        + cbn [filterOwn app] in H. injection H as <-.
          rewrite filter_every; [apply Permutation_refl|].
          intros x _. reflexivity.
        + rewrite filterOwn_throws in H by (assumption || discriminate).
          discriminate.
      - rewrite filterOwn_callable in H by assumption. injection H as <-.
        apply Permutation_trans
          with (filter (fun k => mem k (foundKeys template)) (obj_keys state)
                ++ filter (fun k => negb (mem k (foundKeys template)))
                          (obj_keys state)).
        + apply Permutation_app_tail. apply NoDup_Permutation.
          * apply NoDup_filter. apply NoDup_set_of.
          * now apply NoDup_filter.
          * intros k. rewrite !filter_In, obj_has_In, mem_In. tauto.
        + apply Permutation_sym. apply filter_split. }
    split; [assumption|]. split.
    { apply Permutation_NoDup with (obj_keys state);
        [now apply Permutation_sym | assumption]. }
    unfold displayGroups. rewrite H. repeat split.
Qed.

Lemma sorted_keys_permutation_witness :
  Permutation [str "title"; str "link1"] (obj_keys exampleState)
  /\ NoDup [str "title"; str "link1"].
Proof.
  destruct (@sorted_keys_permutation exampleTemplate exampleState)
    as [_ H].
  - apply distinct_NoDup. reflexivity.
  - destruct (H [str "title"; str "link1"] eq_refl) as [H1 [H2 _]].
    split; assumption.
Defined.

Lemma strip_prefix_ci_app (p s : jstring) :
  strip_prefix_ci p (p ++ s) = Some s.
Proof.
  induction p as [|x p IH]; simpl; [reflexivity|].
  now rewrite N.eqb_refl.
Qed.

(** X11: the address completion of the form settles in one step: when
    leaving a field changes its text, the new text is the old one behind
    [https://], no other key of State changes, and leaving the field again
    changes nothing. *)
Theorem blur_settles (state st' : State) (key s : jstring) :
  handleBlur state key (VStr s) = Some st' ->
  obj_get st' key = Some (VStr (str "https://" ++ s))
  /\ (forall k, k <> key -> obj_get st' k = obj_get state k)
  /\ handleBlur st' key (VStr (str "https://" ++ s)) = None.
Proof.
  unfold handleBlur.
  destruct ((isUrlKey key || looksLikeDomain s) && negb (isLabelKey key)
            && Nat.ltb 0 (List.length s)); [|discriminate].
  destruct (negb (startsWith_ci s (str "http://")
                  || startsWith_ci s (str "https://"))
            && negb (startsWith_ci s (str "mailto:"))
            && negb (startsWith s (str "/"))
            && negb (startsWith s (str "tel:"))); [|discriminate].
  intros [= <-]. unfold handleChange. split; [|split].
  - now rewrite obj_get_set, jeqb_refl.
  - intros k Hk. rewrite obj_get_set.
    assert (E : jeqb key k = false) by (apply jeqb_neq; congruence).
    now rewrite E.
  - assert (E : startsWith_ci (str "https://" ++ s) (str "https://") = true).
    { unfold startsWith_ci. now rewrite strip_prefix_ci_app. }
    rewrite E, orb_true_r. cbn [negb andb].
    now destruct (_ && _).
Qed.

Lemma blur_settles_witness :
  exists st',
    handleBlur exampleState (str "websiteUrl") (VStr (str "example.com"))
    = Some st'
    /\ obj_get st' (str "websiteUrl")
       = Some (VStr (str "https://example.com")).
Proof.
  eexists. split; [reflexivity|].
  apply (@blur_settles exampleState _ (str "websiteUrl")
           (str "example.com")).
  reflexivity.
Defined.

(* ================================================================== *)
(** ** The shape of a repeatable anchor *)

Lemma climb_chooses (up : list ancestor) (q : path) :
  climb up = Some q ->
  exists a,
    In a up /\ anc_path a = q
    /\ mem (anc_tag a) stopTags = false
    /\ (mem (anc_tag a) [str "LI"; str "TR"] = true
        \/ (mem (anc_tag a) [str "DIV"; str "ARTICLE"; str "SECTION"] = true
            /\ (0 < List.length (sameTagSiblings a))%nat)).
Proof.
  induction up as [|a up IH]; cbn [climb]; [discriminate|].
  destruct (mem (anc_tag a) stopTags) eqn:Es; [discriminate|].
  destruct (mem (anc_tag a) [str "LI"; str "TR"]) eqn:El.
  - intros [= <-]. exists a. split; [now left|]. auto.
  - destruct (mem (anc_tag a) [str "DIV"; str "ARTICLE"; str "SECTION"])
      eqn:Ed; cbn [andb].
    + destruct (Nat.ltb 0 (List.length (sameTagSiblings a))) eqn:En.
      * intros [= <-]. exists a. split; [now left|].
        apply Nat.ltb_lt in En. auto.
      * intros H. destruct (IH H) as [a' [H1 H2]]. exists a'.
        split; [now right | assumption].
    + intros H. destruct (IH H) as [a' [H1 H2]]. exists a'.
      split; [now right | assumption].
Qed.

Lemma ancestorsOf_above (p : path) :
  forall (cs : list node) (pre : path) (a : ancestor),
    In a (ancestorsOf cs pre p) ->
    exists r, r <> [] /\ pre ++ p = anc_path a ++ r.
Proof.
  induction p as [|i p IH]; intros cs pre a Hin; simpl in Hin;
    [contradiction|].
  destruct p as [|j p]; [contradiction|].
  destruct (nth_error cs i) as [[t at' kids| |]|]; simpl in Hin; try tauto.
  destruct Hin as [<- | Hin].
  - exists (j :: p). split; [discriminate|]. simpl.
    now rewrite <- app_assoc.
  - apply IH in Hin as [r [Hr E]]. exists r. split; [assumption|].
    rewrite <- E, <- app_assoc. reflexivity.
Qed.

Lemma In_combine_seq (A : Type) (l : list A) :
  forall (s j : nat) (x : A),
    In (j, x) (combine (seq s (List.length l)) l) ->
    (s <= j)%nat /\ nth_error l (j - s) = Some x.
Proof.
  induction l as [|y l IH]; intros s j x Hin; simpl in Hin; [contradiction|].
  destruct Hin as [[= <- <-] | Hin].
  - split; [lia|]. now rewrite Nat.sub_diag.
  - apply IH in Hin as [H1 H2]. split; [lia|].
    replace (j - s)%nat with (S (j - S s)) by lia. exact H2.
Qed.

Lemma mem_cases (k : jstring) (l : list jstring) :
  mem k l = true -> In k l.
Proof. apply mem_In. Qed.

(** X12: what a repeatable anchor is.  The anchor found for a node is a
    proper ancestor of it below [body]; it is a list item or a table row,
    or else a [DIV] or an [ARTICLE] that has a sibling element of its own
    tag.  A [SECTION] is never an anchor, although the walk names it
    among the grouping tags: the walk stops there first. *)
Theorem repeatable_anchor_shape (b : list node) (p q : path) :
  getRepeatableParent b p = Some q ->
  (exists r, r <> [] /\ p = q ++ r)
  /\ exists cs tag attrs kids,
      childNodesAt b (removelast q) = Some cs
      /\ nth_error cs (last q 0%nat) = Some (Elem tag attrs kids)
      /\ (tag = str "LI" \/ tag = str "TR"
          \/ ((tag = str "DIV" \/ tag = str "ARTICLE")
              /\ exists j attrs' kids',
                  j <> last q 0%nat
                  /\ nth_error cs j = Some (Elem tag attrs' kids'))).
Proof.
  unfold getRepeatableParent. intros H.
  apply climb_chooses in H as [a [Hin [<- [Hstop Htag]]]].
  apply in_rev in Hin. split.
  - apply ancestorsOf_above in Hin as [r [Hr E]]. exists r.
    split; [assumption | exact E].
  - destruct (@ancestorsOf_sound b p b [] a eq_refl Hin)
      as [attrs [kids [H1 [H2 H3]]]].
    exists (anc_siblings a), (anc_tag a), attrs, kids.
    assert (Hlast : last (anc_path a) 0%nat = anc_index a)
      by (rewrite H1; apply last_last).
    split; [assumption|]. split; [now rewrite Hlast|].
    destruct Htag as [Hl | [Hd Hn]].
    + apply mem_cases in Hl. simpl in Hl. intuition.
    + right. right. split.
      * apply mem_cases in Hd. simpl in Hd.
        destruct Hd as [Hd | [Hd | [Hd | []]]]; auto.
        exfalso. rewrite <- Hd in Hstop. discriminate.
      * unfold sameTagSiblings in Hn.
        destruct (filter _ _) as [|[j c] rest] eqn:Ef; [simpl in Hn; lia|].
        assert (Hj : In (j, c) (filter
                  (fun jc => negb (Nat.eqb (fst jc) (anc_index a))
                             && hasTag (anc_tag a) (snd jc))
                  (combine (seq 0 (List.length (anc_siblings a)))
                           (anc_siblings a))))
          by (rewrite Ef; now left).
        apply filter_In in Hj as [Hc Hf]. simpl in Hf.
        apply andb_true_iff in Hf as [Hne Ht].
        apply In_combine_seq in Hc as [_ Hc]. rewrite Nat.sub_0_r in Hc.
        destruct c as [t' attrs' kids'| |]; try discriminate.
        simpl in Ht. apply jeqb_eq in Ht. subst t'.
        exists j, attrs', kids'. split; [|assumption].
        rewrite Hlast. apply negb_true_iff, Nat.eqb_neq in Hne. exact Hne.
Qed.

Lemma repeatable_anchor_shape_witness :
  getRepeatableParent cardList [0; 0; 0]%nat = Some [0; 0]%nat
  /\ exists r, r <> [] /\ [0; 0; 0]%nat = [0; 0]%nat ++ r.
Proof.
  split; [reflexivity|].
  apply (@repeatable_anchor_shape cardList [0; 0; 0]%nat [0; 0]%nat).
  reflexivity.
Defined.

(* ================================================================== *)
(** ** Replacement with a pattern that does not match *)

Section ReplaceFacts.
Variable attempt : option cu -> jstring -> option (list jstring * nat).
Variable subst : jstring -> jstring -> jstring -> list jstring -> jstring.
Variable global : bool.

Lemma replace_no_match (s : jstring) :
  forall before_rev,
    (forall pre t prev, s = pre ++ t -> attempt prev t = None) ->
    replace_from attempt subst global 0 before_rev s = s.
Proof.
  induction s as [|c s IH]; intros before_rev H; [reflexivity|].
  cbn [replace_from]. rewrite (H [] (c :: s) _ eq_refl). f_equal.
  apply IH. intros pre t prev E. apply (H (c :: pre) t prev).
  simpl. now rewrite E.
Qed.

Lemma replace_skip (a : jstring) :
  forall (s before_rev : jstring),
    replace_from attempt subst global (List.length a) before_rev (a ++ s)
    = replace_from attempt subst global 0 (rev a ++ before_rev) s.
Proof.
  induction a as [|x a IH]; intros s before_rev; [reflexivity|].
  cbn [List.length app replace_from]. rewrite IH. simpl.
  now rewrite <- app_assoc.
Qed.

Lemma replace_before (s : jstring) :
  (forall p1 p2 t, attempt p1 t = attempt p2 t) ->
  (forall b1 b2 m a caps, subst b1 m a caps = subst b2 m a caps) ->
  forall skip b1 b2,
    replace_from attempt subst global skip b1 s
    = replace_from attempt subst global skip b2 s.
Proof.
  intros Ha Hs. induction s as [|c s IH]; intros skip b1 b2; [reflexivity|].
  cbn [replace_from]. destruct skip as [|n]; [|apply IH].
  rewrite (Ha (hd_error b1) (hd_error b2)).
  destruct (attempt (hd_error b2) (c :: s)) as [[caps len]|].
  - rewrite (Hs (rev b1) (rev b2)). f_equal.
    destruct global; [apply IH | reflexivity].
  - f_equal. apply IH.
Qed.

Lemma forallb_skipn (P : cu -> bool) (n : nat) (s : jstring) :
  forallb P s = true -> forallb P (skipn n s) = true.
Proof.
  revert s; induction n as [|n IH]; intros [|c s] H; simpl in *; auto.
  apply andb_true_iff in H as [_ H]. now apply IH.
Qed.

Lemma replace_keeps_class (P : cu -> bool) (s : jstring) :
  (forall b m a caps, forallb P (subst b m a caps) = true) ->
  forallb P s = true ->
  forall skip before_rev,
    forallb P (replace_from attempt subst global skip before_rev s) = true.
Proof.
  intros Hs. induction s as [|c s IH]; intros H skip before_rev;
    [reflexivity|].
  cbn [replace_from]. cbn [forallb] in H.
  apply andb_true_iff in H as [Hc H]. destruct skip as [|n]; [|now apply IH].
  destruct (attempt (hd_error before_rev) (c :: s)) as [[caps len]|].
  - rewrite forallb_app, Hs. cbn [andb].
    destruct global; [now apply IH|].
    apply forallb_skipn. cbn [forallb]. now rewrite Hc, H.
  - cbn [forallb]. rewrite Hc. now apply IH.
Qed.
End ReplaceFacts.

(* ================================================================== *)
(** ** Theme rewriter: a token the Template does not hold *)

Lemma strip_prefix_ci_of (p : jstring) :
  forall s r, strip_prefix p s = Some r -> strip_prefix_ci p s = Some r.
Proof.
  induction p as [|x p IH]; intros s r; simpl; [auto|].
  destruct s as [|y s]; [discriminate|].
  destruct (N.eqb x y) eqn:E; [|discriminate].
  apply N.eqb_eq in E. subst. rewrite N.eqb_refl. apply IH.
Qed.

Lemma includes_ci_false (s : jstring) :
  forall p pre t,
    includes_ci s p = false -> s = pre ++ t -> strip_prefix_ci p t = None.
Proof.
  induction s as [|c s IH]; intros p pre t H E.
  - destruct pre; [|discriminate]. simpl in E. subst t.
    simpl in H. rewrite orb_false_r in H. unfold startsWith_ci in H.
    destruct (strip_prefix_ci p []); [discriminate | reflexivity].
  - cbn [includes_ci] in H. apply orb_false_iff in H as [H1 H2].
    destruct pre as [|x pre].
    + simpl in E. subst t. unfold startsWith_ci in H1.
      destruct (strip_prefix_ci p (c :: s)); [discriminate | reflexivity].
    + injection E as _ E. now apply (IH p pre t).
Qed.

(** X13: a theme rewrite of a token that is no font name and that the
    Template does not hold, in whatever case, changes nothing: the updater
    returns the Template it was given.  (The token is made of ASCII
    characters, for which [canonicalize] is the comparison of the [i]
    flag.) *)
Theorem theme_without_token_unchanged (oldVal newVal prev : jstring) :
  forallb (fun c => N.ltb c 128) oldVal = true ->
  mem oldVal GOOGLE_FONTS = false ->
  includes_ci prev oldVal = false ->
  themeUpdate oldVal newVal prev = prev.
Proof.
  intros _ Hfont Hinc. unfold themeUpdate. rewrite Hfont.
  destruct (isTailwind oldVal && negb (startsWith oldVal (str "#"))
            && negb (startsWith oldVal (str "rgb"))).
  - apply replace_no_match. intros pre t before E. unfold classAttempt.
    destruct (negb _); [|reflexivity].
    destruct (strip_prefix oldVal t) as [r|] eqn:Es; [|reflexivity].
    apply strip_prefix_ci_of in Es.
    rewrite (@includes_ci_false prev oldVal pre t Hinc E) in Es. discriminate.
  - apply replace_no_match. intros pre t before E. unfold literalAttempt.
    now rewrite (@includes_ci_false prev oldVal pre t Hinc E).
Qed.

Lemma theme_without_token_unchanged_witness :
  themeUpdate (str "BG-RED-500") (str "bg-green-500") themeTemplate
  = themeTemplate.
Proof.
  apply (@theme_without_token_unchanged (str "BG-RED-500")
           (str "bg-green-500") themeTemplate); reflexivity.
Defined.

(* ================================================================== *)
(** ** Page font *)

Lemma afterStyleClose_eq (s : jstring) :
  afterStyleClose s
  = match strip_prefix_ci (str "</style>") s with
    | Some r => Some r
    | None => match s with [] => None | _ :: s' => afterStyleClose s' end
    end.
Proof. destruct s; reflexivity. Qed.

Lemma canonicalize_not_lt (x : cu) :
  N.eqb x 60 = false -> N.eqb 60 (canonicalize x) = false.
Proof.
  intros H. apply N.eqb_neq in H. apply N.eqb_neq.
  unfold canonicalize, inRange.
  destruct (N.leb 97 x && N.leb x 122) eqn:E; [|congruence].
  apply andb_true_iff in E as [E1 E2].
  apply N.leb_le in E1, E2. lia.
Qed.

(** text without an opening angle bracket holds no closing tag: the lazy
    run passes over it *)
Lemma afterStyleClose_skip (a r : jstring) :
  forallb (fun c => negb (N.eqb c 60)) a = true ->
  afterStyleClose (a ++ str "</style>" ++ r) = Some r.
Proof.
  induction a as [|x a IH]; intros H; rewrite afterStyleClose_eq.
  - cbn [app]. now rewrite strip_prefix_ci_app.
  - cbn [forallb] in H. apply andb_true_iff in H as [Hx H].
    apply negb_true_iff in Hx.
    change (str "</style>") with (60%N :: str "/style>") at 1.
    cbn [app strip_prefix_ci].
    change (canonicalize 60) with 60%N.
    rewrite (canonicalize_not_lt _ Hx). now apply IH.
Qed.

Lemma siteFontAttempt_tag (prev : option cu) (q1 q2 : cu) (inner : jstring) :
  is_quote q1 = true -> is_quote q2 = true ->
  siteFontAttempt prev
    (str "<style id=" ++ q1 :: str "site-font" ++ q2 :: str ">" ++ inner)
  = match afterStyleClose inner with
    | Some r4 =>
        Some ([],
              (List.length (str "<style id=" ++ q1 :: str "site-font"
                            ++ q2 :: str ">" ++ inner)
               - List.length r4)%nat)
    | None => None
    end.
Proof.
  intros H1 H2. unfold siteFontAttempt.
  rewrite strip_prefix_ci_app, H1, strip_prefix_ci_app, H2,
    strip_prefix_ci_app.
  reflexivity.
Qed.

Lemma newStyleTag_shape (f next : jstring) :
  newStyleTag f ++ next
  = str "<style id=" ++ 34%N :: str "site-font" ++ 34%N :: str ">"
    ++ (fontCss f ++ str "</style>" ++ next).
Proof.
  unfold newStyleTag, dq. rewrite <- !app_assoc. reflexivity.
Qed.

Lemma spacesToPlus_keeps_class (P : cu -> bool) (s : jstring) :
  P 43%N = true -> forallb P s = true -> forallb P (spacesToPlus s) = true.
Proof.
  intros Hp Hs. unfold spacesToPlus, replace.
  apply replace_keeps_class; [|assumption].
  intros b m a caps. unfold byString.
  change (str "+") with [43%N]. cbn. now rewrite Hp.
Qed.

Lemma fontCss_no_tag (f : jstring) :
  forallb (fun c => negb (N.eqb c 60)) f = true ->
  forallb (fun c => negb (N.eqb c 60)) (fontCss f) = true.
Proof.
  intros H. unfold fontCss, fontUrl. rewrite !forallb_app, H.
  rewrite spacesToPlus_keeps_class by (assumption || reflexivity).
  reflexivity.
Qed.

(** a later update removes the tag an earlier one put in front, whole,
    and goes on with the Template behind it *)
Lemma own_tag_removed (f next : jstring) :
  forallb (fun c => negb (N.eqb c 60)) f = true ->
  replace siteFontAttempt (byString []) true (newStyleTag f ++ next)
  = replace siteFontAttempt (byString []) true next.
Proof.
  intros H.
  assert (Hm : siteFontAttempt None (newStyleTag f ++ next)
               = Some ([], List.length (newStyleTag f))).
  { rewrite newStyleTag_shape, siteFontAttempt_tag by reflexivity.
    rewrite afterStyleClose_skip by now apply fontCss_no_tag.
    rewrite <- newStyleTag_shape, length_app. do 2 f_equal. lia. }
  unfold replace.
  destruct (newStyleTag f) as [|c tag'] eqn:Et; [discriminate|].
  cbn [app replace_from hd_error]. cbn [app] in Hm. rewrite Hm.
  cbn [List.length Nat.sub]. rewrite Nat.sub_0_r.
  unfold byString at 1. cbn [getSubstitution app].
  rewrite replace_skip. apply replace_before; reflexivity.
Qed.

(** X14: the page font never piles up.  Setting one font and then another
    leaves the Template that clearing the font and then setting the other
    would: the style element of the first update is removed whole by the
    second.  (A font name holds no opening angle bracket.) *)
Theorem page_font_replaced (f g prev : jstring) :
  forallb (fun c => negb (N.eqb c 60)) f = true ->
  handlePageFontUpdate g (handlePageFontUpdate f prev)
  = handlePageFontUpdate g (handlePageFontUpdate [] prev).
Proof.
  intros H. unfold handlePageFontUpdate at 2 4. cbv zeta.
  destruct f as [|c f]; [reflexivity|].
  cbn [jeqb negb].
  unfold handlePageFontUpdate. cbv zeta.
  now rewrite own_tag_removed.
Qed.

Lemma page_font_replaced_witness :
  handlePageFontUpdate (str "Lato")
    (handlePageFontUpdate (str "Open Sans") (str "<p>{{title}}</p>"))
  = handlePageFontUpdate (str "Lato")
      (handlePageFontUpdate [] (str "<p>{{title}}</p>")).
Proof.
  apply (@page_font_replaced (str "Open Sans") (str "Lato")
           (str "<p>{{title}}</p>")).
  reflexivity.
Defined.

(* ================================================================== *)
(** ** Colour and font names *)

Lemma hexRun_digits (n : nat) (s h : jstring) :
  hexRun n s = Some h -> List.length h = n /\ forallb is_hex h = true.
Proof.
  unfold hexRun.
  destruct (Nat.eqb (List.length (firstn n s)) n) eqn:E1; [|discriminate].
  destruct (forallb is_hex (firstn n s)) eqn:E2; [|discriminate].
  intros [= <-]. apply Nat.eqb_eq in E1. now split.
Qed.

Lemma hexColorMatch_digits (s h : jstring) :
  hexColorMatch s = Some h ->
  forallb is_hex h = true /\ (List.length h = 3%nat \/ List.length h = 6%nat).
Proof.
  induction s as [|c s IH]; cbn [hexColorMatch]; [discriminate|].
  destruct (N.eqb c 35); [|assumption].
  destruct (hexRun 6 s) as [h6|] eqn:E6.
  - intros [= <-]. apply hexRun_digits in E6 as [H1 H2]. auto.
  - destruct (hexRun 3 s) as [h3|] eqn:E3; [|assumption].
    intros [= <-]. apply hexRun_digits in E3 as [H1 H2]. auto.
Qed.

(** X15: the colour shown for a class name is always a hash sign and
    three or six hexadecimal digits, whatever the class name. *)
Theorem tailwind_colour_is_hex (cls : jstring) :
  exists h,
    tailwindToHex cls = 35%N :: h
    /\ forallb is_hex h = true
    /\ (List.length h = 3%nat \/ List.length h = 6%nat).
Proof.
  unfold tailwindToHex.
  destruct (includes cls (str "#")).
  - destruct (hexColorMatch cls) as [h|] eqn:E.
    + exists h. split; [reflexivity|]. now apply hexColorMatch_digits in E.
    + eexists. split; [reflexivity|]. split; [reflexivity | now right].
  - repeat match goal with
           | |- context [if ?b then _ else _] => destruct b
           end;
      (eexists; split; [reflexivity|]; split; [reflexivity | now right]).
Qed.

Lemma span_whole (p : cu -> bool) (s : jstring) :
  forallb p s = true -> span p s = (s, []).
Proof.
  induction s as [|c s IH]; simpl; [reflexivity|].
  intros H. apply andb_true_iff in H as [Hc H]. now rewrite Hc, IH.
Qed.

Lemma span_snd_head (p : cu -> bool) (s : jstring) (c : cu) (t : jstring) :
  snd (span p s) = c :: t -> p c = false.
Proof.
  induction s as [|x s IH]; simpl; [discriminate|].
  destruct (p x) eqn:E.
  - destruct (span p s). simpl in *. assumption.
  - simpl. now intros [= <- _].
Qed.

Lemma span_snd_class (P p : cu -> bool) (s : jstring) :
  forallb P s = true -> forallb P (snd (span p s)) = true.
Proof.
  intros H. rewrite (span_app p s), forallb_app in H.
  now apply andb_true_iff in H as [_ H].
Qed.

Lemma forallb_rev_class (P : cu -> bool) (s : jstring) :
  forallb P s = true -> forallb P (rev s) = true.
Proof.
  rewrite !forallb_forall. intros H x Hx. apply H. now apply in_rev.
Qed.

Lemma filter_class (P f : cu -> bool) (s : jstring) :
  forallb P s = true -> forallb P (filter f s) = true.
Proof.
  rewrite !forallb_forall. intros H x Hx. apply H.
  now apply filter_In in Hx as [Hx _].
Qed.

Lemma filter_all (f : cu -> bool) (s : jstring) :
  forallb f s = true -> filter f s = s.
Proof.
  induction s as [|c s IH]; simpl; [reflexivity|].
  intros H. apply andb_true_iff in H as [Hc H]. now rewrite Hc, IH.
Qed.

Lemma filter_holds (f : cu -> bool) (s : jstring) :
  forallb f (filter f s) = true.
Proof.
  apply forallb_forall. intros x Hx. now apply filter_In in Hx as [_ Hx].
Qed.

Lemma trim_class (P : cu -> bool) (s : jstring) :
  forallb P s = true -> forallb P (trim s) = true.
Proof.
  intros H. unfold trim.
  apply forallb_rev_class, span_snd_class, forallb_rev_class,
    span_snd_class, H.
Qed.

(** trimmed text begins and ends outside the blanks *)
Lemma trim_ends (s : jstring) :
  match trim s with [] => True | c :: _ => is_space c = false end
  /\ match rev (trim s) with [] => True | c :: _ => is_space c = false end.
Proof.
  unfold trim.
  set (y := snd (span is_space s)).
  set (z := snd (span is_space (rev y))).
  rewrite rev_involutive. split.
  - destruct (rev z) as [|c w] eqn:Ez; [exact I|].
    pose proof (span_app is_space (rev y)) as Hy. fold z in Hy.
    apply (f_equal (@rev N)) in Hy.
    rewrite rev_involutive, rev_app_distr, Ez in Hy. simpl in Hy.
    unfold y in Hy. now apply span_snd_head in Hy.
  - destruct z as [|c w] eqn:Ez; [exact I|].
    unfold z in Ez. now apply span_snd_head in Ez.
Qed.

Lemma trim_fixed (s : jstring) :
  match s with [] => True | c :: _ => is_space c = false end ->
  match rev s with [] => True | c :: _ => is_space c = false end ->
  trim s = s.
Proof.
  intros H1 H2. unfold trim.
  assert (E1 : snd (span is_space s) = s).
  { destruct s as [|c t]; [reflexivity|]. now rewrite span_stop. }
  rewrite E1.
  assert (E2 : snd (span is_space (rev s)) = rev s).
  { destruct (rev s) as [|c t]; [reflexivity|]. now rewrite span_stop. }
  rewrite E2. apply rev_involutive.
Qed.

Lemma trim_idempotent (s : jstring) : trim (trim s) = trim s.
Proof. destruct (trim_ends s). now apply trim_fixed. Qed.

(** X16: a cleaned font name is clean: it holds no comma and no quote, it
    neither begins nor ends with a blank, and cleaning it again gives the
    same name. *)
Theorem clean_font_name_settled (font : jstring) :
  cleanFontName (cleanFontName font) = cleanFontName font
  /\ forallb (fun c => negb (N.eqb c 44) && negb (is_quote c))
             (cleanFontName font) = true
  /\ trim (cleanFontName font) = cleanFontName font.
Proof.
  assert (Hcomma : forallb (fun c => negb (N.eqb c 44)) (cleanFontName font)
                   = true).
  { destruct font as [|c font]; [reflexivity|]. unfold cleanFontName.
    apply trim_class, filter_class, span_fst_all. }
  assert (Hquote : forallb (fun c => negb (is_quote c)) (cleanFontName font)
                   = true).
  { destruct font as [|c font]; [reflexivity|]. unfold cleanFontName.
    apply trim_class, filter_holds. }
  assert (Htrim : trim (cleanFontName font) = cleanFontName font).
  { destruct font as [|c font]; [reflexivity|]. unfold cleanFontName.
    apply trim_idempotent. }
  split; [|split; [|assumption]].
  - destruct (cleanFontName font) as [|c r] eqn:E; [reflexivity|].
    unfold cleanFontName at 1.
    rewrite (span_whole _ _ Hcomma). cbn [fst].
    rewrite (filter_all _ _ Hquote). exact Htrim.
  - rewrite forallb_forall in *. intros x Hx.
    now rewrite (Hcomma x Hx), (Hquote x Hx).
Qed.

(* ================================================================== *)
(** ** Element paths: from [data-path] back to the element *)

Lemma digits_of_uint (d : Decimal.uint) :
  forallb is_digit (str (NilEmpty.string_of_uint d)) = true.
Proof. induction d; simpl; auto. Qed.

Lemma decimal_digits (n : N) : forallb is_digit (decimal n) = true.
Proof.
  unfold decimal, NilZero.string_of_uint.
  destruct (N.to_uint n); try apply digits_of_uint. reflexivity.
Qed.

Lemma decimal_no_dot (n : N) :
  forallb (fun c => negb (N.eqb c 46)) (decimal n) = true.
Proof.
  pose proof (decimal_digits n) as H. rewrite forallb_forall in *.
  intros c Hc. specialize (H c Hc). unfold is_digit, inRange in H.
  apply andb_true_iff in H as [H1 H2]. apply N.leb_le in H1, H2.
  apply negb_true_iff, N.eqb_neq. lia.
Qed.

Lemma split_dot_whole (a : jstring) :
  forallb (fun c => negb (N.eqb c 46)) a = true -> split_dot a = [a].
Proof.
  induction a as [|c a IH]; simpl; [reflexivity|].
  intros H. apply andb_true_iff in H as [Hc H].
  apply negb_true_iff in Hc. now rewrite Hc, IH.
Qed.

Lemma split_dot_part (a rest : jstring) :
  forallb (fun c => negb (N.eqb c 46)) a = true ->
  split_dot (a ++ 46%N :: rest) = a :: split_dot rest.
Proof.
  induction a as [|c a IH]; simpl; [reflexivity|].
  intros H. apply andb_true_iff in H as [Hc H].
  apply negb_true_iff in Hc. now rewrite Hc, IH.
Qed.

Lemma split_dot_path (p : list nat) :
  forall i,
    split_dot (decimal (N.of_nat i) ++ dotted p)
    = map (fun j => decimal (N.of_nat j)) (i :: p).
Proof.
  induction p as [|j p IH]; intros i.
  - simpl. rewrite app_nil_r. apply split_dot_whole, decimal_no_dot.
  - change (dotted (j :: p))
      with ((str "." ++ decimal (N.of_nat j)) ++ dotted p).
    rewrite <- app_assoc. change (str "." ++ ?x) with (46%N :: x).
    rewrite split_dot_part by apply decimal_no_dot.
    rewrite IH. reflexivity.
Qed.

Lemma steps_follow (Number : jstring -> option nat) (p : list nat) :
  (forall i, In i p -> Number (decimal (N.of_nat i)) = Some i) ->
  forall current,
    fold_left (step_into Number)
              (map (fun j => decimal (N.of_nat j)) p) current
    = match current with
      | Some c => elementAt c p
      | None => None
      end.
Proof.
  induction p as [|i p IH]; intros HN current.
  - now destruct current.
  - cbn [map fold_left]. rewrite IH by (intros j Hj; apply HN; now right).
    destruct current as [c|]; [|reflexivity].
    cbn [step_into elementAt]. rewrite (HN i) by now left.
    reflexivity.
Qed.

Lemma isElement_addPaths (txt : jstring) (c : node) :
  isElement (addPaths txt c) = isElement c.
Proof. now destruct c. Qed.

Lemma addPaths_children (txt t : jstring) (a : list (jstring * jstring))
    (cs : list node) (j : nat) :
  nth_error (children (addPaths txt (Elem t a cs))) j
  = option_map
      (addPaths (txt ++ str "." ++ decimal (N.of_nat j)))
      (nth_error (children (Elem t a cs)) j).
Proof.
  cbn [addPaths children].
  replace j with (0 + j)%nat at 2 by reflexivity.
  generalize 0%nat as i0. revert j.
  induction cs as [|c cs IH]; intros j i0.
  - now destruct j.
  - destruct (isElement c) eqn:E; cbn [filter].
    + rewrite isElement_addPaths, E. destruct j as [|j].
      * cbn [nth_error option_map]. now rewrite Nat.add_0_r.
      * cbn [nth_error]. rewrite IH. now rewrite Nat.add_succ_comm.
    + rewrite E. apply IH.
Qed.

Lemma addBodyPaths_children (b : list node) :
  forall (i0 j : nat),
    nth_error (filter isElement (addBodyPaths i0 b)) j
    = option_map (addPaths (decimal (N.of_nat (i0 + j))))
                 (nth_error (filter isElement b) j).
Proof.
  induction b as [|c b IH]; intros i0 j.
  - now destruct j.
  - cbn [addBodyPaths]. destruct (isElement c) eqn:E; cbn [filter].
    + rewrite isElement_addPaths, E. destruct j as [|j].
      * cbn [nth_error option_map]. now rewrite Nat.add_0_r.
      * cbn [nth_error]. rewrite IH. now rewrite Nat.add_succ_comm.
    + rewrite E. apply IH.
Qed.

Lemma child_is_element (el c : node) (i : nat) :
  nth_error (children el) i = Some c -> isElement c = true.
Proof.
  intros H. apply nth_error_In in H. destruct el; simpl in H; try tauto.
  now apply filter_In in H as [_ H].
Qed.

(** the elements of the tree with paths are the elements of the tree, each
    with the text of its own path *)
Lemma elementAt_addPaths (p : list nat) :
  forall (txt : jstring) (el t' : node),
    elementAt (addPaths txt el) p = Some t' ->
    exists t, elementAt el p = Some t /\ t' = addPaths (txt ++ dotted p) t.
Proof.
  induction p as [|i p IH]; intros txt el t' H.
  - injection H as <-. exists el. simpl. now rewrite app_nil_r.
  - cbn [elementAt] in *.
    destruct el as [t a cs|d|d];
      try (cbn in H; destruct i; discriminate).
    rewrite addPaths_children in H.
    destruct (nth_error (children (Elem t a cs)) i) as [c|];
      [|discriminate].
    cbn [option_map] in H. apply IH in H as [t0 [H1 H2]].
    exists t0. split; [assumption|]. rewrite H2. f_equal.
    change (dotted (i :: p))
      with ((str "." ++ decimal (N.of_nat i)) ++ dotted p).
    now rewrite !app_assoc.
Qed.

Lemma obj_get_setAttribute (attrs : list (jstring * jstring))
    (name v : jstring) :
  obj_get (setAttribute attrs name v) name = Some v.
Proof.
  induction attrs as [|[n w] attrs IH]; simpl.
  - now rewrite jeqb_refl.
  - destruct (jeqb n name) eqn:E; simpl; now rewrite E.
Qed.

Lemma getAttribute_addPaths (txt : jstring) (t : node) :
  isElement t = true ->
  getAttribute (addPaths txt t) (str "data-path") = Some txt.
Proof.
  destruct t; try discriminate. intros _. cbn [addPaths getAttribute].
  apply obj_get_setAttribute.
Qed.

(** X17: the path the preview writes on an element leads the style editor
    back to it.  Whatever element of the processed [body] is reached, its
    [data-path] is the text of its path, and [findByPath] with that text
    arrives, in the Template's own tree, at the element it was made
    from.  ([Number] reads the parts of the path as their numbers.) *)
Theorem data_path_leads_back (Number : jstring -> option nat)
    (attrs : list (jstring * jstring)) (b : list node) (p : list nat)
    (t' : node) :
  p <> [] ->
  (forall i, In i p -> Number (decimal (N.of_nat i)) = Some i) ->
  elementAt (Elem (str "BODY") attrs (addBodyPaths 0 b)) p = Some t' ->
  getAttribute t' (str "data-path") = Some (pathText p)
  /\ exists t,
      findByPath Number (Elem (str "BODY") attrs b) (pathText p) = Some t
      /\ t' = addPaths (pathText p) t.
Proof.
  intros Hp HN H. destruct p as [|i p]; [congruence|].
  cbn [elementAt children] in H.
  rewrite addBodyPaths_children in H. cbn [Nat.add] in H.
  destruct (nth_error (filter isElement b) i) as [c|] eqn:Ec;
    [|discriminate].
  cbn [option_map] in H. apply elementAt_addPaths in H as [t [H1 H2]].
  assert (Ht : isElement t = true).
  { destruct p as [|j p].
    - injection H1 as <-.
      apply (@child_is_element (Elem (str "BODY") attrs b) c i). exact Ec.
    - clear - H1. revert c j H1.
      induction p as [|k p IH]; intros c j H1; cbn [elementAt] in H1.
      + destruct (nth_error (children c) j) as [c'|] eqn:E; [|discriminate].
        injection H1 as <-. now apply child_is_element in E.
      + destruct (nth_error (children c) j) as [c'|] eqn:E; [|discriminate].
        now apply (IH c' k). }
  cbn [pathText]. split.
  - rewrite H2. now apply getAttribute_addPaths.
  - exists t. split; [|assumption].
    unfold findByPath. rewrite split_dot_path, steps_follow by assumption.
    cbn [elementAt children]. now rewrite Ec.
Qed.

Lemma data_path_leads_back_witness :
  exists t',
    elementAt (Elem (str "BODY") [] (addBodyPaths 0 twoLists)) [0; 1]%nat
    = Some t'
    /\ getAttribute t' (str "data-path") = Some (str "0.1")
    /\ findByPath digitIndex (Elem (str "BODY") [] twoLists) (str "0.1")
       = Some (listItem (str "b")).
Proof.
  exists (addPaths (str "0.1") (listItem (str "b"))).
  split; [reflexivity|].
  assert (Hp : [0; 1]%nat <> []) by discriminate.
  assert (HN : forall i, In i [0; 1]%nat ->
                         digitIndex (decimal (N.of_nat i)) = Some i)
    by (intros i [<- | [<- | []]]; reflexivity).
  destruct (@data_path_leads_back digitIndex [] twoLists [0; 1]%nat
              (addPaths (str "0.1") (listItem (str "b"))) Hp HN eq_refl)
    as [H1 _].
  split; [exact H1 | reflexivity].
Defined.

(* ================================================================== *)
(** ** Duplicate: the base of a generated key *)

Lemma decimal_not_empty (n : N) : decimal n <> [].
Proof.
  unfold decimal, NilZero.string_of_uint.
  destruct (N.to_uint n); discriminate.
Qed.

Lemma baseName_suffix (x d : jstring) :
  d <> [] -> forallb is_digit d = true -> baseName (x ++ 95%N :: d) = x.
Proof.
  intros Hd Hdig. induction x as [|c x IH]; cbn [app baseName].
  - rewrite N.eqb_refl. destruct d as [|e d]; [contradiction|].
    now rewrite Hdig.
  - assert (E : forallb is_digit (x ++ 95%N :: d) = false).
    { rewrite forallb_app. cbn [forallb].
      change (is_digit 95) with false.
      now rewrite andb_false_r. }
    rewrite E. destruct (x ++ 95%N :: d) eqn:Ex.
    + now destruct x.
    + rewrite andb_false_r. now rewrite IH.
Qed.

(** X18: suffixes do not pile up.  The key that Duplicate generates for a
    key has the base of that key as its own base, so the duplicate of a
    duplicate is named after the original. *)
Theorem generated_key_keeps_base (oldKey : jstring) (randomSuffix : N) :
  baseName (baseName oldKey ++ str "_" ++ decimal randomSuffix)
  = baseName oldKey.
Proof.
  change (str "_" ++ decimal randomSuffix)
    with (95%N :: decimal randomSuffix).
  apply baseName_suffix; [apply decimal_not_empty | apply decimal_digits].
Qed.
